(** * Gridcoin wallet transaction engine: a shallow embedding of
      [src/wallet/wallet.cpp] and the properties of its coin selection,
      transaction builder, staking selection, spent-flag reconciliation,
      vault unlocking and stake balance views; with the scripts,
      serialization, dump-file labels, spent flags and key pool around them.

    Conventions of the embedding.
    - [int64_t] amounts ([CAmount]) are integers of [Z]. Signed overflow is
      undefined in C++, and every amount the wallet handles is bounded by
      the money supply, so sums are taken in [Z]; the one place where the
      code relies on the width of the type, the [numeric_limits<int64_t>::max()]
      sentinel of [SelectCoinsMinConf], is kept as [INT64_MAX]. The theorems
      that depend on the sums of the code being those of [Z] state the
      bound ([amounts_in_int64]).
    - [unsigned int] time stamps are integers of [Z]; the one unsigned sum of
      the code ([nTime + nStakeMinAge]) is reduced modulo [2^32].
    - A [const CWalletTx*] points into [mapWallet], whose key is the
      transaction hash: the pointee is a [CWalletTx] record and two pointers
      are equal when the hashes are.
    - Functions that write through reference parameters return the written
      values.
    - Whatever [wallet.cpp] calls but does not define (chain state, key
      store, scripts, fee policy, random numbers) is a member of one of the
      interface classes below. *)

From stdpp Require Import base list numbers.
From stdpp Require gmap.
From Stdlib Require Import ZArith Lia Strings.Byte.

Open Scope Z_scope.

(** ** Data model *)

Definition uint256 := Z.
Definition CScript := list byte.
Definition CPubKey := Z.

Definition INT64_MAX : Z := 9223372036854775807.
Definition UINT32_MOD : Z := 4294967296.

Inductive isminetype := ISMINE_NO | ISMINE_WATCH_ONLY | ISMINE_SPENDABLE.

Definition ismine_ne_NO (m : isminetype) : bool :=
  match m with ISMINE_NO => false | _ => true end.

Inductive CTxDestination :=
| CNoDestination
| CKeyID (id : Z)
| CScriptID (id : Z).

Inductive ContractType := MESSAGE | OTHER_CONTRACT (tag : nat).

Definition ContractType_is_MESSAGE (t : ContractType) : bool :=
  match t with MESSAGE => true | _ => false end.

Record Contract := mkContract {
  m_type : ContractType;
  RequiredBurnAmount : Z
}.

Record CTxIn := mkTxIn {
  prevout_hash : uint256;
  prevout_n : nat;
  scriptSig : CScript
}.

Record CTxOut := mkTxOut {
  nValue : Z;
  scriptPubKey : CScript
}.

Record CWalletTx := mkWalletTx {
  hash : uint256;                 (* GetHash(), the key under which mapWallet holds it *)
  nTime : Z;
  vin : list CTxIn;
  vout : list CTxOut;
  vContracts : list Contract;
  vfSpent : list bool;
  fFromMe : bool;
  fTimeReceivedIsTxTime : bool
}.

(** [COutput(tx, i, nDepth)] *)
Record COutput := mkOutput {
  out_tx : CWalletTx;
  out_i : nat;
  out_nDepth : Z
}.

(** [pair<const CWalletTx*, unsigned int>] *)
Abbreviation Coin := (CWalletTx * nat)%type (only parsing).

(** [pcoin->vout[i].nValue]; indexing past the end is undefined in the
    source and reads 0 here. *)
Definition vout_value (pcoin : CWalletTx) (i : nat) : Z :=
  match vout pcoin !! i with
  | Some o => nValue o
  | None => 0
  end.

Definition coin_value (c : Coin) : Z := vout_value (fst c) (snd c).
Definition output_value (o : COutput) : Z := vout_value (out_tx o) (out_i o).
Definition output_coin (o : COutput) : Coin := (out_tx o, out_i o).

(** Identity of a [pair<const CWalletTx*, unsigned int>]: the hash of the
    pointee and the output index. *)
Definition coin_key (c : Coin) : uint256 * nat := (hash (fst c), snd c).

Definition coin_eqb (a b : Coin) : bool :=
  (hash (fst a) =? hash (fst b)) && Nat.eqb (snd a) (snd b).

(** [std::set<pair<const CWalletTx*, unsigned int>>]: a list without two
    coins of the same identity; [insert] leaves the set alone when the coin
    is already in it. The set of the code iterates by the addresses of the
    transactions, which the source does not fix; the list keeps the order
    of insertion, and the statements below are about the coins of a set and
    their total, not about their order. *)
Abbreviation CoinSet := (list (CWalletTx * nat)) (only parsing).

Definition set_insert (c : Coin) (s : CoinSet) : CoinSet :=
  if existsb (coin_eqb c) s then s else s ++ [c].

Fixpoint sumZ (l : list Z) : Z :=
  match l with
  | [] => 0
  | x :: t => x + sumZ t
  end.

Definition set_total (s : CoinSet) : Z := sumZ (map coin_value s).

(** ** Interfaces to the rest of the node *)

(** Constants and settings declared outside [wallet.cpp]. *)
Class Params := {
  CENT : Z;
  nMinimumInputValue : Z;
  nStakeMinAge : Z;
  nCoinbaseMaturity : Z;
  nReserveBalance : Z;
  nTransactionFee : Z;
  MAX_STANDARD_TX_SIZE : Z
}.

(** [CDiskTxPos], of which the wallet only asks [IsNull()]. *)
Record CDiskTxPos := mkDiskTxPos {
  IsNull : bool
}.

(** [CTxIndex]: where each output of a transaction was spent, a null
    position while it is unspent. *)
Record CTxIndex := mkTxIndex {
  vSpent : list CDiskTxPos
}.

(** [CCoinControl], by its three observations. *)
Record CCoinControl := mkCoinControl {
  HasSelected : bool;
  IsSelected : uint256 -> nat -> bool;
  destChange : CTxDestination
}.

(** [GRC::MinerStatus::ErrorFlags], the codes that the wallet reports and
    the others. *)
Inductive ErrorFlags :=
| NONE
| NO_MATURE_COINS
| NO_COINS
| ENTIRE_BALANCE_RESERVED
| NO_UTXOS_AVAILABLE_DUE_TO_RESERVE
| OTHER_FLAG (n : nat).

(** [std::map<uint256, CWalletTx> mapWallet], in the order of its iterator. *)
Abbreviation WalletMap := (list (uint256 * CWalletTx)) (only parsing).

(** Chain state, transaction index and key store, as the wallet reads them. *)
Class Chain := {
  GetDepthInMainChain : CWalletTx -> Z;
  GetBlocksToMaturity : CWalletTx -> Z;
  IsCoinBase : CWalletTx -> bool;
  IsCoinStake : CWalletTx -> bool;
  IsFromMe : CWalletTx -> bool;
  IsTrusted : CWalletTx -> bool;
  IsFinalTx : CWalletTx -> bool;
  AreDependenciesConfirmed : CWalletTx -> bool;
  IsMine : CTxOut -> isminetype;
  GetCredit : CWalletTx -> Z;
  ReadTxIndex : uint256 -> option CTxIndex
}.

(** [FastRandomContext] and [Shuffle] of [random.h]. *)
Class Random := {
  FastRandomContext : Type;
  randbool : FastRandomContext -> bool * FastRandomContext;
  Shuffle : forall {A : Type}, list A -> FastRandomContext -> list A;
  GetRandInt : FastRandomContext -> Z -> Z
}.

(** The contexts that the default constructor [FastRandomContext()] yields:
    every construction site of a function draws the context of its own
    index. *)
Definition Entropy `{Random} : Type := nat -> FastRandomContext.

Definition later `{Random} (k : nat) (e : Entropy) : Entropy := fun j => e (k + j)%nat.

(** [Shuffle] returns a rearrangement of its argument. *)
Definition Shuffle_permutes `{Random} : Prop :=
  forall (A : Type) (l : list A) (rng : FastRandomContext), Permutation l (Shuffle l rng).

(** ** Coin selection *)

(** [std::sort(first, last, comp)]: an insertion sort by the strict order
    [comp]; the order it leaves between elements that [comp] does not
    separate is one of those [std::sort] may leave. *)
Fixpoint sort_insert {A : Type} (comp : A -> A -> bool) (x : A) (l : list A) : list A :=
  match l with
  | [] => [x]
  | y :: t => if comp y x then y :: sort_insert comp x t else x :: l
  end.

Fixpoint std_sort {A : Type} (comp : A -> A -> bool) (l : list A) : list A :=
  match l with
  | [] => []
  | x :: t => sort_insert comp x (std_sort comp t)
  end.

(** [std::sort(v.rbegin(), v.rend(), comp)]: the reversed sequence is put in
    order. *)
Definition std_sort_reverse {A : Type} (comp : A -> A -> bool) (l : list A) : list A :=
  rev (std_sort comp (rev l)).

(** [pair<int64_t, pair<const CWalletTx*, unsigned int>>] *)
Abbreviation ValueCoin := (Z * (CWalletTx * nat))%type (only parsing).

Definition CompareValueOnly (t1 t2 : ValueCoin) : bool := fst t1 <? fst t2.

Definition smallestcoincomp (a b : COutput) : bool :=
  vout_value (out_tx a) (out_i a) <? vout_value (out_tx b) (out_i b).

(** [vValue[i].first] *)
Definition value_at (vValue : list ValueCoin) (i : nat) : Z :=
  match vValue !! i with
  | Some p => fst p
  | None => 0
  end.

(** [vf[i]] of a [vector<char>] *)
Definition flag_at (vf : list bool) (i : nat) : bool := default false (vf !! i).

Section CoinSelection.
Context `{P : Params} `{C : Chain} `{R : Random}.

(** The variables of [ApproximateBestSubset]. *)
Record ABS := mkABS {
  abs_rng : FastRandomContext;
  abs_nTotal : Z;
  abs_vfIncluded : list bool;
  abs_fReachedTarget : bool;
  abs_nBest : Z;
  abs_vfBest : list bool
}.

(** Body of the loop over [i]. *)
Definition abs_visit (vValue : list ValueCoin) (nTargetValue : Z) (nPass : nat)
    (s : ABS) (i : nat) : ABS :=
  let '(take, rng) :=
    if Nat.eqb nPass 0 then randbool (abs_rng s)
    else (negb (flag_at (abs_vfIncluded s) i), abs_rng s) in
  if take then
    let nTotal := abs_nTotal s + value_at vValue i in
    let vfIncluded := <[i := true]> (abs_vfIncluded s) in
    if nTargetValue <=? nTotal then
      let better := nTotal <? abs_nBest s in
      mkABS rng (nTotal - value_at vValue i) (<[i := false]> vfIncluded) true
            (if better then nTotal else abs_nBest s)
            (if better then vfIncluded else abs_vfBest s)
    else
      mkABS rng nTotal vfIncluded (abs_fReachedTarget s) (abs_nBest s) (abs_vfBest s)
  else
    mkABS rng (abs_nTotal s) (abs_vfIncluded s) (abs_fReachedTarget s)
          (abs_nBest s) (abs_vfBest s).

Definition abs_pass (vValue : list ValueCoin) (nTargetValue : Z) (nPass : nat) (s : ABS) : ABS :=
  foldl (abs_visit vValue nTargetValue nPass) s (seq 0 (length vValue)).

(** [for (nPass = 0; nPass < 2 && !fReachedTarget; nPass++)] *)
Definition abs_passes (vValue : list ValueCoin) (nTargetValue : Z) (s : ABS) : ABS :=
  foldl (fun s nPass => if abs_fReachedTarget s then s else abs_pass vValue nTargetValue nPass s)
        s [0%nat; 1%nat].

(** Body of the loop over [nRep]. *)
Definition abs_trial (vValue : list ValueCoin) (nTargetValue : Z) (s : ABS) : ABS :=
  abs_passes vValue nTargetValue
    (mkABS (abs_rng s) 0 (replicate (length vValue) false) false (abs_nBest s) (abs_vfBest s)).

(** [for (nRep = 0; nRep < iterations && nBest != nTargetValue; nRep++)],
    by the number of repetitions left. *)
Fixpoint abs_reps (vValue : list ValueCoin) (nTargetValue : Z) (reps : nat) (s : ABS) : ABS :=
  match reps with
  | O => s
  | S reps' =>
      if abs_nBest s =? nTargetValue then s
      else abs_reps vValue nTargetValue reps' (abs_trial vValue nTargetValue s)
  end.

(** [ApproximateBestSubset(vValue, nTotalLower, nTargetValue, vfBest, nBest, iterations)]
    with its local [FastRandomContext rng]; returns [(vfBest, nBest)]. *)
Definition ApproximateBestSubset (rng : FastRandomContext) (vValue : list ValueCoin)
    (nTotalLower nTargetValue : Z) (iterations : nat) : list bool * Z :=
  let s := abs_reps vValue nTargetValue iterations
             (mkABS rng 0 [] false nTotalLower (replicate (length vValue) true)) in
  (abs_vfBest s, abs_nBest s).

(** The two tests under which [SelectCoinsMinConf] and [SelectSmallestCoins]
    skip an output. *)
Definition depth_too_low (nConfMine nConfTheirs : Z) (output : COutput) : bool :=
  out_nDepth output <? (if IsFromMe (out_tx output) then nConfMine else nConfTheirs).

Definition too_recent (nSpendTime : Z) (output : COutput) : bool :=
  nSpendTime <? nTime (out_tx output).

(** What the first loop of [SelectCoinsMinConf] builds. *)
Record Partition := mkPartition {
  vValue : list ValueCoin;
  nTotalLower : Z;
  coinLowestLarger : Z * option Coin   (* [.first], and [.second] unless [.second.first] is null *)
}.

Definition Partition_init : Partition := mkPartition [] 0 (INT64_MAX, None).

(** The first loop of [SelectCoinsMinConf]: [inl coin] when it returns from
    inside the loop. [nTargetValue + CENT] and [nTotalLower] are sums of
    [int64_t] in the code, and sums of [Z] here: the same for amounts whose
    sums are amounts of [int64_t]. *)
Fixpoint scan_coins (nTargetValue nSpendTime nConfMine nConfTheirs : Z)
    (vCoins : list COutput) (acc : Partition) : ValueCoin + Partition :=
  match vCoins with
  | [] => inr acc
  | output :: rest =>
      let continue := scan_coins nTargetValue nSpendTime nConfMine nConfTheirs rest in
      let pcoin := out_tx output in
      if depth_too_low nConfMine nConfTheirs output then continue acc
      else
        let i := out_i output in
        if too_recent nSpendTime output then continue acc
        else
          let n := vout_value pcoin i in
          let coin : ValueCoin := (n, (pcoin, i)) in
          if n =? nTargetValue then inl coin
          else if n <? nTargetValue + CENT then
            continue (mkPartition (vValue acc ++ [coin]) (nTotalLower acc + n) (coinLowestLarger acc))
          else if n <? fst (coinLowestLarger acc) then
            continue (mkPartition (vValue acc) (nTotalLower acc) (n, Some (pcoin, i)))
          else continue acc
  end.

(** [for (i = 0; i < vValue.size(); i++) if (vfBest[i]) { insert; nValueRet += }] *)
Definition take_best (vValue : list ValueCoin) (vfBest : list bool)
    (acc : CoinSet * Z) : CoinSet * Z :=
  foldl (fun '(setCoinsRet, nValueRet) i =>
           if flag_at vfBest i then
             match vValue !! i with
             | Some p => (set_insert (snd p) setCoinsRet, nValueRet + fst p)
             | None => (setCoinsRet, nValueRet)
             end
           else (setCoinsRet, nValueRet))
        acc (seq 0 (length vValue)).

(** [for (i = 0; i < vValue.size(); ++i) { insert; nValueRet += }] *)
Definition take_all (vValue : list ValueCoin) (acc : CoinSet * Z) : CoinSet * Z :=
  foldl (fun '(setCoinsRet, nValueRet) (p : ValueCoin) =>
           (set_insert (snd p) setCoinsRet, nValueRet + fst p))
        acc vValue.

(** The two calls of [ApproximateBestSubset] in [SelectCoinsMinConf];
    returns [(vfBest, nBest)]. *)
Definition approximate (e : Entropy) (vValue : list ValueCoin) (nTotalLower nTargetValue : Z)
    : list bool * Z :=
  let '(vfBest, nBest) := ApproximateBestSubset (e 1%nat) vValue nTotalLower nTargetValue 1000 in
  if negb (nBest =? nTargetValue) && (nTargetValue + CENT <=? nTotalLower) then
    ApproximateBestSubset (e 2%nat) vValue nTotalLower (nTargetValue + CENT) 1000
  else (vfBest, nBest).

(** The test of the last [if] of [SelectCoinsMinConf], given that
    [coinLowestLarger.second.first] is not null. *)
Definition prefer_larger (nTargetValue nBest nLarger : Z) : bool :=
  (negb (nBest =? nTargetValue) && (nBest <? nTargetValue + CENT)) || (nLarger <=? nBest).

(** [CWallet::SelectCoinsMinConf]; returns [(result, setCoinsRet, nValueRet)]. *)
Definition SelectCoinsMinConf (e : Entropy) (nTargetValue nSpendTime nConfMine nConfTheirs : Z)
    (vCoins : list COutput) : bool * CoinSet * Z :=
  let vCoins := Shuffle vCoins (e 0%nat) in
  match scan_coins nTargetValue nSpendTime nConfMine nConfTheirs vCoins Partition_init with
  | inl coin => (true, set_insert (snd coin) [], 0 + fst coin)
  | inr p =>
      if nTotalLower p =? nTargetValue then
        let '(setCoinsRet, nValueRet) := take_all (vValue p) ([], 0) in
        (true, setCoinsRet, nValueRet)
      else if nTotalLower p <? nTargetValue then
        match snd (coinLowestLarger p) with
        | None => (false, [], 0)
        | Some c => (true, set_insert c [], 0 + fst (coinLowestLarger p))
        end
      else
        let vValue := std_sort_reverse CompareValueOnly (vValue p) in
        let '(vfBest, nBest) := approximate e vValue (nTotalLower p) nTargetValue in
        match snd (coinLowestLarger p) with
        | Some c =>
            if prefer_larger nTargetValue nBest (fst (coinLowestLarger p)) then
              (true, set_insert c [], 0 + fst (coinLowestLarger p))
            else
              let '(setCoinsRet, nValueRet) := take_best vValue vfBest ([], 0) in
              (true, setCoinsRet, nValueRet)
        | None =>
            let '(setCoinsRet, nValueRet) := take_best vValue vfBest ([], 0) in
            (true, setCoinsRet, nValueRet)
        end
  end.

(** The loop of [SelectSmallestCoins]. *)
Fixpoint smallest_loop (nTargetValue nSpendTime nConfMine nConfTheirs : Z)
    (vCoins : list COutput) (setCoinsRet : CoinSet) (nValueRet : Z) : bool * CoinSet * Z :=
  match vCoins with
  | [] => (false, setCoinsRet, nValueRet)
  | output :: rest =>
      let pcoin := out_tx output in
      if depth_too_low nConfMine nConfTheirs output then
        smallest_loop nTargetValue nSpendTime nConfMine nConfTheirs rest setCoinsRet nValueRet
      else if too_recent nSpendTime output then
        smallest_loop nTargetValue nSpendTime nConfMine nConfTheirs rest setCoinsRet nValueRet
      else
        let setCoinsRet := set_insert (pcoin, out_i output) setCoinsRet in
        let nValueRet := nValueRet + vout_value pcoin (out_i output) in
        if nTargetValue <=? nValueRet then (true, setCoinsRet, nValueRet)
        else smallest_loop nTargetValue nSpendTime nConfMine nConfTheirs rest setCoinsRet nValueRet
  end.

(** [CWallet::SelectSmallestCoins]; returns [(result, setCoinsRet, nValueRet)]. *)
Definition SelectSmallestCoins (nTargetValue nSpendTime nConfMine nConfTheirs : Z)
    (vCoins : list COutput) : bool * CoinSet * Z :=
  smallest_loop nTargetValue nSpendTime nConfMine nConfTheirs
    (std_sort smallestcoincomp vCoins) [] 0.

End CoinSelection.

(** ** The spent bitmap of a wallet transaction *)

(** Modelled from the spec: [CWalletTx::IsSpent] is declared in [wallet.h],
    which is not part of the sources at hand. The record carries a
    per-output spent bitmap [vfSpent]; an output without an entry counts as
    unspent. *)
Definition IsSpent (pcoin : CWalletTx) (nOut : nat) : bool :=
  flag_at (vfSpent pcoin) nOut.

Definition set_vfSpent (pcoin : CWalletTx) (vf : list bool) : CWalletTx :=
  mkWalletTx (hash pcoin) (nTime pcoin) (vin pcoin) (vout pcoin) (vContracts pcoin)
             vf (fFromMe pcoin) (fTimeReceivedIsTxTime pcoin).

(** Modelled from the spec: [CWalletTx::MarkSpent] is declared in
    [wallet.h], which is not part of the sources at hand. Marking gives the
    bitmap exactly one entry per output and sets the entry of [nOut]. *)
Definition MarkSpent (pcoin : CWalletTx) (nOut : nat) : CWalletTx :=
  set_vfSpent pcoin (<[nOut := true]> (resize (length (vout pcoin)) false (vfSpent pcoin))).

(** Modelled from the spec: [CWalletTx::MarkUnspent] is declared in
    [wallet.h], which is not part of the sources at hand. Marking gives the
    bitmap exactly one entry per output and clears the entry of [nOut]. *)
Definition MarkUnspent (pcoin : CWalletTx) (nOut : nat) : CWalletTx :=
  set_vfSpent pcoin (<[nOut := false]> (resize (length (vout pcoin)) false (vfSpent pcoin))).

(** ** Enumeration of coins, balance views and reconciliation *)

Section Ledger.
Context `{P : Params} `{C : Chain} `{R : Random}.

(** [IsMine(pcoin->vout[i]) != ISMINE_NO] *)
Definition IsMine_at (pcoin : CWalletTx) (i : nat) : bool :=
  match vout pcoin !! i with
  | Some o => ismine_ne_NO (IsMine o)
  | None => false
  end.

(** [!coinControl || !coinControl->HasSelected() || coinControl->IsSelected(hash, i)] *)
Definition coin_control_allows (coinControl : option CCoinControl) (h : uint256) (i : nat) : bool :=
  match coinControl with
  | None => true
  | Some cc => negb (HasSelected cc) || IsSelected cc h i
  end.

(** [coinControl && coinControl->HasSelected()] *)
Definition coin_control_selected (coinControl : option CCoinControl) : bool :=
  match coinControl with
  | None => false
  | Some cc => HasSelected cc
  end.

(** Body of the loop of [AvailableCoins] over [mapWallet]. *)
Definition AvailableCoins_visit (fOnlyConfirmed : bool) (coinControl : option CCoinControl)
    (fIncludeStakedCoins : bool) (vCoins : list COutput) (it : uint256 * CWalletTx)
    : list COutput :=
  let pcoin := snd it in
  let nDepth := GetDepthInMainChain pcoin in
  let skip :=
    if negb fIncludeStakedCoins then
      negb (IsFinalTx pcoin)
      || (fOnlyConfirmed && negb (IsTrusted pcoin))
      || ((IsCoinBase pcoin || IsCoinStake pcoin) && (0 <? GetBlocksToMaturity pcoin))
      || (nDepth <? 0)
    else nDepth <? 1 in
  if skip then vCoins
  else
    foldl (fun vCoins i =>
             if (negb (IsSpent pcoin i) && IsMine_at pcoin i
                 && (nMinimumInputValue <=? vout_value pcoin i)
                 && coin_control_allows coinControl (fst it) i)
                || (fIncludeStakedCoins && IsCoinStake pcoin
                    && (0 <? GetBlocksToMaturity pcoin) && (0 <? GetDepthInMainChain pcoin))
             then vCoins ++ [mkOutput pcoin i nDepth]
             else vCoins)
          vCoins (seq 0 (length (vout pcoin))).

(** [CWallet::AvailableCoins]; returns [vCoins]. *)
Definition AvailableCoins (mapWallet : WalletMap) (fOnlyConfirmed : bool)
    (coinControl : option CCoinControl) (fIncludeStakedCoins : bool) : list COutput :=
  foldl (AvailableCoins_visit fOnlyConfirmed coinControl fIncludeStakedCoins) [] mapWallet.

(** [CWallet::SelectCoins]; [setCoinsRet] and [nValueRet] are passed in as
    the caller holds them and returned with the result. *)
Definition SelectCoins (e : Entropy) (mapWallet : WalletMap) (nTargetValue nSpendTime : Z)
    (setCoinsRet : CoinSet) (nValueRet : Z) (coinControl : option CCoinControl)
    (contract : bool) : bool * CoinSet * Z :=
  let vCoins := AvailableCoins mapWallet true coinControl false in
  if coin_control_selected coinControl then
    let '(setCoinsRet, nValueRet) :=
      foldl (fun '(setCoinsRet, nValueRet) (out : COutput) =>
               (set_insert (out_tx out, out_i out) setCoinsRet,
                nValueRet + vout_value (out_tx out) (out_i out)))
            (setCoinsRet, nValueRet) vCoins in
    (nTargetValue <=? nValueRet, setCoinsRet, nValueRet)
  else if contract then
    let r1 := SelectSmallestCoins nTargetValue nSpendTime 1 10 vCoins in
    if fst (fst r1) then r1
    else
      let r2 := SelectSmallestCoins nTargetValue nSpendTime 1 1 vCoins in
      if fst (fst r2) then r2
      else SelectSmallestCoins nTargetValue nSpendTime 0 1 vCoins
  else
    let r1 := SelectCoinsMinConf e nTargetValue nSpendTime 1 10 vCoins in
    if fst (fst r1) then r1
    else
      let r2 := SelectCoinsMinConf (later 3 e) nTargetValue nSpendTime 1 1 vCoins in
      if fst (fst r2) then r2
      else SelectCoinsMinConf (later 6 e) nTargetValue nSpendTime 0 1 vCoins.

(** The first inner loop of [AvailableCoinsForStaking]: adds to
    [balance_out] and fills [possible_vCoins]. *)
Definition staking_balance_loop (pcoin : CWalletTx) (balance_out : Z) : Z * list Coin :=
  foldl (fun '(balance_out, possible_vCoins) i =>
           if negb (IsSpent pcoin i) && IsMine_at pcoin i && (0 <? vout_value pcoin i)
           then (balance_out + vout_value pcoin i, possible_vCoins ++ [(pcoin, i)])
           else (balance_out, possible_vCoins))
        (balance_out, []) (seq 0 (length (vout pcoin))).

(** Body of the loop of [AvailableCoinsForStaking] over [mapWallet]. *)
Definition AvailableCoinsForStaking_visit (nSpendTime : Z) (acc : list COutput * Z)
    (it : uint256 * CWalletTx) : list COutput * Z :=
  let '(vCoins, balance_out) := acc in
  let pcoin := snd it in
  let nDepth := GetDepthInMainChain pcoin in
  let '(balance_out, possible_vCoins) :=
    if (0 <? nDepth)
       || (fFromMe pcoin && (AreDependenciesConfirmed pcoin || IsCoinStake pcoin))
    then staking_balance_loop pcoin balance_out
    else (balance_out, []) in
  match possible_vCoins with
  | [] => (vCoins, balance_out)
  | _ =>
      if nSpendTime <? (nTime pcoin + nStakeMinAge) mod UINT32_MOD then (vCoins, balance_out)
      else
        let immature :=
          if IsCoinBase pcoin || IsCoinStake pcoin then
            let blocks_to_maturity := Z.max 0 ((nCoinbaseMaturity + 10) - nDepth) in
            0 <? blocks_to_maturity
          else nDepth <? 1 in
        if immature then (vCoins, balance_out)
        else
          (foldl (fun vCoins (iter : Coin) =>
                    if nMinimumInputValue <=? vout_value (fst iter) (snd iter)
                    then vCoins ++ [mkOutput (fst iter) (snd iter) nDepth]
                    else vCoins)
                 vCoins possible_vCoins,
           balance_out)
  end.

(** [CWallet::AvailableCoinsForStaking]; [balance_out] is added to, not
    reset; returns [(vCoins, balance_out)]. *)
Definition AvailableCoinsForStaking (mapWallet : WalletMap) (nSpendTime : Z) (balance_out : Z)
    : list COutput * Z :=
  foldl (AvailableCoinsForStaking_visit nSpendTime) ([], balance_out) mapWallet.

(** What [SelectCoinsForStaking] leaves in its reference parameters. *)
Record StakingResult := mkStakingResult {
  sr_ok : bool;
  sr_vCoinsRet : list Coin;
  sr_not_staking_error : ErrorFlags;
  sr_balance_out : Z
}.

(** [CWallet::SelectCoinsForStaking] *)
Definition SelectCoinsForStaking (e : Entropy) (mapWallet : WalletMap) (nSpendTime : Z)
    (vCoinsRet : list Coin) (not_staking_error : ErrorFlags) (balance_out : Z)
    (fMiner : bool) : StakingResult :=
  let '(vCoins, balance_out) := AvailableCoinsForStaking mapWallet nSpendTime balance_out in
  let BalanceToConsider := balance_out in
  if BalanceToConsider <=? 0 then
    mkStakingResult false vCoinsRet (if fMiner then NO_COINS else not_staking_error) balance_out
  else
    let BalanceToConsider := BalanceToConsider - nReserveBalance in
    if BalanceToConsider <=? 0 then
      mkStakingResult false vCoinsRet
        (if fMiner then ENTIRE_BALANCE_RESERVED else not_staking_error) balance_out
    else
      match vCoins with
      | [] =>
          mkStakingResult false vCoinsRet
            (if fMiner then NO_MATURE_COINS else not_staking_error) balance_out
      | _ =>
          let vCoinsRet :=
            foldl (fun vCoinsRet (output : COutput) =>
                     if vout_value (out_tx output) (out_i output) <=? BalanceToConsider
                     then vCoinsRet ++ [(out_tx output, out_i output)]
                     else vCoinsRet)
                  [] vCoins in
          match vCoinsRet with
          | [] =>
              mkStakingResult false vCoinsRet
                (if fMiner then NO_UTXOS_AVAILABLE_DUE_TO_RESERVE else not_staking_error)
                balance_out
          | _ =>
              mkStakingResult true
                (if fMiner then Shuffle vCoinsRet (e 0%nat) else vCoinsRet)
                not_staking_error balance_out
          end
      end.

(** [CWallet::GetStake] *)
Definition GetStake (mapWallet : WalletMap) : Z :=
  foldl (fun nTotal (it : uint256 * CWalletTx) =>
           let pcoin := snd it in
           if IsCoinStake pcoin && (0 <? GetBlocksToMaturity pcoin)
              && (0 <? GetDepthInMainChain pcoin)
           then nTotal + GetCredit pcoin
           else nTotal)
        0 mapWallet.

(** [CWallet::GetNewMint] *)
Definition GetNewMint (mapWallet : WalletMap) : Z :=
  foldl (fun nTotal (it : uint256 * CWalletTx) =>
           let pcoin := snd it in
           if IsCoinStake pcoin && (0 <? GetBlocksToMaturity pcoin)
              && (0 <? GetDepthInMainChain pcoin)
           then nTotal + GetCredit pcoin
           else nTotal)
        0 mapWallet.

(** [txindex.vSpent.size() <= n || txindex.vSpent[n].IsNull()] *)
Definition index_says_unspent (txindex : CTxIndex) (n : nat) : bool :=
  (length (vSpent txindex) <=? n)%nat
  || match vSpent txindex !! n with Some pos => IsNull pos | None => false end.

(** [txindex.vSpent.size() > n && !txindex.vSpent[n].IsNull()] *)
Definition index_says_spent (txindex : CTxIndex) (n : nat) : bool :=
  (n <? length (vSpent txindex))%nat
  && match vSpent txindex !! n with Some pos => negb (IsNull pos) | None => false end.

(** Body of the loop of [FixSpentCoins] over the outputs of [pcoin]; the
    state is the transaction and the two counters. [WriteToDisk] stores the
    record and leaves the wallet in memory as it is. *)
Definition FixSpentCoins_output (fCheckOnly : bool) (txindex : CTxIndex)
    (acc : CWalletTx * Z * Z) (n : nat) : CWalletTx * Z * Z :=
  let '(pcoin, nMismatchFound, nBalanceInQuestion) := acc in
  if IsMine_at pcoin n && IsSpent pcoin n && index_says_unspent txindex n then
    (if negb fCheckOnly then MarkUnspent pcoin n else pcoin,
     nMismatchFound + 1, nBalanceInQuestion + vout_value pcoin n)
  else if IsMine_at pcoin n && negb (IsSpent pcoin n) && index_says_spent txindex n then
    (if negb fCheckOnly then MarkSpent pcoin n else pcoin,
     nMismatchFound + 1, nBalanceInQuestion + vout_value pcoin n)
  else acc.

(** Body of the loop of [FixSpentCoins] over the wallet transactions. *)
Definition FixSpentCoins_tx (fCheckOnly : bool) (acc : WalletMap * Z * Z)
    (it : uint256 * CWalletTx) : WalletMap * Z * Z :=
  let '(seen, nMismatchFound, nBalanceInQuestion) := acc in
  let pcoin := snd it in
  match ReadTxIndex (hash pcoin) with
  | None => (seen ++ [it], nMismatchFound, nBalanceInQuestion)
  | Some txindex =>
      let '(pcoin', nMismatchFound, nBalanceInQuestion) :=
        foldl (FixSpentCoins_output fCheckOnly txindex)
              (pcoin, nMismatchFound, nBalanceInQuestion)
              (seq 0 (length (vout pcoin))) in
      (seen ++ [(fst it, pcoin')], nMismatchFound, nBalanceInQuestion)
  end.

(** [CWallet::FixSpentCoins]; returns the wallet map after the call with
    [(nMismatchFound, nBalanceInQuestion)]. *)
Definition FixSpentCoins (mapWallet : WalletMap) (fCheckOnly : bool) : WalletMap * Z * Z :=
  foldl (FixSpentCoins_tx fCheckOnly) ([], 0, 0) mapWallet.

End Ledger.

(** ** Key vault: unlocking *)

Definition SecureString := list byte.
Definition CKeyingMaterial := list byte.

(** [CMasterKey] *)
Record CMasterKey := mkMasterKey {
  vchCryptedKey : list byte;
  vchSalt : list byte;
  nDerivationMethod : Z;
  nDeriveIterations : Z
}.

(** [CCrypter] and [CCryptoKeyStore] of [crypter.h]. A [CCrypter] value is
    a crypter whose key has been set. *)
Class Crypto := {
  CCrypter : Type;
  SetKeyFromPassphrase : SecureString -> list byte -> Z -> Z -> option CCrypter;
  Decrypt : CCrypter -> list byte -> option CKeyingMaterial;
  CCryptoKeyStore : Type;
  IsLocked : CCryptoKeyStore -> bool;
  (** [CCryptoKeyStore::Unlock]: a master key that opens the store is kept
      for the session and gives the store after the call; any other key is
      refused and the store stays as it is. *)
  CCryptoKeyStore_Unlock : CCryptoKeyStore -> CKeyingMaterial -> option CCryptoKeyStore
}.

Section Vault.
Context `{K : Crypto}.

(** The loop of [CWallet::Unlock] over [mapMasterKeys]. *)
Fixpoint Unlock_loop (strWalletPassphrase : SecureString)
    (mapMasterKeys : list (Z * CMasterKey)) (store : CCryptoKeyStore)
    : bool * CCryptoKeyStore :=
  match mapMasterKeys with
  | [] => (false, store)
  | pMasterKey :: rest =>
      match SetKeyFromPassphrase strWalletPassphrase (vchSalt (snd pMasterKey))
              (nDeriveIterations (snd pMasterKey)) (nDerivationMethod (snd pMasterKey)) with
      | None => (false, store)
      | Some crypter =>
          match Decrypt crypter (vchCryptedKey (snd pMasterKey)) with
          | None => (false, store)
          | Some vMasterKey =>
              match CCryptoKeyStore_Unlock store vMasterKey with
              | Some store' => (true, store')
              | None => Unlock_loop strWalletPassphrase rest store
              end
          end
      end
  end.

(** [CWallet::Unlock]; returns the result and the key store after the call. *)
Definition Unlock (strWalletPassphrase : SecureString)
    (mapMasterKeys : list (Z * CMasterKey)) (store : CCryptoKeyStore)
    : bool * CCryptoKeyStore :=
  if negb (IsLocked store) then (false, store)
  else Unlock_loop strWalletPassphrase mapMasterKeys store.

(** The record opens the store under the pass phrase: its key can be set,
    its master key decrypts, and the store accepts the result. *)
Definition record_matches (strWalletPassphrase : SecureString) (store : CCryptoKeyStore)
    (k : CMasterKey) : bool :=
  match SetKeyFromPassphrase strWalletPassphrase (vchSalt k)
          (nDeriveIterations k) (nDerivationMethod k) with
  | None => false
  | Some crypter =>
      match Decrypt crypter (vchCryptedKey k) with
      | None => false
      | Some vMasterKey =>
          match CCryptoKeyStore_Unlock store vMasterKey with
          | Some _ => true
          | None => false
          end
      end
  end.

End Vault.

(** ** Transaction builder *)

(** [CReserveKey]: [nIndex] and [vchPubKey], which is [None] while invalid. *)
Record CReserveKey := mkReserveKey {
  nIndex : Z;
  vchPubKey : option CPubKey
}.

(** Fee policy, serialization, scripts, signing and the key pool, as
    [CreateTransaction] calls them. *)
Class Builder := {
  GetBaseFee : CWalletTx -> Z;
  GetMinFee : CWalletTx -> Z -> Z;      (* [GetMinFee(tx, 1000, GMF_SEND, nBytes)] *)
  GetSerializeSize : CWalletTx -> Z;
  SignSignature : CWalletTx -> CWalletTx -> nat -> option CScript;
  ExtractDestination : CScript -> option CTxDestination;
  SetDestination : CTxDestination -> CScript;
  GetID : CPubKey -> CTxDestination;
  AddSupportingTransactions : CWalletTx -> CWalletTx;
  KeyPool : Type;
  ReserveKeyFromKeyPool : KeyPool -> Z * CPubKey * KeyPool;
  ReturnKey_to_pool : KeyPool -> Z -> KeyPool;
  vchDefaultKey : option CPubKey
}.

Definition OP_RETURN : byte := x6a.

Definition set_vin (t : CWalletTx) (v : list CTxIn) : CWalletTx :=
  mkWalletTx (hash t) (nTime t) v (vout t) (vContracts t) (vfSpent t) (fFromMe t)
             (fTimeReceivedIsTxTime t).

Definition set_vout (t : CWalletTx) (v : list CTxOut) : CWalletTx :=
  mkWalletTx (hash t) (nTime t) (vin t) v (vContracts t) (vfSpent t) (fFromMe t)
             (fTimeReceivedIsTxTime t).

Definition set_fFromMe (t : CWalletTx) (b : bool) : CWalletTx :=
  mkWalletTx (hash t) (nTime t) (vin t) (vout t) (vContracts t) (vfSpent t) b
             (fTimeReceivedIsTxTime t).

Definition set_fTimeReceivedIsTxTime (t : CWalletTx) (b : bool) : CWalletTx :=
  mkWalletTx (hash t) (nTime t) (vin t) (vout t) (vContracts t) (vfSpent t) (fFromMe t) b.

Definition set_scriptSig (txin : CTxIn) (sig : CScript) : CTxIn :=
  mkTxIn (prevout_hash txin) (prevout_n txin) sig.

(** [v.empty()] *)
Definition vector_empty {A : Type} (v : list A) : bool :=
  match v with [] => true | _ => false end.

(** [v.insert(v.begin() + pos, x)] *)
Definition vector_insert {A : Type} (pos : nat) (x : A) (v : list A) : list A :=
  take pos v ++ x :: drop pos v.

(** The messages under which [CreateTransaction] returns false. *)
Inductive BuildError :=
| InvalidOutputValue
| FailedToSelectCoins
| InputsCannotCoverFees
| KeypoolRanOut
| FailedToSign
| TxSizeTooLarge.

Section TransactionBuilder.
Context `{P : Params} `{C : Chain} `{R : Random} `{B : Builder}.

(** What [CreateTransaction] holds across the iterations of its loop. *)
Record BuildState := mkBuild {
  wtxNew : CWalletTx;
  reservekey : CReserveKey;
  keypool : KeyPool;
  nFeeRet : Z
}.

(** [CReserveKey::GetReservedKey]; [None] when it returns false. *)
Definition GetReservedKey (rk : CReserveKey) (pool : KeyPool)
    : option (CPubKey * CReserveKey * KeyPool) :=
  if nIndex rk =? -1 then
    let '(nIndex', pub, pool') := ReserveKeyFromKeyPool pool in
    if negb (nIndex' =? -1) then Some (pub, mkReserveKey nIndex' (Some pub), pool')
    else
      match vchDefaultKey with
      | Some d => Some (d, mkReserveKey nIndex' (Some d), pool')
      | None => None
      end
  else
    match vchPubKey rk with
    | Some pub => Some (pub, rk, pool)
    | None => None                      (* [assert(vchPubKey.IsValid())] *)
    end.

(** [CReserveKey::ReturnKey] *)
Definition ReturnKey (rk : CReserveKey) (pool : KeyPool) : CReserveKey * KeyPool :=
  (mkReserveKey (-1) None,
   if negb (nIndex rk =? -1) then ReturnKey_to_pool pool (nIndex rk) else pool).

(** The loop that adds up [vecSend], with its test before each addition:
    [None] when it returns the error. *)
Fixpoint sum_vecSend (vecSend : list (CScript * Z)) (nValueOut : Z) : option Z :=
  match vecSend with
  | [] => Some nValueOut
  | s :: rest => if nValueOut <? 0 then None else sum_vecSend rest (nValueOut + snd s)
  end.

(** [!wtxNew.vContracts.empty() && wtxNew.vContracts[0].m_type == MESSAGE] *)
Definition has_message_contract (t : CWalletTx) : bool :=
  match vContracts t with
  | c :: _ => ContractType_is_MESSAGE (m_type c)
  | [] => false
  end.

(** [!wtxNew.vContracts.empty() && wtxNew.vContracts[0].m_type != MESSAGE] *)
Definition has_other_contract (t : CWalletTx) : bool :=
  match vContracts t with
  | c :: _ => negb (ContractType_is_MESSAGE (m_type c))
  | [] => false
  end.

Definition message_fee_of (t : CWalletTx) : Z :=
  if has_message_contract t then
    match vContracts t with c :: _ => RequiredBurnAmount c | [] => 0 end
  else 0.

(** The outputs to the payees and the burnt message fee. *)
Definition payee_outputs (vecSend : list (CScript * Z)) (message_fee : Z) : list CTxOut :=
  map (fun s => mkTxOut (snd s) (fst s)) vecSend
  ++ (if 0 <? message_fee then [mkTxOut message_fee [OP_RETURN]] else []).

(** [wtxNew] as an iteration starts it: inputs and outputs cleared, marked
    as from the wallet, then the outputs to the payees filled in. *)
Definition with_payee_outputs (t : CWalletTx) (vecSend : list (CScript * Z)) (message_fee : Z)
    : CWalletTx :=
  let t := set_fFromMe (set_vout (set_vin t []) []) true in
  set_vout t (vout t ++ payee_outputs vecSend message_fee).

(** The inputs of an iteration: chosen by [SelectCoins] for
    [nTotalValue] when the caller provided none, else the provided set with
    its value added up. Returns [(setCoins_out, nValueIn)]. *)
Definition select_inputs (e : Entropy) (mapWallet : WalletMap) (setCoins_in : CoinSet)
    (coinControl : option CCoinControl) (t : CWalletTx) (nTotalValue : Z)
    : BuildError + CoinSet * Z :=
  let provided_coin_set := negb (vector_empty setCoins_in) in
  if negb provided_coin_set then
    let contract := negb (coin_control_selected coinControl) && has_other_contract t in
    let '(ok, setCoins_out, nValueIn) :=
      SelectCoins e mapWallet nTotalValue (nTime t) [] 0 coinControl contract in
    if ok then inr (setCoins_out, nValueIn) else inl FailedToSelectCoins
  else
    inr ([], foldl (fun nValueIn (input : Coin) => nValueIn + coin_value input) 0 setCoins_in).

(** The sub-cent rule: returns [(nChange, nFeeRet)] after it. *)
Definition fold_subcent_change (nBaseFee nFeeRet nChange : Z) : Z * Z :=
  if (nFeeRet <? nBaseFee) && (0 <? nChange) && (nChange <? CENT) then
    let nMoveToFee := Z.min nChange (nBaseFee - nFeeRet) in
    (nChange - nMoveToFee, nFeeRet + nMoveToFee)
  else (nChange, nFeeRet).

(** The first input with a valid address, as a script; the empty script
    when there is none. *)
Fixpoint first_input_script (setCoins_out : CoinSet) : CScript :=
  match setCoins_out with
  | [] => []
  | input :: rest =>
      match vout (fst input) !! snd input with
      | Some o =>
          match ExtractDestination (scriptPubKey o) with
          | Some change_address => SetDestination change_address
          | None => first_input_script rest
          end
      | None => first_input_script rest
      end
  end.

(** [scriptChange] of the branch [nChange > 0]; [None] when the key pool
    ran out. *)
Definition change_script (coinControl : option CCoinControl)
    (change_back_to_input_address : bool) (setCoins_out : CoinSet)
    (rk : CReserveKey) (pool : KeyPool) : option (CScript * CReserveKey * KeyPool) :=
  let custom :=
    match coinControl with
    | Some cc => match destChange cc with CNoDestination => None | d => Some d end
    | None => None
    end in
  match custom with
  | Some d => Some (SetDestination d, rk, pool)
  | None =>
      if change_back_to_input_address then Some (first_input_script setCoins_out, rk, pool)
      else
        match GetReservedKey rk pool with
        | Some (pub, rk', pool') => Some (SetDestination (GetID pub), rk', pool')
        | None => None
        end
  end.

(** What an iteration has assembled when it comes to fill [vin]. *)
Record Assembled := mkAssembled {
  as_state : BuildState;               (* [wtxNew] with its outputs, the key state, [nFeeRet] *)
  as_setCoins_out : CoinSet;
  as_nValueIn : Z;
  as_nChange : Z                       (* after the sub-cent rule *)
}.

(** An iteration of the loop up to the change output. *)
Definition assemble (e : Entropy) (mapWallet : WalletMap) (vecSend : list (CScript * Z))
    (setCoins_in : CoinSet) (coinControl : option CCoinControl)
    (change_back_to_input_address : bool) (nValueOut message_fee : Z) (s : BuildState)
    : BuildError + Assembled :=
  let provided_coin_set := negb (vector_empty setCoins_in) in
  let nTotalValue := nValueOut + nFeeRet s in
  let t := with_payee_outputs (wtxNew s) vecSend message_fee in
  match select_inputs e mapWallet setCoins_in coinControl t nTotalValue with
  | inl err => inl err
  | inr (setCoins_out, nValueIn) =>
      let nChange := nValueIn - nValueOut - nFeeRet s in
      if provided_coin_set && (nChange <? 0) then inl InputsCannotCoverFees
      else
        let '(nChange, nFee) := fold_subcent_change (GetBaseFee t) (nFeeRet s) nChange in
        if 0 <? nChange then
          match change_script coinControl change_back_to_input_address setCoins_out
                  (reservekey s) (keypool s) with
          | None => inl KeypoolRanOut
          | Some (scriptChange, rk, pool) =>
              let position := Z.to_nat (GetRandInt (e 9%nat) (Z.of_nat (length (vout t)))) in
              let t := set_vout t (vector_insert position (mkTxOut nChange scriptChange) (vout t)) in
              inr (mkAssembled (mkBuild t rk pool nFee) setCoins_out nValueIn nChange)
          end
        else
          let '(rk, pool) := ReturnKey (reservekey s) (keypool s) in
          inr (mkAssembled (mkBuild t rk pool nFee) setCoins_out nValueIn nChange)
  end.

(** The loop that signs input [nIn++] for every coin, and returns the error
    at the first input that [SignSignature] refuses. *)
Fixpoint sign_inputs (coins : CoinSet) (nIn : nat) (t : CWalletTx) : option CWalletTx :=
  match coins with
  | [] => Some t
  | coin :: rest =>
      match SignSignature (fst coin) t nIn with
      | None => None
      | Some sig =>
          sign_inputs rest (S nIn)
            (set_vin t (alter (fun txin => set_scriptSig txin sig) nIn (vin t)))
      end
  end.

(** [max(nPayFee, nMinFee)] for a signed transaction of [nBytes] bytes. *)
Definition required_fee (t : CWalletTx) (nBytes : Z) : Z :=
  let nPayFee := nTransactionFee * (1 + Z.quot nBytes 1000) in
  let nMinFee := GetMinFee t nBytes in
  Z.max nPayFee nMinFee.

(** How an iteration of [while (true)] ends. *)
Inductive Iteration :=
| Continue (s : BuildState)
| Break (s : BuildState)
| Return_error (err : BuildError).

(** One iteration of the loop of [CreateTransaction]. *)
Definition CreateTransaction_iteration (e : Entropy) (mapWallet : WalletMap)
    (vecSend : list (CScript * Z)) (setCoins_in : CoinSet)
    (coinControl : option CCoinControl) (change_back_to_input_address : bool)
    (nValueOut message_fee : Z) (s : BuildState) : Iteration :=
  match assemble e mapWallet vecSend setCoins_in coinControl change_back_to_input_address
          nValueOut message_fee s with
  | inl err => Return_error err
  | inr a =>
      let s := as_state a in
      let coins :=
        if negb (vector_empty setCoins_in) then setCoins_in else as_setCoins_out a in
      let t := set_vin (wtxNew s)
                 (vin (wtxNew s) ++ map (fun coin : Coin => mkTxIn (hash (fst coin)) (snd coin) []) coins) in
      match sign_inputs coins 0 t with
      | None => Return_error FailedToSign
      | Some t =>
          let nBytes := GetSerializeSize t in
          if MAX_STANDARD_TX_SIZE <=? nBytes then Return_error TxSizeTooLarge
          else if nFeeRet s <? required_fee t nBytes then
            Continue (mkBuild t (reservekey s) (keypool s) (required_fee t nBytes))
          else
            Break (mkBuild (set_fTimeReceivedIsTxTime (AddSupportingTransactions t) true)
                           (reservekey s) (keypool s) (nFeeRet s))
      end
  end.

(** The loop [while (true)], for at most [fuel] iterations; the [k]-th
    iteration draws its random contexts from index [10 * k] on. [None] when
    the fuel does not suffice. *)
Fixpoint CreateTransaction_loop (fuel : nat) (e : Entropy) (mapWallet : WalletMap)
    (vecSend : list (CScript * Z)) (setCoins_in : CoinSet)
    (coinControl : option CCoinControl) (change_back_to_input_address : bool)
    (nValueOut message_fee : Z) (k : nat) (s : BuildState) : option (BuildError + BuildState) :=
  match fuel with
  | O => None
  | S fuel' =>
      match CreateTransaction_iteration (later (10 * k) e) mapWallet vecSend setCoins_in
              coinControl change_back_to_input_address nValueOut message_fee s with
      | Continue s' =>
          CreateTransaction_loop fuel' e mapWallet vecSend setCoins_in coinControl
            change_back_to_input_address nValueOut message_fee (S k) s'
      | Break s' => Some (inr s')
      | Return_error err => Some (inl err)
      end
  end.

(** [CWallet::CreateTransaction(vecSend, setCoins_in, wtxNew, reservekey,
    nFeeRet, coinControl, change_back_to_input_address)]: [inl] with the
    message when it returns false, [inr] with what it leaves in [wtxNew],
    [reservekey] and [nFeeRet] when it returns true. *)
Definition CreateTransaction (fuel : nat) (e : Entropy) (mapWallet : WalletMap)
    (vecSend : list (CScript * Z)) (setCoins_in : CoinSet) (wtx : CWalletTx)
    (rk : CReserveKey) (pool : KeyPool) (coinControl : option CCoinControl)
    (change_back_to_input_address : bool) : option (BuildError + BuildState) :=
  match sum_vecSend vecSend 0 with
  | None => Some (inl InvalidOutputValue)
  | Some nValueOut =>
      if vector_empty vecSend || (nValueOut <? 0) then Some (inl InvalidOutputValue)
      else
        let message_fee := message_fee_of wtx in
        let nValueOut := nValueOut + message_fee in
        CreateTransaction_loop fuel e mapWallet vecSend setCoins_in coinControl
          change_back_to_input_address nValueOut message_fee 0
          (mkBuild wtx rk pool nTransactionFee)
  end.

End TransactionBuilder.

(** ** Notions used in the statements *)

Section Notions.
Context `{P : Params} `{C : Chain} `{R : Random}.

(** A coinstake transaction that is below maturity and in the main chain. *)
Definition immature_stake (pcoin : CWalletTx) : bool :=
  IsCoinStake pcoin && (0 <? GetBlocksToMaturity pcoin) && (0 <? GetDepthInMainChain pcoin).

(** The eligibility filter of [SelectCoinsMinConf] and [SelectSmallestCoins]:
    deep enough for its origin and not younger than the spend time. *)
Definition eligible (nSpendTime nConfMine nConfTheirs : Z) (output : COutput) : bool :=
  negb (depth_too_low nConfMine nConfTheirs output) && negb (too_recent nSpendTime output).

(** The sum of the values of the eligible candidates. *)
Definition eligible_total (nSpendTime nConfMine nConfTheirs : Z) (vCoins : list COutput) : Z :=
  sumZ (map output_value (List.filter (eligible nSpendTime nConfMine nConfTheirs) vCoins)).

(** The amounts that a selection adds up are amounts of [int64_t], so that
    the sums the code takes in that type are the sums of [Z]: the target is
    one, no candidate is worth less than nothing, and the candidates
    together with [CENT] stay below the largest amount. The target with
    [CENT] and every sum of candidates then do. *)
Definition amounts_in_int64 (nTargetValue : Z) (vCoins : list COutput) : Prop :=
  - INT64_MAX - 1 <= nTargetValue <= INT64_MAX
  /\ Forall (fun o => 0 <= output_value o) vCoins
  /\ sumZ (map output_value vCoins) + CENT < INT64_MAX.

(** The eligible candidates below [nTargetValue + CENT], the partition
    "smaller than the target" of [SelectCoinsMinConf]. *)
Definition lower_partition (nTargetValue nSpendTime nConfMine nConfTheirs : Z)
    (vCoins : list COutput) : list COutput :=
  List.filter (fun o => eligible nSpendTime nConfMine nConfTheirs o
                        && (output_value o <? nTargetValue + CENT)) vCoins.

(** The sum of the values that a vector of flags selects. *)
Definition masked_total (vValue : list ValueCoin) (vf : list bool) : Z :=
  sumZ (zip_with (fun (p : ValueCoin) (b : bool) => if b then fst p else 0) vValue vf).

(** The coins that a vector of flags selects. *)
Definition masked_coins (vValue : list ValueCoin) (vf : list bool) : list Coin :=
  omap (fun pb : ValueCoin * bool => if snd pb then Some (snd (fst pb)) else None)
       (zip vValue vf).

(** A candidate as [SelectCoinsMinConf] records it. *)
Definition value_coin (o : COutput) : ValueCoin := (output_value o, output_coin o).

(** The recorded value of a coin is the value of its output. *)
Definition consistent (p : ValueCoin) : Prop := fst p = coin_value (snd p).

(** The eligible candidates of at least [nTargetValue + CENT]. *)
Definition larger_partition (nTargetValue nSpendTime nConfMine nConfTheirs : Z)
    (vCoins : list COutput) : list COutput :=
  List.filter (fun o => eligible nSpendTime nConfMine nConfTheirs o
                        && negb (output_value o <? nTargetValue + CENT)) vCoins.

(** [coinLowestLarger] while the first loop runs: the sentinel, or a coin
    with its value, which is at least [nTargetValue + CENT]. *)
Definition larger_inv (nTargetValue : Z) (cl : Z * option Coin) : Prop :=
  fst cl <= INT64_MAX
  /\ match snd cl with
     | None => fst cl = INT64_MAX
     | Some c => fst cl = coin_value c /\ nTargetValue + CENT <= fst cl
     end.

(** The best subset of [ApproximateBestSubset] so far: its flags select a
    total of [nBest], which is not below the target. *)
Definition best_inv (vValue : list ValueCoin) (nTargetValue : Z) (s : ABS) : Prop :=
  length (abs_vfBest s) = length vValue
  /\ abs_nBest s = masked_total vValue (abs_vfBest s)
  /\ nTargetValue <= abs_nBest s.

(** The running subset before index [i] of pass [nPass] is visited. *)
Definition run_inv (vValue : list ValueCoin) (nTargetValue : Z) (nPass i : nat) (s : ABS)
    : Prop :=
  length (abs_vfIncluded s) = length vValue
  /\ abs_nTotal s = masked_total vValue (abs_vfIncluded s)
  /\ (nPass = 0%nat -> forall j : nat, (i <= j)%nat -> flag_at (abs_vfIncluded s) j = false)
  /\ best_inv vValue nTargetValue s.

(** What [SelectCoinsMinConf] holds when it reaches the last [if]: the
    partition, the sorted values, and the result of the approximation.
    [None] when it returns before. *)
Definition approximation_phase (e : Entropy) (nTargetValue nSpendTime nConfMine nConfTheirs : Z)
    (vCoins : list COutput) : option (Partition * list ValueCoin * list bool * Z) :=
  match scan_coins nTargetValue nSpendTime nConfMine nConfTheirs
          (Shuffle vCoins (e 0%nat)) Partition_init with
  | inl _ => None
  | inr p =>
      if nTotalLower p =? nTargetValue then None
      else if nTotalLower p <? nTargetValue then None
      else
        let sorted := std_sort_reverse CompareValueOnly (vValue p) in
        let '(vfBest, nBest) := approximate e sorted (nTotalLower p) nTargetValue in
        Some (p, sorted, vfBest, nBest)
  end.

(** What [AvailableCoinsForStaking] has checked of an output it returns. *)
Definition stakeable (nSpendTime : Z) (o : COutput) : Prop :=
  (nTime (out_tx o) + nStakeMinAge) mod UINT32_MOD <= nSpendTime
  /\ (if IsCoinBase (out_tx o) || IsCoinStake (out_tx o)
      then nCoinbaseMaturity + 10 <= GetDepthInMainChain (out_tx o)
      else 1 <= GetDepthInMainChain (out_tx o)).

(** The wallet and the transaction index agree on output [n] of [pcoin]:
    neither test of [FixSpentCoins] fires. *)
Definition agrees_at (txindex : CTxIndex) (pcoin : CWalletTx) (n : nat) : Prop :=
  IsMine_at pcoin n && IsSpent pcoin n && index_says_unspent txindex n = false
  /\ IsMine_at pcoin n && negb (IsSpent pcoin n) && index_says_spent txindex n = false.

(** The wallet and the transaction index agree on every output of a wallet
    transaction that the index knows. *)
Definition agrees (it : uint256 * CWalletTx) : Prop :=
  match ReadTxIndex (hash (snd it)) with
  | None => True
  | Some txindex =>
      forall n : nat, (n < length (vout (snd it)))%nat -> agrees_at txindex (snd it) n
  end.

(** What the repair of the outputs below [k] leaves of [pcoin]. *)
Definition repaired_below (txindex : CTxIndex) (pcoin pcoin' : CWalletTx) (k : nat) : Prop :=
  vout pcoin' = vout pcoin
  /\ hash pcoin' = hash pcoin
  /\ (forall m : nat, (m < k)%nat -> (m < length (vout pcoin))%nat -> agrees_at txindex pcoin' m)
  /\ (forall m : nat, (k <= m)%nat -> (m < length (vout pcoin))%nat ->
        IsSpent pcoin' m = IsSpent pcoin m).

End Notions.

(** ** A small wallet on which the functions can be run *)

Module Scenario.

Definition COIN : Z := 100000000.

(** Settings of a node with the given reserve and transaction fee. *)
Definition params (reserve fee : Z) : Params :=
  {| CENT := 1000000;
     nMinimumInputValue := 0;
     nStakeMinAge := 57600;
     nCoinbaseMaturity := 100;
     nReserveBalance := reserve;
     nTransactionFee := fee;
     MAX_STANDARD_TX_SIZE := 100000 |}.

(** An output that pays the script [[x01]] is the wallet's. *)
Definition mine : CScript := [x01].
Definition theirs : CScript := [x02].

Definition owner_of (o : CTxOut) : isminetype :=
  match scriptPubKey o with
  | [x01] => ISMINE_SPENDABLE
  | _ => ISMINE_NO
  end.

(** A coinstake transaction starts with an empty output. *)
Definition stake_shaped (t : CWalletTx) : bool :=
  match vin t, vout t with
  | _ :: _, o :: _ :: _ => (nValue o =? 0) && vector_empty (scriptPubKey o)
  | _, _ => false
  end.

(** A chain in which the transaction of hash [h] is [h mod 1000] blocks
    deep, and whose index has output 0 of every transaction of odd hash
    spent. *)
Definition chain : Chain :=
  {| GetDepthInMainChain := fun t => hash t mod 1000;
     GetBlocksToMaturity := fun t =>
       if stake_shaped t then Z.max 0 (110 - hash t mod 1000) else 0;
     IsCoinBase := fun _ => false;
     IsCoinStake := stake_shaped;
     IsFromMe := fFromMe;
     IsTrusted := fun _ => true;
     IsFinalTx := fun _ => true;
     AreDependenciesConfirmed := fun _ => true;
     IsMine := owner_of;
     GetCredit := fun t =>
       sumZ (map (fun o => if ismine_ne_NO (owner_of o) then nValue o else 0) (vout t));
     ReadTxIndex := fun h => Some (mkTxIndex [mkDiskTxPos (Z.even h)]) |}.

(** A random context is a counter: the [n]-th bit is set when [n] is odd,
    a shuffle reverses, and [GetRandInt] returns 0. *)
Definition random : Random :=
  {| FastRandomContext := nat;
     randbool := fun n => (Nat.odd n, S n);
     Shuffle := fun A l _ => rev l;
     GetRandInt := fun _ _ => 0 |}.

Definition entropy : @Entropy random := fun k => k.

(** A received transaction with the given hash, time and output values, all
    outputs the wallet's and none spent. *)
Definition received (h time : Z) (values : list Z) : CWalletTx :=
  mkWalletTx h time [mkTxIn 7 0 []] (map (fun v => mkTxOut v mine) values) [] [] false false.

(** Fees: a base fee of 10000, and as much again for every started 1000
    bytes; sizes as a transaction of the usual scripts has them. Every
    signature succeeds; key pool keys are numbered; there is no default
    key. *)
Definition builder : Builder :=
  {| GetBaseFee := fun _ => 10000;
     GetMinFee := fun _ nBytes => 10000 * (1 + Z.quot nBytes 1000);
     GetSerializeSize := fun t =>
       10 + 148 * Z.of_nat (length (vin t)) + 34 * Z.of_nat (length (vout t));
     SignSignature := fun _ _ _ => Some [x30];
     ExtractDestination := fun script =>
       match script with [x01] => Some (CKeyID 1) | _ => None end;
     SetDestination := fun _ => mine;
     GetID := fun pub => CKeyID pub;
     AddSupportingTransactions := fun t => t;
     KeyPool := list Z;
     ReserveKeyFromKeyPool := fun pool =>
       match pool with
       | [] => (-1, 0, [])
       | k :: rest => (k, k, rest)
       end;
     ReturnKey_to_pool := fun pool k => k :: pool;
     vchDefaultKey := None |}.

(** The transaction to build, empty as the caller passes it. *)
Definition blank : CWalletTx := mkWalletTx 0 2000 [] [] [] [] false false.

(** The outputs of one received transaction, 200 blocks deep, as
    candidates. *)
Definition candidates (values : list Z) : list COutput :=
  map (fun i => mkOutput (received 1200 1000 values) i 200) (seq 0 (length values)).

(** Thirty payees of 1000 each: a transaction of more than 1000 bytes. *)
Definition payees : list (CScript * Z) := replicate 30 (theirs, 1000).

(** A wallet of two transactions, 200 and 50 blocks deep. *)
Definition wallet : WalletMap :=
  [(1200, received 1200 1000 [2000000; 300000]);
   (2050, received 2050 1000 [700000])].

(** The state in which [CreateTransaction] enters an iteration with the
    fee [fee]. *)
Definition start (fee : Z) : @BuildState builder :=
  @mkBuild builder blank (mkReserveKey (-1) None) [7] fee.

Fixpoint strip_prefix (key l : list byte) : option (list byte) :=
  match key, l with
  | [], _ => Some l
  | k :: key', x :: l' => if Byte.eqb k x then strip_prefix key' l' else None
  | _ :: _, [] => None
  end.

Fixpoint bytes_eqb (a b : list byte) : bool :=
  match a, b with
  | [], [] => true
  | x :: a', y :: b' => Byte.eqb x y && bytes_eqb a' b'
  | _, _ => false
  end.

(** A key store that a single master key opens. *)
Record store := mkStore {
  opens_with : CKeyingMaterial;
  session_key : option CKeyingMaterial
}.

(** A cipher for the illustration: the key is the pass phrase followed by
    the salt, a ciphertext is the key followed by the plain text, and
    decryption fails unless the ciphertext starts with the key. *)
Definition crypto : Crypto :=
  {| CCrypter := list byte;
     SetKeyFromPassphrase := fun pass salt _ method =>
       if method =? 0 then Some (pass ++ salt) else None;
     Decrypt := strip_prefix;
     CCryptoKeyStore := store;
     IsLocked := fun st => match session_key st with None => true | Some _ => false end;
     CCryptoKeyStore_Unlock := fun st k =>
       if bytes_eqb k (opens_with st) then Some (mkStore (opens_with st) (Some k)) else None |}.

Definition master : CKeyingMaterial := [x4d; x4b].
Definition pass_old : SecureString := [x6f; x6c; x64].
Definition pass_pw : SecureString := [x70; x77].

(** The master key wrapped under the pass phrase [pass], without salt. *)
Definition wrapped (pass : SecureString) : CMasterKey :=
  mkMasterKey (pass ++ master) [] 0 25000.

Definition locked : store := mkStore master None.

End Scenario.

(** * Scripts, serialization, dump files, spent flags and the key pool

    The rest of this part embeds what the functions above call and what
    calls them: the push and read operations of [CScript] ([script.h]), the
    compact sizes and variable-length integers of [serialize.h], the quoting
    of labels in wallet dump files ([rpcdump.cpp]), and of [wallet.cpp] the
    spent flags that a transaction sets and clears and the key pool. *)

(** ** Bytes *)

(** The value of an [unsigned char]. *)
Definition uchar (b : byte) : Z := Z.of_N (Byte.to_N b).

(** The conversion of an integer to [unsigned char]: its value modulo 256. *)
Definition to_uchar (z : Z) : byte := default x00 (Byte.of_N (Z.to_N (z mod 256))).

(** The value of a [char], which is a signed type on the platforms the node
    is built for. *)
Definition schar (b : byte) : Z := if uchar b <? 128 then uchar b else uchar b - 256.

(** The low [n] bytes of an unsigned integer, least significant first: what
    [htole16], [htole32] and [htole64] leave in memory, and what the memory
    of an integer holds on a little-endian host. *)
Fixpoint le_bytes (n : nat) (v : Z) : list byte :=
  match n with
  | O => []
  | S n => to_uchar v :: le_bytes n (v / 256)
  end.

(** The unsigned integer whose memory holds the bytes, least significant
    first. *)
Fixpoint le_value (bs : list byte) : Z :=
  match bs with
  | [] => 0
  | b :: t => uchar b + 256 * le_value t
  end.

(** ** Scripts ([script.h]) *)

Definition OP_0 : Z := 0x00.
Definition OP_PUSHDATA1 : Z := 0x4c.
Definition OP_PUSHDATA2 : Z := 0x4d.
Definition OP_PUSHDATA4 : Z := 0x4e.
Definition OP_1NEGATE : Z := 0x4f.
Definition OP_1 : Z := 0x51.
Definition OP_16 : Z := 0x60.
Definition OP_INVALIDOPCODE : Z := 0xff.

(** [*pc], for [pc] at the given offset from [begin()]. *)
Definition byte_at (script : list byte) (pc : nat) : Z :=
  match script !! pc with
  | Some b => uchar b
  | None => 0
  end.

(** [CScript::operator<<(opcodetype)]; [None] when it throws. *)
Definition push_opcode (script : CScript) (opcode : Z) : option CScript :=
  if (opcode <? 0) || (0xff <? opcode) then None
  else Some (script ++ [to_uchar opcode]).

(** [CScript::operator<<(const std::vector<unsigned char>&)]; the sizes are
    copied from the memory of an [unsigned short] and an [unsigned int] of a
    little-endian host. *)
Definition push_data (script : CScript) (b : list byte) : CScript :=
  let size := Z.of_nat (length b) in
  let script :=
    if size <? OP_PUSHDATA1 then script ++ [to_uchar size]
    else if size <=? 0xff then script ++ [to_uchar OP_PUSHDATA1; to_uchar size]
    else if size <=? 0xffff then script ++ to_uchar OP_PUSHDATA2 :: le_bytes 2 size
    else script ++ to_uchar OP_PUSHDATA4 :: le_bytes 4 size in
  script ++ b.

(** [CScript::GetOp2] with a vector to fill; [pc] is an offset from
    [begin()], and the result is [(fRet, pc, opcodeRet, vchRet)]. *)
Definition GetOp2 (script : CScript) (pc : nat) : bool * nat * Z * list byte :=
  if (length script <=? pc)%nat then (false, pc, OP_INVALIDOPCODE, [])
  else
    let opcode := byte_at script pc in
    let pc := S pc in
    if opcode <=? OP_PUSHDATA4 then
      let sized : option (Z * nat) :=
        if opcode <? OP_PUSHDATA1 then Some (opcode, pc)
        else if opcode =? OP_PUSHDATA1 then
          if (length script - pc <? 1)%nat then None
          else Some (byte_at script pc, S pc)
        else if opcode =? OP_PUSHDATA2 then
          if (length script - pc <? 2)%nat then None
          else Some (le_value (take 2 (drop pc script)), (pc + 2)%nat)
        else if opcode =? OP_PUSHDATA4 then
          if (length script - pc <? 4)%nat then None
          else Some (le_value (take 4 (drop pc script)), (pc + 4)%nat)
        else Some (0, pc) in
      match sized with
      | None => (false, pc, OP_INVALIDOPCODE, [])
      | Some (nSize, pc) =>
          if Z.of_nat (length script - pc) <? nSize
          then (false, pc, OP_INVALIDOPCODE, [])
          else (true, (pc + Z.to_nat nSize)%nat, opcode,
                take (Z.to_nat nSize) (drop pc script))
      end
    else (true, pc, opcode, []).

(** [CScript::DecodeOP_N]; [None] when the assertion fails. *)
Definition DecodeOP_N (opcode : Z) : option Z :=
  if opcode =? OP_0 then Some 0
  else if (OP_1 <=? opcode) && (opcode <=? OP_16) then Some (opcode - (OP_1 - 1))
  else None.

(** [CScript::EncodeOP_N]; [None] when the assertion fails. *)
Definition EncodeOP_N (n : Z) : option Z :=
  if (0 <=? n) && (n <=? 16) then
    if n =? 0 then Some OP_0 else Some (OP_1 + n - 1)
  else None.

(** The loop of [CScript::IsPushOnly]; [None] when the rounds granted to it
    are used up before it is done. *)
Fixpoint IsPushOnly_loop (rounds : nat) (script : CScript) (pc : nat) : option bool :=
  if (pc <? length script)%nat then
    match rounds with
    | O => None
    | S rounds =>
        let '(fRet, pc, opcode, _) := GetOp2 script pc in
        if negb fRet then Some false
        else if OP_16 <? opcode then Some false
        else IsPushOnly_loop rounds script pc
    end
  else Some true.

(** [CScript::IsPushOnly]; a round reads at least a byte, so the rounds
    granted are the bytes of the script. *)
Definition IsPushOnly (script : CScript) : option bool :=
  IsPushOnly_loop (length script) script 0.

Section PushInt.
(** [CBigNum(n).getvch()] of [bignum.h]. *)
Variable getvch : Z -> list byte.

(** [CScript::push_int64] *)
Definition push_int64 (script : CScript) (n : Z) : CScript :=
  if (n =? -1) || ((1 <=? n) && (n <=? 16))
  then script ++ [to_uchar (n + (OP_1 - 1))]
  else push_data script (getvch n).

End PushInt.

(** ** Serialization ([serialize.h]) *)

Definition MAX_SIZE : Z := 0x02000000.

(** What a read throws: the stream's own failure when it holds too few
    bytes, and the failures of the two decoders. *)
Inductive ios_failure :=
| end_of_data
| non_canonical_ReadCompactSize
| size_too_large.

(** A stream is the bytes that are still to be read; a write appends. *)
Definition ser_writedata8 (s : list byte) (obj : Z) : list byte := s ++ [to_uchar obj].
Definition ser_writedata16 (s : list byte) (obj : Z) : list byte := s ++ le_bytes 2 obj.
Definition ser_writedata32 (s : list byte) (obj : Z) : list byte := s ++ le_bytes 4 obj.
Definition ser_writedata64 (s : list byte) (obj : Z) : list byte := s ++ le_bytes 8 obj.

(** A read of [n] bytes: the value they hold and the rest of the stream. *)
Definition ser_readdata (n : nat) (s : list byte) : ios_failure + Z * list byte :=
  if (length s <? n)%nat then inl end_of_data
  else inr (le_value (take n s), drop n s).

Definition ser_readdata8 := ser_readdata 1.
Definition ser_readdata16 := ser_readdata 2.
Definition ser_readdata32 := ser_readdata 4.
Definition ser_readdata64 := ser_readdata 8.

(** [GetSizeOfCompactSize] *)
Definition GetSizeOfCompactSize (nSize : Z) : Z :=
  if nSize <? 253 then 1
  else if nSize <=? 0xffff then 1 + 2
  else if nSize <=? 0xffffffff then 1 + 4
  else 1 + 8.

(** [WriteCompactSize]; returns the stream. *)
Definition WriteCompactSize (os : list byte) (nSize : Z) : list byte :=
  if nSize <? 253 then ser_writedata8 os nSize
  else if nSize <=? 0xffff then ser_writedata16 (ser_writedata8 os 253) nSize
  else if nSize <=? 0xffffffff then ser_writedata32 (ser_writedata8 os 254) nSize
  else ser_writedata64 (ser_writedata8 os 255) nSize.

(** [ReadCompactSize]; returns the size and the stream. *)
Definition ReadCompactSize (is_ : list byte) : ios_failure + Z * list byte :=
  match ser_readdata8 is_ with
  | inl e => inl e
  | inr (chSize, is_) =>
      let sized :=
        if chSize <? 253 then inr (chSize, is_)
        else if chSize =? 253 then
          match ser_readdata16 is_ with
          | inl e => inl e
          | inr (nSizeRet, is_) =>
              if nSizeRet <? 253 then inl non_canonical_ReadCompactSize
              else inr (nSizeRet, is_)
          end
        else if chSize =? 254 then
          match ser_readdata32 is_ with
          | inl e => inl e
          | inr (nSizeRet, is_) =>
              if nSizeRet <? 0x10000 then inl non_canonical_ReadCompactSize
              else inr (nSizeRet, is_)
          end
        else
          match ser_readdata64 is_ with
          | inl e => inl e
          | inr (nSizeRet, is_) =>
              if nSizeRet <? 0x100000000 then inl non_canonical_ReadCompactSize
              else inr (nSizeRet, is_)
          end in
      match sized with
      | inl e => inl e
      | inr (nSizeRet, is_) =>
          if MAX_SIZE <? nSizeRet then inl size_too_large else inr (nSizeRet, is_)
      end
  end.

Section VarInt.
(** The width of the unsigned type [I] of the templates: [sizeof(I) * 8]. *)
Variable bits : Z.

(** [std::numeric_limits<I>::max()] *)
Definition I_max : Z := 2 ^ bits - 1.

(** The length of [tmp]: [(sizeof(n) * 8 + 6) / 7]. *)
Definition tmp_size : nat := Z.to_nat ((bits + 6) / 7).

(** The loop of [GetSizeOfVarInt]; [None] when the rounds granted to it are
    used up before it is done. *)
Fixpoint GetSizeOfVarInt_loop (rounds : nat) (n : Z) (nRet : Z) : option Z :=
  match rounds with
  | O => None
  | S rounds =>
      let nRet := nRet + 1 in
      if n <=? 0x7F then Some nRet
      else GetSizeOfVarInt_loop rounds (Z.shiftr n 7 - 1) nRet
  end.

(** [GetSizeOfVarInt]; granted as many rounds as [tmp] of [WriteVarInt] has
    bytes. *)
Definition GetSizeOfVarInt (n : Z) : option Z := GetSizeOfVarInt_loop tmp_size n 0.

(** The first loop of [WriteVarInt], which fills [tmp] from [tmp[len]] on:
    [room] is what is left of the array, and the result is [None] when the
    loop would write behind it. *)
Fixpoint WriteVarInt_fill (room : nat) (n : Z) (len : nat) (tmp : list byte)
    : option (list byte) :=
  match room with
  | O => None
  | S room =>
      let tmp :=
        tmp ++ [to_uchar (Z.lor (Z.land n 0x7F) (if (len =? 0)%nat then 0x00 else 0x80))] in
      if n <=? 0x7F then Some tmp
      else WriteVarInt_fill room (Z.shiftr n 7 - 1) (S len) tmp
  end.

(** [WriteVarInt]; the second loop writes [tmp[len]] down to [tmp[0]].
    Returns the stream. *)
Definition WriteVarInt (os : list byte) (n : Z) : option (list byte) :=
  match WriteVarInt_fill tmp_size n 0 [] with
  | Some tmp => Some (foldl ser_writedata8 os (map uchar (rev tmp)))
  | None => None
  end.

(** The loop of [ReadVarInt]; the match on the stream is its
    [ser_readdata8]. *)
Fixpoint ReadVarInt_loop (is_ : list byte) (n : Z) : ios_failure + Z * list byte :=
  match is_ with
  | [] => inl end_of_data
  | b :: is_ =>
      let chData := uchar b in
      if Z.shiftr I_max 7 <? n then inl size_too_large
      else
        let n := Z.lor (Z.shiftl n 7) (Z.land chData 0x7F) in
        if negb (Z.land chData 0x80 =? 0) then
          if n =? I_max then inl size_too_large
          else ReadVarInt_loop is_ (n + 1)
        else inr (n, is_)
  end.

(** [ReadVarInt]; returns the number and the stream. *)
Definition ReadVarInt (is_ : list byte) : ios_failure + Z * list byte :=
  ReadVarInt_loop is_ 0.

End VarInt.

(** ** Labels in wallet dump files ([rpcdump.cpp]) *)

Section DumpStrings.
(** [HexStr] of [util/strencodings.h], for a span of one byte. *)
Variable HexStr : byte -> list byte.

(** [EncodeDumpString] *)
Definition EncodeDumpString (str : list byte) : list byte :=
  foldl (fun ret c =>
           if (uchar c <=? 32) || (128 <=? uchar c) || (uchar c =? uchar x25)
           then ret ++ x25 :: HexStr c
           else ret ++ [c])
        [] str.

End DumpStrings.

(** [(x >> 6) * 9 + ((x - '0') & 15)], for a [char] [x]. *)
Definition hex_nibble (x : byte) : Z :=
  Z.shiftr (schar x) 6 * 9 + Z.land (schar x - uchar x30) 15.

(** [DecodeDumpString]; the loop over [pos] is a recursion over the rest of
    the string, and [pos + 2 < str.length()] holds when two characters
    follow. *)
Fixpoint DecodeDumpString (str : list byte) : list byte :=
  match str with
  | [] => []
  | c :: rest =>
      match rest with
      | c1 :: c2 :: rest' =>
          if uchar c =? uchar x25
          then to_uchar (Z.lor (Z.shiftl (hex_nibble c1) 4) (hex_nibble c2))
               :: DecodeDumpString rest'
          else c :: DecodeDumpString rest
      | _ => c :: DecodeDumpString rest
      end
  end.

(** ** Spent flags of the outputs that a transaction consumes *)

(** [mapWallet.find(hash)]: the entry under the key, if there is one. *)
Fixpoint mapWallet_find (mapWallet : WalletMap) (h : uint256) : option CWalletTx :=
  match mapWallet with
  | [] => None
  | it :: rest => if fst it =? h then Some (snd it) else mapWallet_find rest h
  end.

(** A write through the iterator that [mapWallet.find(hash)] returns. *)
Fixpoint mapWallet_modify (mapWallet : WalletMap) (h : uint256)
    (f : CWalletTx -> CWalletTx) : WalletMap :=
  match mapWallet with
  | [] => []
  | it :: rest =>
      if fst it =? h then (fst it, f (snd it)) :: rest
      else it :: mapWallet_modify rest h f
  end.

Section SpentFlags.
Context `{C : Chain}.

(** Body of the first loop of [WalletUpdateSpent], over [tx.vin]. *)
Definition WalletUpdateSpent_vin (mapWallet : WalletMap) (txin : CTxIn) : WalletMap :=
  match mapWallet_find mapWallet (prevout_hash txin) with
  | Some wtx =>
      if (length (vout wtx) <=? prevout_n txin)%nat then mapWallet
      else if negb (IsSpent wtx (prevout_n txin)) && IsMine_at wtx (prevout_n txin)
      then mapWallet_modify mapWallet (prevout_hash txin)
             (fun wtx => MarkSpent wtx (prevout_n txin))
      else mapWallet
  | None => mapWallet
  end.

(** [CWallet::WalletUpdateSpent]; returns [mapWallet] after the call. The
    second loop writes through [mapWallet.find(tx.GetHash())] unchecked: the
    callers that pass [fBlock] pass a transaction of the wallet, and a
    transaction that is not in it leaves the map alone here. *)
Definition WalletUpdateSpent (mapWallet : WalletMap) (tx : CWalletTx) (fBlock : bool)
    : WalletMap :=
  let mapWallet := foldl WalletUpdateSpent_vin mapWallet (vin tx) in
  if fBlock then
    foldl (fun mapWallet i =>
             if IsMine_at tx i
             then mapWallet_modify mapWallet (hash tx) (fun wtx => MarkUnspent wtx i)
             else mapWallet)
          mapWallet (seq 0 (length (vout tx)))
  else mapWallet.

(** Body of the loop of [DisableTransaction] over [tx.vin]. *)
Definition DisableTransaction_vin (mapWallet : WalletMap) (txin : CTxIn) : WalletMap :=
  match mapWallet_find mapWallet (prevout_hash txin) with
  | Some prev =>
      if (prevout_n txin <? length (vout prev))%nat && IsMine_at prev (prevout_n txin)
      then mapWallet_modify mapWallet (prevout_hash txin)
             (fun prev => MarkUnspent prev (prevout_n txin))
      else mapWallet
  | None => mapWallet
  end.

(** [CWallet::DisableTransaction]; returns [mapWallet] after the call. *)
Definition DisableTransaction (mapWallet : WalletMap) (tx : CWalletTx) : WalletMap :=
  if negb (IsCoinStake tx) || negb (IsFromMe tx) then mapWallet
  else foldl DisableTransaction_vin mapWallet (vin tx).

End SpentFlags.

(** ** Key pool

    The transaction builder above takes the key pool as the [KeyPool] of its
    interface; this is the pool as [CWallet] keeps it: the set of indices
    [setKeyPool], the pool records of the wallet file and the key store. *)

Module Keypool.
Import stdpp.gmap.
Local Open Scope Z_scope.

(** [CKeyPool]: the time stamp and the key, which is [None] while
    invalid. *)
Record CKeyPool := mkKeyPool {
  nTime : Z;
  vchPubKey : option CPubKey
}.

(** The pool records of [wallet.dat] behind [CWalletDB], key generation and
    the key store, the settings, and the clock, as the key pool uses
    them. *)
Class Store := {
  CWalletDB : Type;
  WritePool : CWalletDB -> Z -> CKeyPool -> option CWalletDB;   (* [None]: returns false *)
  ReadPool : CWalletDB -> Z -> option CKeyPool;
  ErasePool : CWalletDB -> Z -> CWalletDB;
  Keys : Type;
  IsLocked : Keys -> bool;
  IsHDEnabled : Keys -> bool;
  HaveKey : Keys -> option CPubKey -> bool;        (* [HaveKey(vchPubKey.GetID())] *)
  GenerateNewKey : Keys -> option (CPubKey * Keys);             (* [None]: throws *)
  CKeyPool_of : CPubKey -> CKeyPool;               (* [CKeyPool(vchPubKeyIn)] *)
  CKeyPool_default : CKeyPool;                     (* [CKeyPool()] *)
  TopUpKeyPool_nSize : Z;                          (* the default argument of [TopUpKeyPool] *)
  GetArg_keypool : Z -> Z;                         (* [gArgs.GetArg("-keypool", n)] *)
  DEFAULT_KEYPOOL_SIZE : Z;
  DEFAULT_KEYPOOL_SIZE_PRE_HD : Z;
  GetAdjustedTime : Z
}.

(** The exceptions and the failed assertion of the key pool. *)
Inductive failure :=
| writing_generated_key_failed
| key_generation_failed
| read_failed
| unknown_key_in_key_pool
| assertion_failed.

(** How a call ends: it returns, it throws, or its loop is not done when
    the rounds granted to it are used up. The wallet is as the call left
    it. *)
Inductive Run (W A : Type) :=
| Returns (a : A) (w : W)
| Throws (what : failure) (w : W)
| Unfinished.
Arguments Returns {W A} a w.
Arguments Throws {W A} what w.
Arguments Unfinished {W A}.

Section Wallet.
Context `{St : Store}.

(** The members of [CWallet] that the key pool reads and writes. *)
Record Wallet := mkWallet {
  setKeyPool : gset Z;
  walletdb : CWalletDB;
  keys : Keys;
  vchDefaultKey : option CPubKey;
  fFileBacked : bool
}.

Definition set_setKeyPool (w : Wallet) (s : gset Z) : Wallet :=
  mkWallet s (walletdb w) (keys w) (vchDefaultKey w) (fFileBacked w).

Definition set_walletdb (w : Wallet) (db : CWalletDB) : Wallet :=
  mkWallet (setKeyPool w) db (keys w) (vchDefaultKey w) (fFileBacked w).

Definition set_keys (w : Wallet) (k : Keys) : Wallet :=
  mkWallet (setKeyPool w) (walletdb w) k (vchDefaultKey w) (fFileBacked w).

(** [*(setKeyPool.begin())]: the least index of the set. *)
Definition set_first (s : gset Z) : option Z :=
  foldr (fun x acc => Some (match acc with Some m => Z.min x m | None => x end))
        None (elements s).

(** [*(--setKeyPool.end())]: the greatest index of the set. *)
Definition set_last (s : gset Z) : option Z :=
  foldr (fun x acc => Some (match acc with Some m => Z.max x m | None => x end))
        None (elements s).

(** [max(gArgs.GetArg("-keypool", default_size), (int64_t)0)] *)
Definition keypool_size_setting (w : Wallet) : Z :=
  let default_size :=
    if IsHDEnabled (keys w) then DEFAULT_KEYPOOL_SIZE else DEFAULT_KEYPOOL_SIZE_PRE_HD in
  Z.max (GetArg_keypool default_size) 0.

(** The loop of [TopUpKeyPool]. *)
Fixpoint TopUpKeyPool_loop (rounds : nat) (nTargetSize : Z) (w : Wallet)
    : Run Wallet bool :=
  if Z.of_nat (size (setKeyPool w)) <? (nTargetSize + 1) mod UINT32_MOD then
    match rounds with
    | O => Unfinished
    | S rounds =>
        let nEnd :=
          match set_last (setKeyPool w) with
          | Some last => last + 1
          | None => 1
          end in
        match GenerateNewKey (keys w) with
        | None => Throws key_generation_failed w
        | Some (pubkey, k) =>
            let w := set_keys w k in
            match WritePool (walletdb w) nEnd (CKeyPool_of pubkey) with
            | None => Throws writing_generated_key_failed w
            | Some db =>
                TopUpKeyPool_loop rounds nTargetSize
                  (set_setKeyPool (set_walletdb w db) ({[nEnd]} ∪ setKeyPool w))
            end
        end
    end
  else Returns true w.

(** [CWallet::TopUpKeyPool]; a round adds a key, so the rounds granted are
    the keys that are missing. *)
Definition TopUpKeyPool (nSize : Z) (w : Wallet) : Run Wallet bool :=
  if IsLocked (keys w) then Returns false w
  else
    let nTargetSize :=
      if 0 <? nSize then nSize else keypool_size_setting w mod UINT32_MOD in
    TopUpKeyPool_loop
      (Z.to_nat ((nTargetSize + 1) mod UINT32_MOD - Z.of_nat (size (setKeyPool w))))
      nTargetSize w.

(** [CWallet::ReserveKeyFromKeyPool]; returns [(nIndex, keypool)]. *)
Definition ReserveKeyFromKeyPool (keypool : CKeyPool) (w : Wallet)
    : Run Wallet (Z * CKeyPool) :=
  let nIndex := -1 in
  let keypool := mkKeyPool (nTime keypool) None in
  let topped :=
    if negb (IsLocked (keys w)) then TopUpKeyPool TopUpKeyPool_nSize w else Returns true w in
  match topped with
  | Throws what w => Throws what w
  | Unfinished => Unfinished
  | Returns _ w =>
      match set_first (setKeyPool w) with
      | None => Returns (nIndex, keypool) w
      | Some nIndex =>
          let w := set_setKeyPool w (setKeyPool w ∖ {[nIndex]}) in
          match ReadPool (walletdb w) nIndex with
          | None => Throws read_failed w
          | Some keypool =>
              if negb (HaveKey (keys w) (vchPubKey keypool))
              then Throws unknown_key_in_key_pool w
              else
                match vchPubKey keypool with
                | None => Throws assertion_failed w
                | Some _ => Returns (nIndex, keypool) w
                end
          end
      end
  end.

(** [CWallet::KeepKey] *)
Definition KeepKey (nIndex : Z) (w : Wallet) : Wallet :=
  if fFileBacked w then set_walletdb w (ErasePool (walletdb w) nIndex) else w.

(** [CWallet::ReturnKey] *)
Definition ReturnKey (nIndex : Z) (w : Wallet) : Wallet :=
  set_setKeyPool w ({[nIndex]} ∪ setKeyPool w).

(** [CWallet::GetKeyFromPool]; returns the result with [result], which is
    [None] when it is not assigned. *)
Definition GetKeyFromPool (fAllowReuse : bool) (w : Wallet)
    : Run Wallet (bool * option CPubKey) :=
  match ReserveKeyFromKeyPool CKeyPool_default w with
  | Throws what w => Throws what w
  | Unfinished => Unfinished
  | Returns (nIndex, keypool) w =>
      if nIndex =? -1 then
        match (if fAllowReuse then vchDefaultKey w else None) with
        | Some d => Returns (true, Some d) w
        | None =>
            if IsLocked (keys w) then Returns (false, None) w
            else
              match GenerateNewKey (keys w) with
              | None => Throws key_generation_failed w
              | Some (pubkey, k) => Returns (true, Some pubkey) (set_keys w k)
              end
        end
      else Returns (true, vchPubKey keypool) (KeepKey nIndex w)
  end.

(** [CWallet::GetOldestKeyPoolTime] *)
Definition GetOldestKeyPoolTime (w : Wallet) : Run Wallet Z :=
  match ReserveKeyFromKeyPool CKeyPool_default w with
  | Throws what w => Throws what w
  | Unfinished => Unfinished
  | Returns (nIndex, keypool) w =>
      if nIndex =? -1 then Returns GetAdjustedTime w
      else Returns (nTime keypool) (ReturnKey nIndex w)
  end.

(** The second loop of [NewKeyPool], over [i] from the given one; the
    result of [WritePool] is not looked at. The counter [i] is an [int],
    which the loop takes up to [nKeys]: the sizes it can count are those
    below 2^31. *)
Fixpoint NewKeyPool_loop (nKeys : nat) (i : Z) (w : Wallet) : Run Wallet bool :=
  match nKeys with
  | O => Returns true w
  | S nKeys =>
      let nIndex := i + 1 in
      match GenerateNewKey (keys w) with
      | None => Throws key_generation_failed w
      | Some (pubkey, k) =>
          let w := set_keys w k in
          let db :=
            match WritePool (walletdb w) nIndex (CKeyPool_of pubkey) with
            | Some db => db
            | None => walletdb w
            end in
          NewKeyPool_loop nKeys (i + 1)
            (set_setKeyPool (set_walletdb w db) ({[nIndex]} ∪ setKeyPool w))
      end
  end.

(** [CWallet::NewKeyPool]; the first loop visits the indexes in ascending
    order. *)
Definition NewKeyPool (w : Wallet) : Run Wallet bool :=
  let db := foldl ErasePool (walletdb w) (std_sort Z.ltb (elements (setKeyPool w))) in
  let w := set_setKeyPool (set_walletdb w db) ∅ in
  if IsLocked (keys w) then Returns false w
  else NewKeyPool_loop (Z.to_nat (keypool_size_setting w)) 0 w.

End Wallet.
End Keypool.

(** ** Notions of the further properties *)

(** The bytes that [push_data] writes before the data. *)
Definition push_header (b : list byte) : list byte :=
  let size := Z.of_nat (length b) in
  if size <? OP_PUSHDATA1 then [to_uchar size]
  else if size <=? 0xff then [to_uchar OP_PUSHDATA1; to_uchar size]
  else if size <=? 0xffff then to_uchar OP_PUSHDATA2 :: le_bytes 2 size
  else to_uchar OP_PUSHDATA4 :: le_bytes 4 size.

(** The value of a hexadecimal digit, in either case. *)
Definition hex_digit (b : byte) : option Z :=
  let u := uchar b in
  if (48 <=? u) && (u <=? 57) then Some (u - 48)
  else if (97 <=? u) && (u <=? 102) then Some (u - 87)
  else if (65 <=? u) && (u <=? 70) then Some (u - 55)
  else None.

(** [HexStr] writes a byte as its two hexadecimal digits, the high one
    first. *)
Definition HexStr_two_digits (HexStr : byte -> list byte) : Prop :=
  forall c, exists h l,
    HexStr c = [h; l]
    /\ hex_digit h = Some (uchar c / 16) /\ hex_digit l = Some (uchar c mod 16).

Section SpentNotions.
Context `{P : Params} `{C : Chain}.

(** The tests of [AvailableCoins] on a wallet transaction, staked coins not
    included. *)
Definition spendable_tx (fOnlyConfirmed : bool) (pcoin : CWalletTx) : Prop :=
  IsFinalTx pcoin = true
  /\ (fOnlyConfirmed = true -> IsTrusted pcoin = true)
  /\ (IsCoinBase pcoin || IsCoinStake pcoin = true -> GetBlocksToMaturity pcoin <= 0)
  /\ 0 <= GetDepthInMainChain pcoin.

(** The tests of [AvailableCoins] on an output of the transaction. *)
Definition spendable_output (coinControl : option CCoinControl) (h : uint256)
    (pcoin : CWalletTx) (i : nat) : Prop :=
  (i < length (vout pcoin))%nat
  /\ IsSpent pcoin i = false
  /\ IsMine_at pcoin i = true
  /\ nMinimumInputValue <= vout_value pcoin i
  /\ coin_control_allows coinControl h i = true.

(** The second entry is the first but for its spent bitmap. *)
Definition same_but_spent (a b : uint256 * CWalletTx) : Prop :=
  fst b = fst a /\ snd b = set_vfSpent (snd a) (vfSpent (snd b)).

(** From the first map to the second, the entries keep their keys and
    outputs, and every flag that is [d] stays [d]. *)
Definition flags_kept (d : bool) (m m' : WalletMap) : Prop :=
  forall h,
    match mapWallet_find m h, mapWallet_find m' h with
    | Some a, Some b =>
        vout b = vout a
        /\ forall n, (n < length (vout a))%nat -> IsSpent a n = d -> IsSpent b n = d
    | None, None => True
    | _, _ => False
    end.

End SpentNotions.

(** ** Samples on which the further functions can be run *)

Module Samples.

(** The digits of [HexStr]: lower-case. *)
Definition hexmap (n : Z) : byte := to_uchar (if n <? 10 then 48 + n else 87 + n).

Definition HexStr (c : byte) : list byte :=
  [hexmap (uchar c / 16); hexmap (uchar c mod 16)].

(** A stand-in for [CBigNum::getvch]: the eight bytes of the number. *)
Definition getvch (n : Z) : list byte := le_bytes 8 n.

(** The label "a b%": a letter, a space, a letter and a percent sign. *)
Definition label : list byte := [x61; x20; x62; x25].

(** A push of the three bytes 1, 2, 3 behind an [OP_1]. *)
Definition script : CScript := push_data [x51] [x01; x02; x03].

(** A transaction that consumes output 0 of the first and output 0 of the
    second transaction of [Scenario.wallet], and an output of a transaction
    that is not in the wallet. *)
Definition spender : CWalletTx :=
  mkWalletTx 3001 1500 [mkTxIn 1200 0 []; mkTxIn 2050 0 []; mkTxIn 9999 0 []]
             [mkTxOut 0 []; mkTxOut 2500000 Scenario.mine] [] [] true false.

(** Pool records as a list, the latest first; a key store that is locked
    or not and numbers the keys it generates; a pool of three keys by
    default. *)
Definition store : Keypool.Store :=
  {| Keypool.CWalletDB := list (Z * Keypool.CKeyPool);
     Keypool.WritePool := fun db i kp => Some ((i, kp) :: db);
     Keypool.ReadPool := fun db i =>
       match List.find (fun r => fst r =? i) db with
       | Some r => Some (snd r)
       | None => None
       end;
     Keypool.ErasePool := fun db i => List.filter (fun r => negb (fst r =? i)) db;
     Keypool.Keys := bool * Z;
     Keypool.IsLocked := fst;
     Keypool.IsHDEnabled := fun _ => false;
     Keypool.HaveKey := fun k pub =>
       match pub with
       | Some p => p <? snd k
       | None => false
       end;
     Keypool.GenerateNewKey := fun k => Some (snd k, (fst k, snd k + 1));
     Keypool.CKeyPool_of := fun pub => Keypool.mkKeyPool 1700000000 (Some pub);
     Keypool.CKeyPool_default := Keypool.mkKeyPool 1700000000 None;
     Keypool.TopUpKeyPool_nSize := 0;
     Keypool.GetArg_keypool := fun n => n;
     Keypool.DEFAULT_KEYPOOL_SIZE := 3;
     Keypool.DEFAULT_KEYPOOL_SIZE_PRE_HD := 3;
     Keypool.GetAdjustedTime := 1800000000 |}.

(** The records of the keys 10, 11 and 12 under the indexes 4, 5 and 7. *)
Definition records : list (Z * Keypool.CKeyPool) :=
  [(7, Keypool.mkKeyPool 1700000300 (Some 12));
   (5, Keypool.mkKeyPool 1700000200 (Some 11));
   (4, Keypool.mkKeyPool 1700000100 (Some 10))].

(** A locked wallet whose pool holds the three indexes. *)
Definition pooled : @Keypool.Wallet store :=
  @Keypool.mkWallet store (list_to_set [4; 5; 7]) records (true, 13) None true.

(** A locked wallet with an empty pool. *)
Definition drained : @Keypool.Wallet store :=
  @Keypool.mkWallet store (list_to_set []) [] (true, 13) None true.

End Samples.

(** * Properties *)

(** ** Sums and folds *)

Lemma sumZ_app (l1 l2 : list Z) : sumZ (l1 ++ l2) = sumZ l1 + sumZ l2.
Proof. induction l1 as [|x l1 IH]; simpl; lia. Qed.

Lemma sumZ_Permutation (l1 l2 : list Z) : Permutation l1 l2 -> sumZ l1 = sumZ l2.
Proof. induction 1; simpl; lia. Qed.

Lemma foldl_seq_S {A : Type} (f : A -> nat -> A) (a : A) (n : nat) :
  foldl f a (seq 0 (S n)) = f (foldl f a (seq 0 n)) n.
Proof. rewrite seq_S, foldl_app. reflexivity. Qed.

Lemma flag_at_resize (vf : list bool) (k m : nat) :
  (m < k)%nat -> flag_at (resize k false vf) m = flag_at vf m.
Proof.
  intros Hm. unfold flag_at.
  destruct (decide (m < length vf)%nat) as [Hlt|Hge].
  - rewrite lookup_resize by assumption. reflexivity.
  - rewrite lookup_resize_new by lia.
    rewrite (lookup_ge_None_2 vf m) by lia. reflexivity.
Qed.

Lemma flag_at_insert_eq (vf : list bool) (n : nat) (b : bool) :
  (n < length vf)%nat -> flag_at (<[n := b]> vf) n = b.
Proof. intros Hn. unfold flag_at. rewrite list_lookup_insert_eq by assumption. reflexivity. Qed.

Lemma flag_at_insert_ne (vf : list bool) (n m : nat) (b : bool) :
  n <> m -> flag_at (<[n := b]> vf) m = flag_at vf m.
Proof. intros Hn. unfold flag_at. rewrite list_lookup_insert_ne by assumption. reflexivity. Qed.

Lemma Permutation_Forall_coin {A : Type} (Q : A -> Prop) (l l' : list A) :
  Permutation l l' -> Forall Q l -> Forall Q l'.
Proof.
  intros Hp Hl. rewrite Forall_forall in *.
  intros x Hx. apply Hl. eapply Permutation_in; [symmetry; exact Hp|exact Hx].
Qed.

(** ** Coin selection *)

(** ** Sorting and sets of coins *)

Lemma sort_insert_Permutation {A : Type} (comp : A -> A -> bool) (x : A) (l : list A) :
  Permutation (x :: l) (sort_insert comp x l).
Proof.
  induction l as [|y t IH]; simpl; [reflexivity|].
  destruct (comp y x); [|reflexivity].
  rewrite perm_swap. apply perm_skip, IH.
Qed.

Lemma std_sort_Permutation {A : Type} (comp : A -> A -> bool) (l : list A) :
  Permutation l (std_sort comp l).
Proof.
  induction l as [|x t IH]; simpl; [reflexivity|].
  rewrite <- sort_insert_Permutation. apply perm_skip, IH.
Qed.

Lemma std_sort_reverse_Permutation {A : Type} (comp : A -> A -> bool) (l : list A) :
  Permutation l (std_sort_reverse comp l).
Proof.
  unfold std_sort_reverse.
  rewrite <- Permutation_rev, <- std_sort_Permutation. apply Permutation_rev.
Qed.

Lemma filter_Permutation_bool {A : Type} (p : A -> bool) (l l' : list A) :
  Permutation l l' -> Permutation (List.filter p l) (List.filter p l').
Proof.
  induction 1 as [|x l l' _ IH|x y l|l l' l'' _ IH1 _ IH2]; simpl.
  - reflexivity.
  - destruct (p x); [apply perm_skip|]; exact IH.
  - destruct (p x), (p y); try reflexivity. apply perm_swap.
  - etransitivity; eassumption.
Qed.

Lemma coin_eqb_key (a b : Coin) : coin_eqb a b = true <-> coin_key a = coin_key b.
Proof.
  unfold coin_eqb, coin_key. split.
  - intros H. apply andb_prop in H. destruct H as [Hh Hi].
    apply Z.eqb_eq in Hh. apply Nat.eqb_eq in Hi. congruence.
  - intros H. injection H as Hh Hi. rewrite Hh, Hi, Z.eqb_refl, Nat.eqb_refl. reflexivity.
Qed.

Lemma set_insert_fresh (c : Coin) (s : CoinSet) :
  ~ In (coin_key c) (map coin_key s) -> set_insert c s = s ++ [c].
Proof.
  intros Hfresh. unfold set_insert.
  destruct (existsb (coin_eqb c) s) eqn:Hex; [|reflexivity].
  exfalso. apply Hfresh. apply existsb_exists in Hex. destruct Hex as [d [Hd Heq]].
  apply coin_eqb_key in Heq. rewrite Heq. apply in_map, Hd.
Qed.

Lemma set_total_app (s1 s2 : CoinSet) : set_total (s1 ++ s2) = set_total s1 + set_total s2.
Proof. unfold set_total. rewrite map_app. apply sumZ_app. Qed.

(** Inserting coins of identities that are new and distinct appends them. *)
Lemma insert_all_fresh (cs : list Coin) (s : CoinSet) :
  List.NoDup (map coin_key (s ++ cs)) ->
  foldl (fun s c => set_insert c s) s cs = s ++ cs.
Proof.
  revert s. induction cs as [|c cs IH]; intros s Hnd; simpl.
  - rewrite app_nil_r. reflexivity.
  - assert (Hfresh : ~ In (coin_key c) (map coin_key s)).
    { rewrite map_app in Hnd. simpl in Hnd.
      apply NoDup_remove_2 in Hnd. intros Hin. apply Hnd.
      apply in_or_app. left. exact Hin. }
    rewrite set_insert_fresh by exact Hfresh.
    rewrite IH.
    + rewrite <- app_assoc. reflexivity.
    + rewrite <- app_assoc. exact Hnd.
Qed.

(** ** The stochastic approximation *)

Lemma masked_total_nil_r (vValue : list ValueCoin) : masked_total vValue [] = 0.
Proof. destruct vValue; reflexivity. Qed.

Lemma masked_total_cons (p : ValueCoin) (b : bool) (vValue : list ValueCoin) (vf : list bool) :
  masked_total (p :: vValue) (b :: vf) = (if b then fst p else 0) + masked_total vValue vf.
Proof. reflexivity. Qed.

Lemma masked_total_replicate_false (vValue : list ValueCoin) (n : nat) :
  masked_total vValue (replicate n false) = 0.
Proof.
  revert n. induction vValue as [|p l IH]; intros [|n]; try reflexivity.
  simpl replicate. rewrite masked_total_cons, IH. reflexivity.
Qed.

Lemma masked_total_replicate_true (vValue : list ValueCoin) :
  masked_total vValue (replicate (length vValue) true) = sumZ (map fst vValue).
Proof.
  induction vValue as [|p l IH]; [reflexivity|].
  simpl length. simpl replicate. rewrite masked_total_cons, IH. reflexivity.
Qed.

(** Setting a flag that was clear adds the value of its coin. *)
Lemma masked_total_set (vValue : list ValueCoin) (vf : list bool) (i : nat) :
  (i < length vValue)%nat ->
  vf !! i = Some false ->
  masked_total vValue (<[i := true]> vf) = masked_total vValue vf + value_at vValue i.
Proof.
  revert vf i. induction vValue as [|p l IH]; intros vf i Hi Hvf; simpl in Hi; [lia|].
  destruct vf as [|b vf]; [discriminate|].
  destruct i as [|i].
  - simpl in Hvf. injection Hvf as ->.
    change (<[0%nat := true]> (false :: vf)) with (true :: vf).
    rewrite !masked_total_cons.
    change (value_at (p :: l) 0) with (fst p). lia.
  - simpl in Hvf. change (<[S i := true]> (b :: vf)) with (b :: <[i := true]> vf).
    rewrite !masked_total_cons, IH by (assumption || lia).
    change (value_at (p :: l) (S i)) with (value_at l i). lia.
Qed.

Section Approximation.
Context `{R : Random}.
Variable vValue : list ValueCoin.
Variable nTargetValue : Z.

Lemma flag_at_false_lookup (vf : list bool) (i : nat) :
  (i < length vf)%nat -> flag_at vf i = false -> vf !! i = Some false.
Proof.
  intros Hi Hf. unfold flag_at in Hf.
  destruct (vf !! i) as [b|] eqn:Hl.
  - simpl in Hf. congruence.
  - apply lookup_ge_None_1 in Hl. lia.
Qed.

Lemma abs_visit_inv (nPass i : nat) (s : ABS) :
  (i < length vValue)%nat ->
  run_inv vValue nTargetValue nPass i s ->
  run_inv vValue nTargetValue nPass (S i) (abs_visit vValue nTargetValue nPass s i).
Proof.
  intros Hi (Hlen & Htotal & Hclear & Hbest).
  unfold abs_visit.
  assert (Htake : forall rng,
    flag_at (abs_vfIncluded s) i = false ->
    run_inv vValue nTargetValue nPass (S i)
      (let nTotal := abs_nTotal s + value_at vValue i in
       let vfIncluded := <[i := true]> (abs_vfIncluded s) in
       if nTargetValue <=? nTotal then
         let better := nTotal <? abs_nBest s in
         mkABS rng (nTotal - value_at vValue i) (<[i := false]> vfIncluded) true
               (if better then nTotal else abs_nBest s)
               (if better then vfIncluded else abs_vfBest s)
       else
         mkABS rng nTotal vfIncluded (abs_fReachedTarget s) (abs_nBest s) (abs_vfBest s))).
  { intros rng Hflag.
    assert (Hlook : abs_vfIncluded s !! i = Some false)
      by (apply flag_at_false_lookup; [lia|exact Hflag]).
    pose proof (masked_total_set vValue (abs_vfIncluded s) i Hi Hlook) as Hset.
    cbv zeta.
    destruct (nTargetValue <=? abs_nTotal s + value_at vValue i) eqn:Hreach.
    - apply Z.leb_le in Hreach.
      rewrite list_insert_insert_eq, (list_insert_id _ _ _ Hlook).
      split; [exact Hlen|]. split; [cbn [abs_nTotal abs_vfIncluded]; lia|].
      split; [intros Hp j Hj; apply Hclear; [exact Hp|lia]|].
      destruct Hbest as (Hblen & Hbtotal & Hbge).
      destruct (abs_nTotal s + value_at vValue i <? abs_nBest s).
      + split; [cbn [abs_vfBest]; rewrite length_insert; exact Hlen|].
        split; [cbn [abs_nBest abs_vfBest]; lia|]. cbn [abs_nBest]. lia.
      + split; [exact Hblen|]. split; [exact Hbtotal|exact Hbge].
    - split; [cbn [abs_vfIncluded]; rewrite length_insert; exact Hlen|].
      split; [cbn [abs_nTotal abs_vfIncluded]; lia|].
      split; [|exact Hbest].
      intros Hp j Hj. cbn [abs_vfIncluded].
      rewrite flag_at_insert_ne by lia. apply Hclear; [exact Hp|lia]. }
  assert (Hskip : forall rng,
    run_inv vValue nTargetValue nPass (S i)
      (mkABS rng (abs_nTotal s) (abs_vfIncluded s) (abs_fReachedTarget s)
             (abs_nBest s) (abs_vfBest s))).
  { intros rng. split; [exact Hlen|]. split; [exact Htotal|]. split; [|exact Hbest].
    intros Hp j Hj. apply Hclear; [exact Hp|lia]. }
  destruct (Nat.eqb nPass 0) eqn:Hpass.
  - apply Nat.eqb_eq in Hpass.
    destruct (randbool (abs_rng s)) as [take rng].
    destruct take; [|apply Hskip].
    apply Htake. apply Hclear; [exact Hpass|lia].
  - destruct (negb (flag_at (abs_vfIncluded s) i)) eqn:Hflag; [|apply Hskip].
    apply Htake. apply negb_true_iff in Hflag. exact Hflag.
Qed.

Lemma abs_pass_inv (nPass : nat) (s : ABS) :
  run_inv vValue nTargetValue nPass 0 s ->
  run_inv vValue nTargetValue nPass (length vValue) (abs_pass vValue nTargetValue nPass s).
Proof.
  intros Hs. unfold abs_pass.
  assert (G : forall k, (k <= length vValue)%nat ->
            run_inv vValue nTargetValue nPass k (foldl (abs_visit vValue nTargetValue nPass) s (seq 0 k))).
  { induction k as [|k IH]; intros Hk; [exact Hs|].
    rewrite foldl_seq_S. apply abs_visit_inv; [lia|]. apply IH. lia. }
  apply G. lia.
Qed.

Lemma abs_trial_inv (s : ABS) :
  best_inv vValue nTargetValue s -> best_inv vValue nTargetValue (abs_trial vValue nTargetValue s).
Proof.
  intros Hbest. unfold abs_trial, abs_passes. cbn [foldl abs_fReachedTarget].
  set (s0 := mkABS (abs_rng s) 0 (replicate (length vValue) false) false
                   (abs_nBest s) (abs_vfBest s)).
  assert (H0 : run_inv vValue nTargetValue 0 0 s0).
  { split; [apply length_replicate|].
    split; [cbn [abs_nTotal abs_vfIncluded s0]; rewrite masked_total_replicate_false; reflexivity|].
    split; [|exact Hbest].
    intros _ j _. unfold flag_at. cbn [abs_vfIncluded s0].
    destruct (replicate (length vValue) false !! j) as [b|] eqn:Hl; [|reflexivity].
    apply lookup_replicate in Hl. destruct Hl as [-> _]. reflexivity. }
  pose proof (abs_pass_inv 0 s0 H0) as (Hl1 & Ht1 & _ & Hb1).
  destruct (abs_fReachedTarget (abs_pass vValue nTargetValue 0 s0)); [exact Hb1|].
  assert (H1 : run_inv vValue nTargetValue 1 0 (abs_pass vValue nTargetValue 0 s0)).
  { split; [exact Hl1|]. split; [exact Ht1|]. split; [discriminate|exact Hb1]. }
  pose proof (abs_pass_inv 1 _ H1) as (_ & _ & _ & Hb2). exact Hb2.
Qed.

Lemma abs_reps_inv (reps : nat) (s : ABS) :
  best_inv vValue nTargetValue s -> best_inv vValue nTargetValue (abs_reps vValue nTargetValue reps s).
Proof.
  revert s. induction reps as [|reps IH]; intros s Hs; simpl; [exact Hs|].
  destruct (abs_nBest s =? nTargetValue); [exact Hs|].
  apply IH, abs_trial_inv, Hs.
Qed.

End Approximation.

Section ApproximationResult.
Context `{P : Params} `{R : Random}.

(** [ApproximateBestSubset] returns flags, one for each value, that select
    a total of [nBest], which is not below the target. *)
Lemma ApproximateBestSubset_spec (rng : FastRandomContext) (vValue : list ValueCoin)
    (nTotalLower nTargetValue : Z) (iterations : nat) :
  nTotalLower = sumZ (map fst vValue) ->
  nTargetValue <= nTotalLower ->
  let '(vfBest, nBest) :=
    ApproximateBestSubset rng vValue nTotalLower nTargetValue iterations in
  length vfBest = length vValue
  /\ nBest = masked_total vValue vfBest
  /\ nTargetValue <= nBest.
Proof.
  intros Hsum Hge. unfold ApproximateBestSubset.
  apply (abs_reps_inv vValue nTargetValue iterations).
  split; [apply length_replicate|].
  split; [cbn [abs_nBest abs_vfBest]; rewrite masked_total_replicate_true; exact Hsum|].
  exact Hge.
Qed.

(** The two calls of [SelectCoinsMinConf]. *)
Lemma approximate_spec (e : Entropy) (vValue : list ValueCoin) (nTotalLower nTargetValue : Z) :
  0 <= CENT ->
  nTotalLower = sumZ (map fst vValue) ->
  nTargetValue <= nTotalLower ->
  let '(vfBest, nBest) := approximate e vValue nTotalLower nTargetValue in
  length vfBest = length vValue
  /\ nBest = masked_total vValue vfBest
  /\ nTargetValue <= nBest
  /\ (nBest <> nTargetValue -> nTargetValue + CENT <= nTotalLower -> nTargetValue + CENT <= nBest).
Proof.
  intros Hcent Hsum Hge. unfold approximate.
  pose proof (ApproximateBestSubset_spec (e 1%nat) vValue nTotalLower nTargetValue 1000
                Hsum Hge) as H1.
  destruct (ApproximateBestSubset (e 1%nat) vValue nTotalLower nTargetValue 1000)
    as [vfBest nBest].
  destruct (negb (nBest =? nTargetValue) && (nTargetValue + CENT <=? nTotalLower)) eqn:Hsecond.
  - apply andb_prop in Hsecond. destruct Hsecond as [_ Hle]. apply Z.leb_le in Hle.
    pose proof (ApproximateBestSubset_spec (e 2%nat) vValue nTotalLower (nTargetValue + CENT)
                  1000 Hsum Hle) as H2.
    destruct (ApproximateBestSubset (e 2%nat) vValue nTotalLower (nTargetValue + CENT) 1000)
      as [vfBest2 nBest2].
    destruct H2 as (Hl & Ht & Hb). repeat split; try assumption; lia.
  - destruct H1 as (Hl & Ht & Hb). repeat split; try assumption.
    intros Hne Hle. exfalso.
    apply andb_false_iff in Hsecond. destruct Hsecond as [Hs|Hs].
    + apply negb_false_iff, Z.eqb_eq in Hs. contradiction.
    + apply Z.leb_gt in Hs. lia.
Qed.

End ApproximationResult.

(** ** The subsets that [SelectCoinsMinConf] returns *)

Lemma masked_coins_cons (p : ValueCoin) (b : bool) (vValue : list ValueCoin) (vf : list bool) :
  masked_coins (p :: vValue) (b :: vf)
  = (if b then [snd p] else []) ++ masked_coins vValue vf.
Proof. unfold masked_coins. simpl. destruct b; reflexivity. Qed.

Lemma masked_total_snoc (vValue : list ValueCoin) (vf : list bool) (p : ValueCoin) (b : bool) :
  length vValue = length vf ->
  masked_total (vValue ++ [p]) (vf ++ [b])
  = masked_total vValue vf + (if b then fst p else 0).
Proof.
  intros Hlen. unfold masked_total.
  rewrite zip_with_app by exact Hlen. rewrite sumZ_app. simpl. lia.
Qed.

Lemma masked_coins_snoc (vValue : list ValueCoin) (vf : list bool) (p : ValueCoin) (b : bool) :
  length vValue = length vf ->
  masked_coins (vValue ++ [p]) (vf ++ [b])
  = masked_coins vValue vf ++ (if b then [snd p] else []).
Proof.
  intros Hlen. unfold masked_coins.
  rewrite zip_with_app by exact Hlen. rewrite omap_app. simpl. destruct b; reflexivity.
Qed.

Lemma masked_coins_In (vValue : list ValueCoin) (vf : list bool) (c : Coin) :
  In c (masked_coins vValue vf) -> In c (map snd vValue).
Proof.
  revert vf. induction vValue as [|p l IH]; intros vf Hin.
  - destruct vf; contradiction.
  - destruct vf as [|b vf]; [contradiction|].
    rewrite masked_coins_cons in Hin. apply in_app_or in Hin.
    destruct Hin as [Hin|Hin].
    + destruct b; [|contradiction]. destruct Hin as [<-|[]]. left. reflexivity.
    + right. eapply IH, Hin.
Qed.

Lemma masked_coins_NoDup (vValue : list ValueCoin) (vf : list bool) :
  List.NoDup (map coin_key (map snd vValue)) ->
  List.NoDup (map coin_key (masked_coins vValue vf)).
Proof.
  revert vf. induction vValue as [|p l IH]; intros vf Hnd.
  - destruct vf; constructor.
  - destruct vf as [|b vf]; [constructor|].
    rewrite masked_coins_cons. simpl in Hnd. inversion Hnd as [|k ks Hk Hks]; subst.
    destruct b; simpl; [|apply IH, Hks].
    constructor; [|apply IH, Hks].
    intros Hin. apply Hk. apply in_map_iff in Hin. destruct Hin as [c [Hc Hin]].
    rewrite <- Hc. apply in_map. eapply masked_coins_In, Hin.
Qed.

Lemma masked_coins_total (vValue : list ValueCoin) (vf : list bool) :
  Forall consistent vValue ->
  set_total (masked_coins vValue vf) = masked_total vValue vf.
Proof.
  revert vf. induction vValue as [|p l IH]; intros vf Hcons.
  - destruct vf; reflexivity.
  - destruct vf as [|b vf]; [reflexivity|].
    inversion Hcons as [|? ? Hp Hl]; subst.
    rewrite masked_coins_cons, masked_total_cons, set_total_app, IH by exact Hl.
    destruct b; [|reflexivity]. unfold set_total. simpl. rewrite <- Hp. lia.
Qed.

Lemma take_all_spec (vValue : list ValueCoin) (setCoinsRet : CoinSet) (nValueRet : Z) :
  take_all vValue (setCoinsRet, nValueRet)
  = (foldl (fun s c => set_insert c s) setCoinsRet (map snd vValue),
     nValueRet + sumZ (map fst vValue)).
Proof.
  unfold take_all. revert setCoinsRet nValueRet.
  induction vValue as [|p l IH]; intros setCoinsRet nValueRet; simpl.
  - f_equal. lia.
  - rewrite IH. f_equal. lia.
Qed.

Lemma take_best_spec (vValue : list ValueCoin) (vfBest : list bool)
    (setCoinsRet : CoinSet) (nValueRet : Z) :
  length vfBest = length vValue ->
  take_best vValue vfBest (setCoinsRet, nValueRet)
  = (foldl (fun s c => set_insert c s) setCoinsRet (masked_coins vValue vfBest),
     nValueRet + masked_total vValue vfBest).
Proof.
  intros Hlen. unfold take_best.
  assert (G : forall k, (k <= length vValue)%nat ->
    foldl (fun '(setCoinsRet, nValueRet) i =>
             if flag_at vfBest i then
               match vValue !! i with
               | Some p => (set_insert (snd p) setCoinsRet, nValueRet + fst p)
               | None => (setCoinsRet, nValueRet)
               end
             else (setCoinsRet, nValueRet))
          (setCoinsRet, nValueRet) (seq 0 k)
    = (foldl (fun s c => set_insert c s) setCoinsRet
             (masked_coins (take k vValue) (take k vfBest)),
       nValueRet + masked_total (take k vValue) (take k vfBest))).
  { induction k as [|k IH]; intros Hk.
    - simpl. f_equal. unfold masked_total. simpl. lia.
    - rewrite foldl_seq_S, IH by lia.
      cbv beta iota. unfold flag_at.
      destruct (vValue !! k) as [p|] eqn:Hp; [|apply lookup_ge_None_1 in Hp; lia].
      destruct (vfBest !! k) as [b|] eqn:Hb; [|apply lookup_ge_None_1 in Hb; lia].
      rewrite (take_S_r _ _ _ Hp), (take_S_r _ _ _ Hb).
      rewrite masked_total_snoc, masked_coins_snoc
        by (rewrite !length_take; lia).
      simpl.
      destruct b.
      + rewrite foldl_app. simpl. f_equal. lia.
      + rewrite app_nil_r. f_equal. lia. }
  rewrite G by lia.
  rewrite firstn_all. rewrite <- Hlen, firstn_all. reflexivity.
Qed.

(** ** The first loop of [SelectCoinsMinConf] *)

Section Scan.
Context `{P : Params} `{C : Chain}.
Variables nTargetValue nSpendTime nConfMine nConfTheirs : Z.

Let scan := scan_coins nTargetValue nSpendTime nConfMine nConfTheirs.
Let elig := eligible nSpendTime nConfMine nConfTheirs.
Let lower := lower_partition nTargetValue nSpendTime nConfMine nConfTheirs.
Let larger := larger_partition nTargetValue nSpendTime nConfMine nConfTheirs.

Lemma scan_coins_inl (l : list COutput) (acc : Partition) (coin : ValueCoin) :
  scan l acc = inl coin ->
  exists o, In o l /\ elig o = true /\ output_value o = nTargetValue /\ coin = value_coin o.
Proof.
  subst scan elig. revert acc.
  induction l as [|o l IH]; intros acc Hscan; simpl in Hscan; [discriminate|].
  unfold eligible.
  destruct (depth_too_low nConfMine nConfTheirs o) eqn:Hd.
  { destruct (IH _ Hscan) as [o' (Hin & H)]. exists o'. split; [right; exact Hin|exact H]. }
  destruct (too_recent nSpendTime o) eqn:Ht.
  { destruct (IH _ Hscan) as [o' (Hin & H)]. exists o'. split; [right; exact Hin|exact H]. }
  destruct (vout_value (out_tx o) (out_i o) =? nTargetValue) eqn:Heq.
  { injection Hscan as <-. apply Z.eqb_eq in Heq. exists o.
    split; [left; reflexivity|]. rewrite Hd, Ht. repeat split. exact Heq. }
  destruct (vout_value (out_tx o) (out_i o) <? nTargetValue + CENT).
  { destruct (IH _ Hscan) as [o' (Hin & H)]. exists o'. split; [right; exact Hin|exact H]. }
  destruct (vout_value (out_tx o) (out_i o) <? fst (coinLowestLarger acc)).
  { destruct (IH _ Hscan) as [o' (Hin & H)]. exists o'. split; [right; exact Hin|exact H]. }
  destruct (IH _ Hscan) as [o' (Hin & H)]. exists o'. split; [right; exact Hin|exact H].
Qed.

Lemma scan_coins_inr (l : list COutput) (acc p : Partition) :
  scan l acc = inr p ->
  (forall o, In o l -> elig o = true -> output_value o <> nTargetValue)
  /\ vValue p = vValue acc ++ map value_coin (lower l)
  /\ nTotalLower p = nTotalLower acc + sumZ (map output_value (lower l)).
Proof.
  subst scan elig lower. unfold lower_partition. revert acc.
  induction l as [|o l IH]; intros acc Hscan; simpl in Hscan.
  - injection Hscan as <-. simpl. rewrite app_nil_r.
    split; [intros o []|]. split; [reflexivity|lia].
  - unfold eligible in *. simpl List.filter.
    destruct (depth_too_low nConfMine nConfTheirs o) eqn:Hd; simpl.
    { destruct (IH _ Hscan) as (Hne & Hv & Ht). split; [|split; assumption].
      intros o' [<-|Hin] He; [rewrite Hd in He; discriminate|]. apply Hne; assumption. }
    destruct (too_recent nSpendTime o) eqn:Ht; simpl.
    { destruct (IH _ Hscan) as (Hne & Hv & Hs). split; [|split; assumption].
      intros o' [<-|Hin] He; [rewrite Hd, Ht in He; discriminate|]. apply Hne; assumption. }
    fold (output_value o) in *.
    destruct (output_value o =? nTargetValue) eqn:Heq; [discriminate|].
    apply Z.eqb_neq in Heq.
    destruct (output_value o <? nTargetValue + CENT) eqn:Hlow.
    { destruct (IH _ Hscan) as (Hne & Hv & Hs). simpl in Hv, Hs.
      split; [|split].
      - intros o' [<-|Hin] He; [exact Heq|]. apply Hne; assumption.
      - rewrite Hv, <- app_assoc. reflexivity.
      - simpl. rewrite Hs. lia. }
    destruct (output_value o <? fst (coinLowestLarger acc)).
    { destruct (IH _ Hscan) as (Hne & Hv & Hs). simpl in Hv, Hs.
      split; [|split; assumption].
      intros o' [<-|Hin] He; [exact Heq|]. apply Hne; assumption. }
    destruct (IH _ Hscan) as (Hne & Hv & Hs).
    split; [|split; assumption].
    intros o' [<-|Hin] He; [exact Heq|]. apply Hne; assumption.
Qed.

Lemma scan_coins_larger (l : list COutput) (acc p : Partition) :
  scan l acc = inr p ->
  larger_inv nTargetValue (coinLowestLarger acc) ->
  larger_inv nTargetValue (coinLowestLarger p)
  /\ fst (coinLowestLarger p) <= fst (coinLowestLarger acc)
  /\ (forall o, In o (larger l) -> fst (coinLowestLarger p) <= output_value o)
  /\ match snd (coinLowestLarger p) with
     | Some c => snd (coinLowestLarger acc) = Some c
                 \/ exists o, In o (larger l) /\ c = output_coin o
     | None => True
     end.
Proof.
  subst scan larger. unfold larger_partition. revert acc.
  induction l as [|o l IH]; intros acc Hscan Hacc; simpl in Hscan.
  - injection Hscan as <-. split; [exact Hacc|]. split; [lia|].
    split; [intros o []|]. destruct (snd (coinLowestLarger acc)); auto.
  - unfold eligible in *. simpl List.filter.
    destruct (depth_too_low nConfMine nConfTheirs o) eqn:Hd; simpl.
    { apply IH; assumption. }
    destruct (too_recent nSpendTime o) eqn:Ht; simpl.
    { apply IH; assumption. }
    fold (output_value o) in *.
    destruct (output_value o =? nTargetValue) eqn:Heq; [discriminate|].
    destruct (output_value o <? nTargetValue + CENT) eqn:Hlow; simpl.
    { destruct (IH _ Hscan) as (Hinv & Hle & Hmin & Hfrom); [exact Hacc|].
      simpl in Hle, Hfrom. split; [exact Hinv|]. split; [exact Hle|]. split; assumption. }
    apply Z.ltb_ge in Hlow.
    destruct (output_value o <? fst (coinLowestLarger acc)) eqn:Hlt.
    { apply Z.ltb_lt in Hlt.
      destruct (IH _ Hscan) as (Hinv & Hle & Hmin & Hfrom).
      { destruct Hacc as [Hmax _]. split; simpl; [lia|]. split; [reflexivity|exact Hlow]. }
      simpl in Hle. split; [exact Hinv|]. split; [lia|]. split.
      - intros o' [<-|Hin]; [exact Hle|]. apply Hmin, Hin.
      - destruct (snd (coinLowestLarger p)) as [c|]; [|exact I].
        right. destruct Hfrom as [Hc|[o' [Hin Hc]]].
        + simpl in Hc. injection Hc as <-. exists o. split; [left; reflexivity|reflexivity].
        + exists o'. split; [right; exact Hin|exact Hc]. }
    apply Z.ltb_ge in Hlt.
    destruct (IH _ Hscan Hacc) as (Hinv & Hle & Hmin & Hfrom).
    split; [exact Hinv|]. split; [exact Hle|]. split.
    + intros o' [<-|Hin]; [lia|]. apply Hmin, Hin.
    + destruct (snd (coinLowestLarger p)) as [c|]; [|exact I].
      destruct Hfrom as [Hc|[o' [Hin Hc]]]; [left; exact Hc|].
      right. exists o'. split; [right; exact Hin|exact Hc].
Qed.

Lemma eligible_total_split (l : list COutput) :
  eligible_total nSpendTime nConfMine nConfTheirs l
  = sumZ (map output_value (lower l)) + sumZ (map output_value (larger l)).
Proof.
  subst lower larger. unfold eligible_total, lower_partition, larger_partition.
  induction l as [|o l IH]; simpl; [reflexivity|].
  destruct (eligible nSpendTime nConfMine nConfTheirs o); simpl; [|exact IH].
  destruct (output_value o <? nTargetValue + CENT); simpl; lia.
Qed.

End Scan.



Lemma NoDup_map_filter {A B : Type} (f : A -> B) (p : A -> bool) (l : list A) :
  List.NoDup (map f l) -> List.NoDup (map f (List.filter p l)).
Proof.
  induction l as [|x l IH]; intros Hnd; simpl; [constructor|].
  simpl in Hnd. inversion Hnd as [|? ? Hx Hl]; subst.
  destruct (p x); simpl; [|apply IH, Hl].
  constructor; [|apply IH, Hl].
  intros Hin. apply Hx. apply in_map_iff in Hin. destruct Hin as [y [Hy Hin]].
  apply filter_In in Hin. rewrite <- Hy. apply in_map, Hin.
Qed.

Lemma Forall_consistent_value_coin (l : list COutput) :
  Forall consistent (map value_coin l).
Proof. induction l; constructor; [reflexivity|assumption]. Qed.

Lemma sumZ_map_fst_value_coin (l : list COutput) :
  sumZ (map fst (map value_coin l)) = sumZ (map output_value l).
Proof. rewrite map_map. reflexivity. Qed.

Lemma map_snd_value_coin (l : list COutput) :
  map snd (map value_coin l) = map output_coin l.
Proof. rewrite map_map. reflexivity. Qed.

Lemma set_total_consistent (vValue : list ValueCoin) :
  Forall consistent vValue -> set_total (map snd vValue) = sumZ (map fst vValue).
Proof.
  unfold set_total. induction 1 as [|p l Hp _ IH]; simpl; [reflexivity|].
  rewrite IH, Hp. reflexivity.
Qed.

Lemma set_total_output_coin (o : COutput) : set_total [output_coin o] = output_value o.
Proof. unfold set_total, output_value, coin_value, output_coin. simpl. lia. Qed.

Section Sufficiency.
Context `{P : Params} `{C : Chain} `{R : Random}.

Lemma eligible_total_Permutation (nSpendTime nConfMine nConfTheirs : Z) (l l' : list COutput) :
  Permutation l l' ->
  eligible_total nSpendTime nConfMine nConfTheirs l
  = eligible_total nSpendTime nConfMine nConfTheirs l'.
Proof.
  intros Hp. unfold eligible_total.
  apply sumZ_Permutation, Permutation_map, filter_Permutation_bool, Hp.
Qed.

Lemma eligible_total_cons (nSpendTime nConfMine nConfTheirs : Z) (o : COutput)
    (l : list COutput) :
  eligible_total nSpendTime nConfMine nConfTheirs (o :: l)
  = (if eligible nSpendTime nConfMine nConfTheirs o then output_value o else 0)
    + eligible_total nSpendTime nConfMine nConfTheirs l.
Proof.
  unfold eligible_total. simpl.
  destruct (eligible nSpendTime nConfMine nConfTheirs o); reflexivity.
Qed.

Lemma lower_partition_Permutation (nTargetValue nSpendTime nConfMine nConfTheirs : Z)
    (l l' : list COutput) :
  Permutation l l' ->
  Permutation (lower_partition nTargetValue nSpendTime nConfMine nConfTheirs l)
              (lower_partition nTargetValue nSpendTime nConfMine nConfTheirs l').
Proof. apply filter_Permutation_bool. Qed.

Lemma smallest_loop_spec (nTargetValue nSpendTime nConfMine nConfTheirs : Z)
    (l : list COutput) (setCoinsRet : CoinSet) (nValueRet : Z) :
  let r := smallest_loop nTargetValue nSpendTime nConfMine nConfTheirs l setCoinsRet nValueRet in
  (fst (fst r) = true -> nTargetValue <= snd r)
  /\ (fst (fst r) = false ->
      snd r = nValueRet + eligible_total nSpendTime nConfMine nConfTheirs l
      /\ ((exists o, In o l /\ eligible nSpendTime nConfMine nConfTheirs o = true)
          \/ nValueRet < nTargetValue -> snd r < nTargetValue))
  /\ (List.NoDup (map coin_key (setCoinsRet ++ map output_coin l)) ->
      set_total (snd (fst r)) - set_total setCoinsRet = snd r - nValueRet).
Proof.
  revert setCoinsRet nValueRet.
  induction l as [|o l IH]; intros setCoinsRet nValueRet; cbn zeta.
  - simpl. split; [discriminate|]. split.
    + intros _. unfold eligible_total. simpl. split; [lia|].
      intros [[o [[] _]]|Hlt]. exact Hlt.
    + intros _. lia.
  - cbn [smallest_loop]. rewrite eligible_total_cons.
    assert (He : eligible nSpendTime nConfMine nConfTheirs o
                 = negb (depth_too_low nConfMine nConfTheirs o)
                   && negb (too_recent nSpendTime o)) by reflexivity.
    rewrite He.
    destruct (depth_too_low nConfMine nConfTheirs o) eqn:Hd; simpl negb; simpl andb; cbv iota.
    { destruct (IH setCoinsRet nValueRet) as (Ht & Hf & Hs). cbn zeta in *.
      split; [exact Ht|]. split.
      - intros Hfalse. destruct (Hf Hfalse) as [Hsum Hlt]. split; [lia|].
        intros [[o' [[<-|Hin] He']]|Hv].
        + rewrite He' in He. discriminate.
        + apply Hlt. left. exists o'. split; assumption.
        + apply Hlt. right. exact Hv.
      - intros Hnd. apply Hs.
        simpl in Hnd. rewrite map_app in *. simpl in Hnd.
        apply NoDup_remove_1 in Hnd. exact Hnd. }
    destruct (too_recent nSpendTime o) eqn:Htr; simpl negb; cbv iota.
    { destruct (IH setCoinsRet nValueRet) as (Ht & Hf & Hs). cbn zeta in *.
      split; [exact Ht|]. split.
      - intros Hfalse. destruct (Hf Hfalse) as [Hsum Hlt]. split; [lia|].
        intros [[o' [[<-|Hin] He']]|Hv].
        + rewrite He' in He. discriminate.
        + apply Hlt. left. exists o'. split; assumption.
        + apply Hlt. right. exact Hv.
      - intros Hnd. apply Hs.
        simpl in Hnd. rewrite map_app in *. simpl in Hnd.
        apply NoDup_remove_1 in Hnd. exact Hnd. }
    fold (output_value o).
    assert (Hins : List.NoDup (map coin_key (setCoinsRet ++ map output_coin (o :: l))) ->
                   set_insert (out_tx o, out_i o) setCoinsRet = setCoinsRet ++ [output_coin o]).
    { intros Hnd. apply set_insert_fresh.
      simpl in Hnd. rewrite map_app in Hnd. simpl in Hnd.
      apply NoDup_remove_2 in Hnd. intros Hin. apply Hnd, in_or_app. left. exact Hin. }
    destruct (nTargetValue <=? nValueRet + output_value o) eqn:Hreach.
    + apply Z.leb_le in Hreach. cbn [fst snd].
      split; [intros _; exact Hreach|]. split; [discriminate|].
      intros Hnd. rewrite (Hins Hnd), set_total_app, set_total_output_coin. lia.
    + apply Z.leb_gt in Hreach.
      destruct (IH (set_insert (out_tx o, out_i o) setCoinsRet) (nValueRet + output_value o))
        as (Ht & Hf & Hs). cbn zeta in *.
      split; [exact Ht|]. split.
      * intros Hfalse. destruct (Hf Hfalse) as [Hsum Hlt].
        split; [lia|].
        intros _. apply Hlt. right. exact Hreach.
      * intros Hnd. specialize (Hins Hnd). rewrite Hins in *.
        assert (Hnd' : List.NoDup (map coin_key ((setCoinsRet ++ [output_coin o])
                                                  ++ map output_coin l)))
          by (rewrite <- app_assoc; exact Hnd).
        specialize (Hs Hnd'). rewrite set_total_app, set_total_output_coin in Hs. lia.
Qed.

End Sufficiency.

Lemma set_insert_nil (c : Coin) : set_insert c [] = [c].
Proof. reflexivity. Qed.

Lemma set_total_single (c : Coin) : set_total [c] = coin_value c.
Proof. unfold set_total. simpl. lia. Qed.

(** The total of the coins that [take_all] and [take_best] return. *)
Lemma take_all_total (vValue : list ValueCoin) :
  Forall consistent vValue ->
  snd (take_all vValue ([], 0)) = sumZ (map fst vValue)
  /\ (List.NoDup (map coin_key (map snd vValue)) ->
      set_total (fst (take_all vValue ([], 0))) = sumZ (map fst vValue)).
Proof.
  intros Hcons. rewrite take_all_spec. cbn [fst snd]. split; [lia|].
  intros Hnd. rewrite insert_all_fresh by exact Hnd.
  rewrite app_nil_l. apply set_total_consistent, Hcons.
Qed.

Lemma take_best_total (vValue : list ValueCoin) (vfBest : list bool) :
  length vfBest = length vValue ->
  Forall consistent vValue ->
  snd (take_best vValue vfBest ([], 0)) = masked_total vValue vfBest
  /\ (List.NoDup (map coin_key (map snd vValue)) ->
      set_total (fst (take_best vValue vfBest ([], 0))) = masked_total vValue vfBest).
Proof.
  intros Hlen Hcons. rewrite take_best_spec by exact Hlen. cbn [fst snd]. split; [lia|].
  intros Hnd. rewrite insert_all_fresh by (apply masked_coins_NoDup, Hnd).
  rewrite app_nil_l. apply masked_coins_total, Hcons.
Qed.

Section MinConf.
Context `{P : Params} `{C : Chain} `{R : Random}.
Variable e : Entropy.
Variables nTargetValue nSpendTime nConfMine nConfTheirs : Z.
Variable vCoins : list COutput.
Hypothesis Shuffle_perm : Shuffle_permutes.

Let L := Shuffle vCoins (e 0%nat).

Lemma shuffled_Permutation : Permutation vCoins L.
Proof. apply Shuffle_perm. Qed.

(** What the first loop leaves when it runs to the end of the shuffled
    candidates. *)
Lemma scanned (p : Partition) :
  scan_coins nTargetValue nSpendTime nConfMine nConfTheirs L Partition_init = inr p ->
  (forall o, In o vCoins -> eligible nSpendTime nConfMine nConfTheirs o = true ->
             output_value o <> nTargetValue)
  /\ vValue p = map value_coin (lower_partition nTargetValue nSpendTime nConfMine nConfTheirs L)
  /\ nTotalLower p = sumZ (map fst (vValue p))
  /\ nTotalLower p
     = sumZ (map output_value
               (lower_partition nTargetValue nSpendTime nConfMine nConfTheirs vCoins))
  /\ Forall consistent (vValue p)
  /\ (List.NoDup (map coin_key (map output_coin vCoins)) ->
      List.NoDup (map coin_key (map snd (vValue p))))
  /\ eligible_total nSpendTime nConfMine nConfTheirs vCoins
     = nTotalLower p
       + sumZ (map output_value
                 (larger_partition nTargetValue nSpendTime nConfMine nConfTheirs L))
  /\ larger_inv nTargetValue (coinLowestLarger p)
  /\ (forall o, In o (larger_partition nTargetValue nSpendTime nConfMine nConfTheirs L) ->
                fst (coinLowestLarger p) <= output_value o).
Proof.
  intros Hscan.
  pose proof shuffled_Permutation as HL.
  destruct (scan_coins_inr _ _ _ _ _ _ _ Hscan) as (Hne & Hv & Hs).
  simpl in Hv, Hs.
  assert (Hinit : larger_inv nTargetValue (coinLowestLarger Partition_init)).
  { split; simpl; [lia|reflexivity]. }
  destruct (scan_coins_larger _ _ _ _ _ _ _ Hscan Hinit) as (Hinv & _ & Hmin & _).
  split.
  { intros o Hin. apply Hne. eapply Permutation_in; [exact HL|exact Hin]. }
  split; [exact Hv|].
  split; [rewrite Hv, sumZ_map_fst_value_coin; lia|].
  split.
  { rewrite Hs. simpl.
    apply sumZ_Permutation, Permutation_map. symmetry.
    apply lower_partition_Permutation, HL. }
  split; [rewrite Hv; apply Forall_consistent_value_coin|].
  split.
  { intros Hnd. rewrite Hv, map_snd_value_coin, map_map.
    unfold lower_partition. apply NoDup_map_filter. rewrite <- map_map.
    eapply Permutation_NoDup; [|exact Hnd].
    apply Permutation_map, Permutation_map, HL. }
  split.
  { rewrite (eligible_total_Permutation _ _ _ _ _ HL).
    rewrite (eligible_total_split nTargetValue), Hs. lia. }
  split; [exact Hinv|exact Hmin].
Qed.

(** What the approximation leaves. *)
Lemma approximated (p : Partition) :
  0 <= CENT ->
  scan_coins nTargetValue nSpendTime nConfMine nConfTheirs L Partition_init = inr p ->
  nTargetValue <= nTotalLower p ->
  let sorted := std_sort_reverse CompareValueOnly (vValue p) in
  let '(vfBest, nBest) := approximate e sorted (nTotalLower p) nTargetValue in
  nBest = masked_total sorted vfBest
  /\ nTargetValue <= nBest
  /\ snd (take_best sorted vfBest ([], 0)) = nBest
  /\ (List.NoDup (map coin_key (map output_coin vCoins)) ->
      set_total (fst (take_best sorted vfBest ([], 0))) = nBest).
Proof.
  intros Hcent Hscan Hge sorted.
  destruct (scanned p Hscan) as (_ & _ & Hsum & _ & Hcons & Hnd & _).
  assert (Hperm : Permutation (vValue p) sorted) by apply std_sort_reverse_Permutation.
  assert (Hsum' : nTotalLower p = sumZ (map fst sorted)).
  { rewrite Hsum. apply sumZ_Permutation, Permutation_map, Hperm. }
  pose proof (approximate_spec e sorted (nTotalLower p) nTargetValue Hcent Hsum' Hge) as Happ.
  destruct (approximate e sorted (nTotalLower p) nTargetValue) as [vfBest nBest].
  destruct Happ as (Hlen & Hbest & Hle & _).
  assert (Hcons' : Forall consistent sorted).
  { eapply Permutation_Forall_coin; [exact Hperm|exact Hcons]. }
  destruct (take_best_total sorted vfBest Hlen Hcons') as [Hv Hset].
  split; [exact Hbest|]. split; [exact Hle|]. split; [lia|].
  intros Hnd0. rewrite Hset; [lia|].
  eapply Permutation_NoDup; [|apply Hnd, Hnd0].
  apply Permutation_map, Permutation_map, Hperm.
Qed.

Lemma SelectCoinsMinConf_sufficient :
  0 <= CENT ->
  Forall (fun o => output_value o < INT64_MAX) vCoins ->
  nTargetValue <= eligible_total nSpendTime nConfMine nConfTheirs vCoins ->
  let r := SelectCoinsMinConf e nTargetValue nSpendTime nConfMine nConfTheirs vCoins in
  fst (fst r) = true
  /\ nTargetValue <= snd r
  /\ (List.NoDup (map coin_key (map output_coin vCoins)) -> set_total (snd (fst r)) = snd r).
Proof.
  intros Hcent Hmax Htot r. subst r. unfold SelectCoinsMinConf. fold L.
  destruct (scan_coins nTargetValue nSpendTime nConfMine nConfTheirs L Partition_init)
    as [coin|p] eqn:Hscan.
  - apply scan_coins_inl in Hscan. destruct Hscan as [o (_ & _ & Hv & ->)].
    cbn [fst snd value_coin]. rewrite set_insert_nil, set_total_output_coin.
    split; [reflexivity|]. split; [lia|]. intros _. lia.
  - destruct (scanned p Hscan) as (_ & _ & Hsum & _ & Hcons & Hnd & Hsplit & Hinv & Hmin).
    assert (Hlarger : forall c, snd (coinLowestLarger p) = Some c ->
              nTargetValue <= fst (coinLowestLarger p)
              /\ set_total (set_insert c []) = 0 + fst (coinLowestLarger p)).
    { intros c Hc. destruct Hinv as [_ Hinv]. rewrite Hc in Hinv.
      destruct Hinv as [Hval Hge]. rewrite set_insert_nil, set_total_single. lia. }
    destruct (nTotalLower p =? nTargetValue) eqn:H1.
    { apply Z.eqb_eq in H1.
      destruct (take_all_total (vValue p) Hcons) as [Hv Hset].
      destruct (take_all (vValue p) ([], 0)) as [setCoinsRet nValueRet].
      cbn [fst snd] in *. split; [reflexivity|]. split; [lia|].
      intros Hnd0. rewrite Hset by (apply Hnd, Hnd0). lia. }
    apply Z.eqb_neq in H1.
    destruct (nTotalLower p <? nTargetValue) eqn:H2.
    { apply Z.ltb_lt in H2.
      destruct (snd (coinLowestLarger p)) as [c|] eqn:Hc.
      - destruct (Hlarger c eq_refl) as [Hge Hset]. cbn [fst snd].
        split; [reflexivity|]. split; [lia|]. intros _. exact Hset.
      - exfalso. destruct Hinv as [_ Hinv]. rewrite Hc in Hinv.
        destruct (larger_partition nTargetValue nSpendTime nConfMine nConfTheirs L)
          as [|o rest] eqn:Hl.
        + simpl in Hsplit. lia.
        + assert (Hin : In o (larger_partition nTargetValue nSpendTime nConfMine nConfTheirs L))
            by (rewrite Hl; left; reflexivity).
          specialize (Hmin o ltac:(left; reflexivity)).
          apply filter_In in Hin. destruct Hin as [Hin _].
          assert (HmaxL : Forall (fun o => output_value o < INT64_MAX) L).
          { eapply Permutation_Forall_coin; [apply shuffled_Permutation|exact Hmax]. }
          rewrite Forall_forall in HmaxL. specialize (HmaxL o Hin). lia. }
    apply Z.ltb_ge in H2.
    pose proof (approximated p Hcent Hscan H2) as Happ. cbv zeta in Happ.
    destruct (approximate e (std_sort_reverse CompareValueOnly (vValue p))
                (nTotalLower p) nTargetValue) as [vfBest nBest].
    destruct Happ as (_ & Hle & Hv & Hset).
    destruct (take_best (std_sort_reverse CompareValueOnly (vValue p)) vfBest ([], 0))
      as [setCoinsRet nValueRet].
    cbn [fst snd] in Hv, Hset.
    destruct (snd (coinLowestLarger p)) as [c|] eqn:Hc.
    + destruct (prefer_larger nTargetValue nBest (fst (coinLowestLarger p))).
      * destruct (Hlarger c eq_refl) as [Hge Hset']. cbn [fst snd].
        split; [reflexivity|]. split; [lia|]. intros _. exact Hset'.
      * cbn [fst snd]. split; [reflexivity|]. split; [lia|].
        intros Hnd0. rewrite Hset by exact Hnd0. lia.
    + cbn [fst snd]. split; [reflexivity|]. split; [lia|].
      intros Hnd0. rewrite Hset by exact Hnd0. lia.
Qed.


End MinConf.

Section Selection.
Context `{P : Params} `{C : Chain} `{R : Random}.

Lemma SelectSmallestCoins_sufficient (nTargetValue nSpendTime nConfMine nConfTheirs : Z)
    (vCoins : list COutput) :
  nTargetValue <= eligible_total nSpendTime nConfMine nConfTheirs vCoins ->
  (exists o, In o vCoins /\ eligible nSpendTime nConfMine nConfTheirs o = true) ->
  let r := SelectSmallestCoins nTargetValue nSpendTime nConfMine nConfTheirs vCoins in
  fst (fst r) = true
  /\ nTargetValue <= snd r
  /\ (List.NoDup (map coin_key (map output_coin vCoins)) -> set_total (snd (fst r)) = snd r).
Proof.
  intros Htot [o [Hin He]] r. subst r. unfold SelectSmallestCoins.
  assert (Hperm : Permutation vCoins (std_sort smallestcoincomp vCoins))
    by apply std_sort_Permutation.
  pose proof (smallest_loop_spec nTargetValue nSpendTime nConfMine nConfTheirs
                (std_sort smallestcoincomp vCoins) [] 0) as Hspec.
  cbv zeta in Hspec.
  destruct (smallest_loop nTargetValue nSpendTime nConfMine nConfTheirs
              (std_sort smallestcoincomp vCoins) [] 0) as [[ok setCoinsRet] nValueRet].
  cbn [fst snd] in *. destruct Hspec as (Ht & Hf & Hs).
  rewrite <- (eligible_total_Permutation _ _ _ _ _ Hperm) in Hf.
  destruct ok.
  - split; [reflexivity|]. split; [apply Ht; reflexivity|].
    intros Hnd. unfold set_total at 2 in Hs. simpl in Hs.
    rewrite <- (Z.sub_0_r nValueRet), <- Hs; [lia|].
    eapply Permutation_NoDup; [|exact Hnd].
    apply Permutation_map, Permutation_map, Hperm.
  - exfalso. destruct (Hf eq_refl) as [Hsum Hlt].
    assert (nValueRet < nTargetValue); [|lia].
    apply Hlt. left. exists o. split; [|exact He].
    eapply Permutation_in; [exact Hperm|exact Hin].
Qed.

(** Amounts of [int64_t] that add up to one are each below the largest. *)
Lemma amounts_in_int64_below_max (nTargetValue : Z) (vCoins : list COutput) :
  0 <= CENT ->
  amounts_in_int64 nTargetValue vCoins ->
  Forall (fun o => output_value o < INT64_MAX) vCoins.
Proof.
  intros Hcent (_ & Hpos & Hsum). revert Hsum.
  induction Hpos as [|o l Ho Hl IH]; cbn [map sumZ]; intros Hsum; [constructor|].
  assert (Hrest : 0 <= sumZ (map output_value l)).
  { clear - Hl. induction Hl as [|o' l' Ho' Hl' IH']; cbn [map sumZ]; lia. }
  constructor; [lia|]. apply IH. lia.
Qed.

(** C1. For amounts of [int64_t], both policies succeed, with a value
    returned that reaches the target, whenever the target does not exceed
    the sum of the eligible candidates: [SelectCoinsMinConf] always,
    [SelectSmallestCoins] when at least one candidate is eligible. The
    coins returned add up to the value returned when the candidates are
    distinct outputs. *)
Theorem selection_sufficiency (e : Entropy)
    (nTargetValue nSpendTime nConfMine nConfTheirs : Z) (vCoins : list COutput) :
  Shuffle_permutes ->
  0 <= CENT ->
  amounts_in_int64 nTargetValue vCoins ->
  nTargetValue <= eligible_total nSpendTime nConfMine nConfTheirs vCoins ->
  (let '(ok, setCoinsRet, nValueRet) :=
     SelectCoinsMinConf e nTargetValue nSpendTime nConfMine nConfTheirs vCoins in
   ok = true /\ nTargetValue <= nValueRet
   /\ (List.NoDup (map coin_key (map output_coin vCoins)) ->
       set_total setCoinsRet = nValueRet))
  /\ ((exists o, In o vCoins /\ eligible nSpendTime nConfMine nConfTheirs o = true) ->
      let '(ok, setCoinsRet, nValueRet) :=
        SelectSmallestCoins nTargetValue nSpendTime nConfMine nConfTheirs vCoins in
      ok = true /\ nTargetValue <= nValueRet
      /\ (List.NoDup (map coin_key (map output_coin vCoins)) ->
          set_total setCoinsRet = nValueRet)).
Proof.
  intros Hshuffle Hcent Hfit Htot.
  pose proof (amounts_in_int64_below_max nTargetValue vCoins Hcent Hfit) as Hmax. split.
  - pose proof (SelectCoinsMinConf_sufficient e nTargetValue nSpendTime nConfMine nConfTheirs
                  vCoins Hshuffle Hcent Hmax Htot) as H.
    cbv zeta in H.
    destruct (SelectCoinsMinConf e nTargetValue nSpendTime nConfMine nConfTheirs vCoins)
      as [[ok setCoinsRet] nValueRet].
    exact H.
  - intros Hsome.
    pose proof (SelectSmallestCoins_sufficient nTargetValue nSpendTime nConfMine nConfTheirs
                  vCoins Htot Hsome) as H.
    cbv zeta in H.
    destruct (SelectSmallestCoins nTargetValue nSpendTime nConfMine nConfTheirs vCoins)
      as [[ok setCoinsRet] nValueRet].
    exact H.
Qed.


Lemma prefer_larger_iff (nTargetValue nBest nLarger : Z) :
  prefer_larger nTargetValue nBest nLarger = true
  <-> (nBest <> nTargetValue /\ nBest < nTargetValue + CENT) \/ nLarger <= nBest.
Proof.
  unfold prefer_larger.
  rewrite orb_true_iff, andb_true_iff, negb_true_iff, Z.eqb_neq, Z.ltb_lt, Z.leb_le.
  reflexivity.
Qed.

(** C3. When [SelectCoinsMinConf] comes to choose between the lowest larger
    candidate and the subset of the approximation, it returns the larger
    candidate exactly when the approximation is not exact and its total is
    below [nTargetValue + CENT], or the larger candidate is worth no more
    than that total; otherwise it returns the subset. The larger candidate
    is the least eligible candidate of at least [nTargetValue + CENT]. *)
Theorem larger_or_approximation (e : Entropy)
    (nTargetValue nSpendTime nConfMine nConfTheirs : Z) (vCoins : list COutput)
    (p : Partition) (sorted : list ValueCoin) (vfBest : list bool) (nBest : Z) (c : Coin) :
  Shuffle_permutes ->
  0 <= CENT ->
  approximation_phase e nTargetValue nSpendTime nConfMine nConfTheirs vCoins
  = Some (p, sorted, vfBest, nBest) ->
  snd (coinLowestLarger p) = Some c ->
  let nLarger := fst (coinLowestLarger p) in
  let preferred :=
    (nBest <> nTargetValue /\ nBest < nTargetValue + CENT) \/ nLarger <= nBest in
  (nLarger = coin_value c
   /\ nTargetValue + CENT <= nLarger
   /\ forall o, In o vCoins -> eligible nSpendTime nConfMine nConfTheirs o = true ->
                nTargetValue + CENT <= output_value o -> nLarger <= output_value o)
  /\ (nTargetValue <= nBest /\ nBest = masked_total sorted vfBest)
  /\ (SelectCoinsMinConf e nTargetValue nSpendTime nConfMine nConfTheirs vCoins
      = (true, [c], nLarger) <-> preferred)
  /\ (~ preferred ->
      SelectCoinsMinConf e nTargetValue nSpendTime nConfMine nConfTheirs vCoins
      = (true, fst (take_best sorted vfBest ([], 0)), nBest)).
Proof.
  intros Hshuffle Hcent Hphase Hc nLarger preferred. subst preferred nLarger.
  unfold approximation_phase in Hphase. unfold SelectCoinsMinConf.
  destruct (scan_coins nTargetValue nSpendTime nConfMine nConfTheirs
              (Shuffle vCoins (e 0%nat)) Partition_init) as [coin|p'] eqn:Hscan;
    [discriminate|].
  destruct (nTotalLower p' =? nTargetValue) eqn:H1; [discriminate|].
  destruct (nTotalLower p' <? nTargetValue) eqn:H2; [discriminate|].
  apply Z.ltb_ge in H2.
  pose proof (approximated e nTargetValue nSpendTime nConfMine nConfTheirs vCoins
                Hshuffle p' Hcent Hscan H2) as Happ.
  cbv zeta in Happ.
  destruct (approximate e (std_sort_reverse CompareValueOnly (vValue p'))
              (nTotalLower p') nTargetValue) as [vfBest' nBest'].
  injection Hphase as -> <- -> ->.
  destruct Happ as (Hbest & Hle & Hv & _).
  destruct (scanned e nTargetValue nSpendTime nConfMine nConfTheirs vCoins Hshuffle p Hscan)
    as (_ & _ & _ & _ & _ & _ & _ & Hinv & Hmin).
  destruct Hinv as [_ Hinv]. rewrite Hc in Hinv. destruct Hinv as [Hval Hge].
  rewrite Hc.
  assert (Hsubset :
    (let '(setCoinsRet, nValueRet) :=
       take_best (std_sort_reverse CompareValueOnly (vValue p)) vfBest ([], 0) in
     (true, setCoinsRet, nValueRet))
    = (true, fst (take_best (std_sort_reverse CompareValueOnly (vValue p)) vfBest ([], 0)),
       nBest)).
  { destruct (take_best (std_sort_reverse CompareValueOnly (vValue p)) vfBest ([], 0))
      as [setCoinsRet nValueRet]. cbn [fst snd] in *. rewrite Hv. reflexivity. }
  split; [|split; [|split]].
  - split; [exact Hval|]. split; [exact Hge|].
    intros o Hin He Hbig. apply Hmin.
    apply filter_In. split.
    + eapply Permutation_in; [apply Hshuffle|exact Hin].
    + rewrite He. simpl. apply negb_true_iff, Z.ltb_ge. exact Hbig.
  - split; [exact Hle|exact Hbest].
  - destruct (prefer_larger nTargetValue nBest (fst (coinLowestLarger p))) eqn:Hpref.
    + split; [intros _; apply prefer_larger_iff, Hpref|intros _; reflexivity].
    + rewrite Hsubset. split.
      * intros Heq. injection Heq as _ Hn. right. lia.
      * intros Hp. apply prefer_larger_iff in Hp. congruence.
  - intros Hnot.
    destruct (prefer_larger nTargetValue nBest (fst (coinLowestLarger p))) eqn:Hpref.
    + exfalso. apply Hnot, prefer_larger_iff, Hpref.
    + exact Hsubset.
Qed.

(** Whenever [SelectCoinsMinConf] returns true, the value it returns
    reaches the target. *)
Lemma SelectCoinsMinConf_sound (e : Entropy)
    (nTargetValue nSpendTime nConfMine nConfTheirs : Z) (vCoins : list COutput) :
  Shuffle_permutes ->
  0 <= CENT ->
  let r := SelectCoinsMinConf e nTargetValue nSpendTime nConfMine nConfTheirs vCoins in
  fst (fst r) = true -> nTargetValue <= snd r.
Proof.
  intros Hshuffle Hcent r. subst r. unfold SelectCoinsMinConf.
  destruct (scan_coins nTargetValue nSpendTime nConfMine nConfTheirs
              (Shuffle vCoins (e 0%nat)) Partition_init) as [coin|p] eqn:Hscan.
  - apply scan_coins_inl in Hscan. destruct Hscan as [o (_ & _ & Hv & ->)].
    cbn [fst snd value_coin]. lia.
  - destruct (scanned e nTargetValue nSpendTime nConfMine nConfTheirs vCoins Hshuffle p Hscan)
      as (_ & _ & Hsum & _ & Hcons & _ & _ & Hinv & _).
    assert (Hlarger : forall c, snd (coinLowestLarger p) = Some c ->
              nTargetValue <= fst (coinLowestLarger p)).
    { intros c Hc. destruct Hinv as [_ Hinv]. rewrite Hc in Hinv. lia. }
    destruct (nTotalLower p =? nTargetValue) eqn:H1.
    { apply Z.eqb_eq in H1.
      destruct (take_all_total (vValue p) Hcons) as [Hv _].
      destruct (take_all (vValue p) ([], 0)) as [setCoinsRet nValueRet].
      cbn [fst snd] in *. lia. }
    destruct (nTotalLower p <? nTargetValue) eqn:H2.
    { destruct (snd (coinLowestLarger p)) as [c|] eqn:Hc; cbn [fst snd]; [|discriminate].
      intros _. specialize (Hlarger c eq_refl). lia. }
    apply Z.ltb_ge in H2.
    pose proof (approximated e nTargetValue nSpendTime nConfMine nConfTheirs vCoins
                  Hshuffle p Hcent Hscan H2) as Happ.
    cbv zeta in Happ.
    destruct (approximate e (std_sort_reverse CompareValueOnly (vValue p))
                (nTotalLower p) nTargetValue) as [vfBest nBest].
    destruct Happ as (_ & Hle & Hv & _).
    destruct (take_best (std_sort_reverse CompareValueOnly (vValue p)) vfBest ([], 0))
      as [setCoinsRet nValueRet].
    cbn [fst snd] in Hv.
    destruct (snd (coinLowestLarger p)) as [c|] eqn:Hc.
    + destruct (prefer_larger nTargetValue nBest (fst (coinLowestLarger p))); cbn [fst snd].
      * intros _. specialize (Hlarger c eq_refl). lia.
      * intros _. lia.
    + cbn [fst snd]. intros _. lia.
Qed.

(** Whenever [SelectSmallestCoins] returns true, the value it returns
    reaches the target. *)
Lemma SelectSmallestCoins_sound (nTargetValue nSpendTime nConfMine nConfTheirs : Z)
    (vCoins : list COutput) :
  let r := SelectSmallestCoins nTargetValue nSpendTime nConfMine nConfTheirs vCoins in
  fst (fst r) = true -> nTargetValue <= snd r.
Proof.
  intros r. subst r. unfold SelectSmallestCoins.
  apply (smallest_loop_spec nTargetValue nSpendTime nConfMine nConfTheirs
           (std_sort smallestcoincomp vCoins) [] 0).
Qed.

(** X2. [SelectCoins] without coin control, for amounts of [int64_t]:
    with either policy, it succeeds and reaches the target whenever the
    target does not exceed the sum of the available coins that pass the
    loosest of its three filters, one confirmation for the coins of others
    and none for the wallet's own. *)
Lemma SelectCoins_sufficient (e : Entropy) (mapWallet : WalletMap)
    (nTargetValue nSpendTime : Z) (setCoinsRet : CoinSet) (nValueRet : Z) (contract : bool) :
  Shuffle_permutes ->
  0 <= CENT ->
  amounts_in_int64 nTargetValue (AvailableCoins mapWallet true None false) ->
  nTargetValue <= eligible_total nSpendTime 0 1 (AvailableCoins mapWallet true None false) ->
  (exists o, In o (AvailableCoins mapWallet true None false)
             /\ eligible nSpendTime 0 1 o = true) ->
  let r := SelectCoins e mapWallet nTargetValue nSpendTime setCoinsRet nValueRet None contract in
  fst (fst r) = true /\ nTargetValue <= snd r.
Proof.
  intros Hshuffle Hcent Hfit Htot Hsome r. subst r.
  pose proof (amounts_in_int64_below_max _ _ Hcent Hfit) as Hmax.
  unfold SelectCoins. cbn [coin_control_selected].
  set (vCoins := AvailableCoins mapWallet true None false) in *.
  destruct contract.
  - pose proof (SelectSmallestCoins_sound nTargetValue nSpendTime 1 10 vCoins) as H1.
    pose proof (SelectSmallestCoins_sound nTargetValue nSpendTime 1 1 vCoins) as H2.
    pose proof (SelectSmallestCoins_sufficient nTargetValue nSpendTime 0 1 vCoins Htot Hsome)
      as H3.
    cbv zeta in H1, H2, H3.
    destruct (fst (fst (SelectSmallestCoins nTargetValue nSpendTime 1 10 vCoins))) eqn:E1;
      [split; [exact E1|apply H1; reflexivity]|].
    destruct (fst (fst (SelectSmallestCoins nTargetValue nSpendTime 1 1 vCoins))) eqn:E2;
      [split; [exact E2|apply H2; reflexivity]|].
    destruct H3 as (Hok & Hge & _). split; assumption.
  - pose proof (SelectCoinsMinConf_sound e nTargetValue nSpendTime 1 10 vCoins Hshuffle Hcent)
      as H1.
    pose proof (SelectCoinsMinConf_sound (later 3 e) nTargetValue nSpendTime 1 1 vCoins
                  Hshuffle Hcent) as H2.
    pose proof (SelectCoinsMinConf_sufficient (later 6 e) nTargetValue nSpendTime 0 1 vCoins
                  Hshuffle Hcent Hmax Htot) as H3.
    cbv zeta in H1, H2, H3.
    destruct (fst (fst (SelectCoinsMinConf e nTargetValue nSpendTime 1 10 vCoins))) eqn:E1;
      [split; [exact E1|apply H1; reflexivity]|].
    destruct (fst (fst (SelectCoinsMinConf (later 3 e) nTargetValue nSpendTime 1 1 vCoins)))
      eqn:E2; [split; [exact E2|apply H2; reflexivity]|].
    destruct H3 as (Hok & Hge & _). split; assumption.
Qed.

End Selection.

(** ** Stake balance views *)

Section Balances.
Context `{C : Chain}.

Lemma GetStake_from (mapWallet : WalletMap) (nTotal : Z) :
  foldl (fun nTotal (it : uint256 * CWalletTx) =>
           let pcoin := snd it in
           if IsCoinStake pcoin && (0 <? GetBlocksToMaturity pcoin)
              && (0 <? GetDepthInMainChain pcoin)
           then nTotal + GetCredit pcoin
           else nTotal)
        nTotal mapWallet
  = nTotal + sumZ (map (fun it => GetCredit (snd it))
                       (List.filter (fun it => immature_stake (snd it)) mapWallet)).
Proof.
  revert nTotal.
  induction mapWallet as [|it w IH]; intros nTotal; simpl.
  - lia.
  - rewrite IH. unfold immature_stake.
    destruct (IsCoinStake (snd it) && (0 <? GetBlocksToMaturity (snd it))
              && (0 <? GetDepthInMainChain (snd it))); simpl; lia.
Qed.

(** C10. [GetStake] and [GetNewMint] return the same amount on every
    wallet: each is the sum of the credit of the coinstake transactions
    that are below maturity and in the main chain. *)
Theorem GetStake_GetNewMint (mapWallet : WalletMap) :
  GetStake mapWallet = GetNewMint mapWallet
  /\ GetStake mapWallet
     = sumZ (map (fun it => GetCredit (snd it))
                 (List.filter (fun it => immature_stake (snd it)) mapWallet)).
Proof.
  split.
  - unfold GetStake, GetNewMint. rewrite !GetStake_from. reflexivity.
  - unfold GetStake. rewrite GetStake_from. lia.
Qed.

End Balances.

(** ** Staking selection *)

Lemma foldl_push_back {A B : Type} (p : A -> bool) (g : A -> B) (l : list A) (acc : list B) :
  foldl (fun acc x => if p x then acc ++ [g x] else acc) acc l
  = acc ++ map g (List.filter p l).
Proof.
  revert acc. induction l as [|x l IH]; intros acc; simpl.
  - rewrite app_nil_r. reflexivity.
  - rewrite IH. destruct (p x); simpl; [rewrite <- app_assoc|]; reflexivity.
Qed.

Lemma foldl_invariant {A B : Type} (I : A -> Prop) (f : A -> B -> A) (l : list B) (a : A) :
  I a -> (forall a x, I a -> In x l -> I (f a x)) -> I (foldl f a l).
Proof.
  revert a. induction l as [|x l IH]; intros a Ha Hstep; simpl; [exact Ha|].
  apply IH.
  - apply Hstep; [exact Ha|left; reflexivity].
  - intros a' y Ha' Hy. apply Hstep; [exact Ha'|right; exact Hy].
Qed.

Section Staking.
Context `{P : Params} `{C : Chain} `{R : Random}.

Lemma staking_balance_loop_coins (pcoin : CWalletTx) (balance_out : Z) :
  Forall (fun c : Coin => fst c = pcoin) (snd (staking_balance_loop pcoin balance_out)).
Proof.
  unfold staking_balance_loop.
  apply (foldl_invariant (fun acc : Z * list Coin => Forall (fun c : Coin => fst c = pcoin) (snd acc))).
  - constructor.
  - intros [b poss] i Hacc _. simpl in *.
    destruct (negb (IsSpent pcoin i) && IsMine_at pcoin i && (0 <? vout_value pcoin i));
      simpl; [|exact Hacc].
    apply Forall_app; split; [exact Hacc|]. constructor; [reflexivity|constructor].
Qed.

(** The outputs that a visit adds come from the visited transaction and
    passed its tests. *)
Lemma AvailableCoinsForStaking_visit_inv (nSpendTime : Z) (acc : list COutput * Z)
    (it : uint256 * CWalletTx) (Q : COutput -> Prop) :
  (forall i, stakeable nSpendTime (mkOutput (snd it) i (GetDepthInMainChain (snd it))) ->
             Q (mkOutput (snd it) i (GetDepthInMainChain (snd it)))) ->
  Forall Q (fst acc) ->
  Forall Q (fst (AvailableCoinsForStaking_visit nSpendTime acc it)).
Proof.
  destruct acc as [vCoins balance_out]. simpl. intros HQ Hacc.
  unfold AvailableCoinsForStaking_visit.
  set (pcoin := snd it) in *.
  assert (Hposs : forall b, Forall (fun c : Coin => fst c = pcoin)
                              (snd (staking_balance_loop pcoin b)))
    by (intros b; apply staking_balance_loop_coins).
  destruct ((0 <? GetDepthInMainChain pcoin)
            || (fFromMe pcoin && (AreDependenciesConfirmed pcoin || IsCoinStake pcoin))).
  2: { simpl. exact Hacc. }
  specialize (Hposs balance_out).
  destruct (staking_balance_loop pcoin balance_out) as [b poss]. simpl in Hposs.
  destruct poss as [|c0 poss0]; [exact Hacc|].
  set (poss := c0 :: poss0) in *.
  destruct (nSpendTime <? (nTime pcoin + nStakeMinAge) mod UINT32_MOD) eqn:Htime;
    [exact Hacc|].
  apply Z.ltb_ge in Htime.
  destruct (if IsCoinBase pcoin || IsCoinStake pcoin
            then 0 <? Z.max 0 (nCoinbaseMaturity + 10 - GetDepthInMainChain pcoin)
            else GetDepthInMainChain pcoin <? 1) eqn:Himm; [exact Hacc|].
  cbn [fst].
  rewrite (foldl_push_back
             (fun iter : Coin => nMinimumInputValue <=? vout_value (fst iter) (snd iter))
             (fun iter : Coin => mkOutput (fst iter) (snd iter) (GetDepthInMainChain pcoin))).
  apply Forall_app; split; [exact Hacc|].
  apply Forall_forall. intros o Ho.
  apply in_map_iff in Ho. destruct Ho as [c [<- Hc]].
  apply filter_In in Hc. destruct Hc as [Hc _].
  rewrite Forall_forall in Hposs.
  assert (Hfst : fst c = pcoin) by (apply Hposs, Hc).
  rewrite Hfst. apply HQ.
  unfold stakeable. simpl. split; [exact Htime|].
  destruct (IsCoinBase pcoin || IsCoinStake pcoin); apply Z.ltb_ge in Himm; lia.
Qed.

Lemma AvailableCoinsForStaking_inv (mapWallet : WalletMap) (nSpendTime balance_out : Z)
    (Q : COutput -> Prop) :
  (forall it i, In it mapWallet ->
     stakeable nSpendTime (mkOutput (snd it) i (GetDepthInMainChain (snd it))) ->
     Q (mkOutput (snd it) i (GetDepthInMainChain (snd it)))) ->
  Forall Q (fst (AvailableCoinsForStaking mapWallet nSpendTime balance_out)).
Proof.
  intros HQ. unfold AvailableCoinsForStaking.
  apply (foldl_invariant (fun acc : list COutput * Z => Forall Q (fst acc))).
  - constructor.
  - intros acc it Hacc Hit.
    apply AvailableCoinsForStaking_visit_inv; [|exact Hacc].
    intros i. apply HQ, Hit.
Qed.

(** C6. When the time stamps of the wallet are 32-bit values whose sum
    with the minimum stake age does not wrap, every output that staking
    selection returns belongs to a transaction past maturity (a coinbase or
    coinstake at least [nCoinbaseMaturity + 10] blocks deep, any other at
    least one block deep), whose time is not later than the spend time, and
    is worth no more than the eligible balance less the reserve. Where the
    sum wraps, the test [nTime + nStakeMinAge > nSpendTime] lets a later
    transaction pass. *)
Theorem SelectCoinsForStaking_outputs (e : Entropy) (mapWallet : WalletMap)
    (nSpendTime : Z) (vCoinsRet : list Coin) (err : ErrorFlags) (balance_in : Z)
    (fMiner : bool) :
  Shuffle_permutes ->
  0 <= nStakeMinAge ->
  Forall (fun it : uint256 * CWalletTx =>
            0 <= nTime (snd it) /\ nTime (snd it) + nStakeMinAge < UINT32_MOD) mapWallet ->
  let r := SelectCoinsForStaking e mapWallet nSpendTime vCoinsRet err balance_in fMiner in
  sr_ok r = true ->
  Forall (fun c : Coin =>
            (if IsCoinBase (fst c) || IsCoinStake (fst c)
             then nCoinbaseMaturity + 10 <= GetDepthInMainChain (fst c)
             else 1 <= GetDepthInMainChain (fst c))
            /\ nTime (fst c) <= nSpendTime
            /\ coin_value c <= sr_balance_out r - nReserveBalance)
         (sr_vCoinsRet r).
Proof.
  intros Hshuffle Hage Htimes r Hok.
  set (Q := fun o : COutput =>
              (if IsCoinBase (out_tx o) || IsCoinStake (out_tx o)
               then nCoinbaseMaturity + 10 <= GetDepthInMainChain (out_tx o)
               else 1 <= GetDepthInMainChain (out_tx o))
              /\ nTime (out_tx o) <= nSpendTime).
  assert (HQ : Forall Q (fst (AvailableCoinsForStaking mapWallet nSpendTime balance_in))).
  { apply AvailableCoinsForStaking_inv. intros it i Hit [Htime Hdepth].
    rewrite Forall_forall in Htimes. destruct (Htimes it Hit) as [H0 Hlt].
    simpl in Htime, Hdepth. unfold Q. simpl. split; [exact Hdepth|].
    rewrite Z.mod_small in Htime by lia. lia. }
  subst r. revert Hok. unfold SelectCoinsForStaking.
  destruct (AvailableCoinsForStaking mapWallet nSpendTime balance_in) as [vCoins balance_out].
  simpl in HQ.
  destruct (balance_out <=? 0); [discriminate|].
  destruct (balance_out - nReserveBalance <=? 0); [discriminate|].
  destruct vCoins as [|o0 vCoins0]; [discriminate|].
  set (vCoins := o0 :: vCoins0) in *.
  rewrite (foldl_push_back
             (fun output : COutput =>
                vout_value (out_tx output) (out_i output) <=? balance_out - nReserveBalance)
             (fun output : COutput => (out_tx output, out_i output))).
  rewrite app_nil_l.
  set (chosen := map _ (List.filter _ vCoins)).
  assert (Hchosen : Forall (fun c : Coin =>
            (if IsCoinBase (fst c) || IsCoinStake (fst c)
             then nCoinbaseMaturity + 10 <= GetDepthInMainChain (fst c)
             else 1 <= GetDepthInMainChain (fst c))
            /\ nTime (fst c) <= nSpendTime
            /\ coin_value c <= balance_out - nReserveBalance) chosen).
  { apply Forall_forall. intros c Hc. subst chosen.
    apply in_map_iff in Hc. destruct Hc as [o [<- Ho]].
    apply filter_In in Ho. destruct Ho as [Ho Hval].
    rewrite Forall_forall in HQ. destruct (HQ o Ho) as [Hdepth Htime].
    simpl. split; [exact Hdepth|]. split; [exact Htime|].
    apply Z.leb_le in Hval. exact Hval. }
  destruct chosen as [|c0 chosen0] eqn:Hch; [discriminate|].
  intros _. simpl.
  destruct fMiner; [|exact Hchosen].
  eapply Permutation_Forall_coin; [apply Hshuffle|exact Hchosen].
Qed.

(** C7. When the eligible balance is positive and the reserve is not below
    it, staking selection fails without touching the output vector and, if
    called for the miner, reports [ENTIRE_BALANCE_RESERVED]; otherwise the
    reason code stays as it was passed in. Every failure for the miner
    reports one of four codes, by the first test that fails: no balance, the
    entire balance reserved, no mature coins, no output within the balance
    left by the reserve. *)
Theorem SelectCoinsForStaking_failure (e : Entropy) (mapWallet : WalletMap)
    (nSpendTime : Z) (vCoinsRet : list Coin) (err : ErrorFlags) (balance_in : Z)
    (fMiner : bool) :
  let r := SelectCoinsForStaking e mapWallet nSpendTime vCoinsRet err balance_in fMiner in
  let vCoins := fst (AvailableCoinsForStaking mapWallet nSpendTime balance_in) in
  let balance := sr_balance_out r in
  (0 < balance -> balance <= nReserveBalance ->
   sr_ok r = false /\ sr_vCoinsRet r = vCoinsRet
   /\ sr_not_staking_error r = (if fMiner then ENTIRE_BALANCE_RESERVED else err))
  /\ (sr_ok r = false ->
      exists code : ErrorFlags,
        sr_not_staking_error r = (if fMiner then code else err)
        /\ ((code = NO_COINS /\ balance <= 0 /\ sr_vCoinsRet r = vCoinsRet)
            \/ (code = ENTIRE_BALANCE_RESERVED /\ 0 < balance <= nReserveBalance
                /\ sr_vCoinsRet r = vCoinsRet)
            \/ (code = NO_MATURE_COINS /\ 0 < balance /\ nReserveBalance < balance
                /\ vCoins = [] /\ sr_vCoinsRet r = vCoinsRet)
            \/ (code = NO_UTXOS_AVAILABLE_DUE_TO_RESERVE /\ 0 < balance
                /\ nReserveBalance < balance /\ vCoins <> []
                /\ Forall (fun o => balance - nReserveBalance < output_value o) vCoins
                /\ sr_vCoinsRet r = [])))
  /\ (sr_ok r = true -> sr_not_staking_error r = err).
Proof.
  intros r vCoins balance. subst r vCoins balance.
  unfold SelectCoinsForStaking.
  destruct (AvailableCoinsForStaking mapWallet nSpendTime balance_in) as [vCoins balance_out].
  cbn [fst].
  destruct (balance_out <=? 0) eqn:H0.
  { apply Z.leb_le in H0. cbn [sr_ok sr_vCoinsRet sr_not_staking_error sr_balance_out].
    split; [intros; lia|]. split; [|discriminate].
    intros _. exists NO_COINS. split; [reflexivity|]. left. auto. }
  apply Z.leb_gt in H0.
  destruct (balance_out - nReserveBalance <=? 0) eqn:H1.
  { apply Z.leb_le in H1. cbn [sr_ok sr_vCoinsRet sr_not_staking_error sr_balance_out].
    split; [intros; auto|]. split; [|discriminate].
    intros _. exists ENTIRE_BALANCE_RESERVED. split; [reflexivity|].
    right; left. repeat split; auto; lia. }
  apply Z.leb_gt in H1.
  destruct vCoins as [|o0 vCoins0].
  { cbn [sr_ok sr_vCoinsRet sr_not_staking_error sr_balance_out].
    split; [intros; lia|]. split; [|discriminate].
    intros _. exists NO_MATURE_COINS. split; [reflexivity|].
    right; right; left. repeat split; auto; lia. }
  set (vCoins := o0 :: vCoins0) in *.
  rewrite (foldl_push_back
             (fun output : COutput =>
                vout_value (out_tx output) (out_i output) <=? balance_out - nReserveBalance)
             (fun output : COutput => (out_tx output, out_i output))).
  rewrite app_nil_l.
  destruct (map _ (List.filter _ vCoins)) as [|c0 chosen0] eqn:Hch.
  { cbn [sr_ok sr_vCoinsRet sr_not_staking_error sr_balance_out].
    split; [intros; lia|]. split; [|discriminate].
    intros _. exists NO_UTXOS_AVAILABLE_DUE_TO_RESERVE. split; [reflexivity|].
    right; right; right. repeat split; auto; try lia; try discriminate.
    apply Forall_forall. intros o Ho. unfold output_value.
    destruct (vout_value (out_tx o) (out_i o) <=? balance_out - nReserveBalance) eqn:Hv.
    - exfalso. apply map_eq_nil in Hch.
      assert (Hin : In o (List.filter
                  (fun output : COutput =>
                     vout_value (out_tx output) (out_i output) <=? balance_out - nReserveBalance)
                  vCoins)) by (apply filter_In; split; assumption).
      rewrite Hch in Hin. destruct Hin.
    - apply Z.leb_gt in Hv. exact Hv. }
  cbn [sr_ok sr_vCoinsRet sr_not_staking_error sr_balance_out].
  split; [intros; lia|]. split; [discriminate|reflexivity].
Qed.

End Staking.

(** A wallet with one transaction, 200 blocks deep, of two outputs. *)
Lemma SelectCoinsForStaking_outputs_witness :
  let wallet := [(1200, Scenario.received 1200 1000 [5 * Scenario.COIN; 3 * Scenario.COIN])] in
  let r := @SelectCoinsForStaking (Scenario.params Scenario.COIN 10000) Scenario.chain
             Scenario.random Scenario.entropy wallet 100000 [] NONE 0 true in
  sr_ok r = true
  /\ length (sr_vCoinsRet r) = 2%nat
  /\ Forall (fun c : Coin =>
               (if @IsCoinBase Scenario.chain (fst c) || @IsCoinStake Scenario.chain (fst c)
                then 100 + 10 <= @GetDepthInMainChain Scenario.chain (fst c)
                else 1 <= @GetDepthInMainChain Scenario.chain (fst c))
               /\ nTime (fst c) <= 100000
               /\ coin_value c <= sr_balance_out r - Scenario.COIN)
            (sr_vCoinsRet r).
Proof.
  intros wallet r.
  split; [reflexivity|]. split; [reflexivity|].
  apply (@SelectCoinsForStaking_outputs (Scenario.params Scenario.COIN 10000) Scenario.chain
           Scenario.random Scenario.entropy wallet 100000 [] NONE 0 true).
  - intros A l rng. apply Permutation_rev.
  - simpl. lia.
  - repeat constructor; simpl; lia.
  - reflexivity.
Defined.

(** The outputs of a transaction whose time is the largest 32-bit value
    are returned for a spend time of 100000: the unsigned sum of its time and
    the minimum stake age of 57600 wraps to 57599, which is not later than
    the spend time. *)
Lemma SelectCoinsForStaking_time_wraps :
  let late := Scenario.received 1200 4294967295 [5 * Scenario.COIN; 3 * Scenario.COIN] in
  let r := @SelectCoinsForStaking (Scenario.params Scenario.COIN 10000) Scenario.chain
             Scenario.random Scenario.entropy [(1200, late)] 100000 [] NONE 0 true in
  sr_ok r = true
  /\ sr_vCoinsRet r = [(late, 1%nat); (late, 0%nat)]
  /\ 100000 < nTime late
  /\ (nTime late + @nStakeMinAge (Scenario.params Scenario.COIN 10000)) mod UINT32_MOD = 57599.
Proof.
  cbv zeta. split; [vm_compute; reflexivity|]. split; [vm_compute; reflexivity|].
  split; vm_compute; reflexivity.
Qed.

(** With a balance of 5 coins and a reserve of 10, a call that is not for
    the miner fails and leaves both the reason code and the output vector
    as they were passed in. *)
Lemma SelectCoinsForStaking_reserved_not_reported :
  let wallet := [(1200, Scenario.received 1200 1000 [5 * Scenario.COIN])] in
  let stale : Coin := (Scenario.received 1300 1000 [Scenario.COIN], 0%nat) in
  let r := @SelectCoinsForStaking (Scenario.params (10 * Scenario.COIN) 10000) Scenario.chain
             Scenario.random Scenario.entropy wallet 100000 [stale] NONE 0 false in
  0 < sr_balance_out r
  /\ sr_balance_out r < 10 * Scenario.COIN
  /\ sr_ok r = false
  /\ sr_not_staking_error r <> ENTIRE_BALANCE_RESERVED
  /\ sr_vCoinsRet r <> [].
Proof.
  vm_compute. repeat split; discriminate.
Qed.

(** ** Reconciliation of the spent flags *)

Lemma IsSpent_MarkSpent_eq (pcoin : CWalletTx) (n : nat) :
  (n < length (vout pcoin))%nat -> IsSpent (MarkSpent pcoin n) n = true.
Proof.
  intros Hn. unfold IsSpent, MarkSpent. simpl.
  apply flag_at_insert_eq. rewrite length_resize. exact Hn.
Qed.

Lemma IsSpent_MarkUnspent_eq (pcoin : CWalletTx) (n : nat) :
  (n < length (vout pcoin))%nat -> IsSpent (MarkUnspent pcoin n) n = false.
Proof.
  intros Hn. unfold IsSpent, MarkUnspent. simpl.
  apply flag_at_insert_eq. rewrite length_resize. exact Hn.
Qed.

Lemma IsSpent_MarkSpent_ne (pcoin : CWalletTx) (n m : nat) :
  n <> m -> (m < length (vout pcoin))%nat -> IsSpent (MarkSpent pcoin n) m = IsSpent pcoin m.
Proof.
  intros Hne Hm. unfold IsSpent, MarkSpent. simpl.
  rewrite flag_at_insert_ne by assumption. apply flag_at_resize, Hm.
Qed.

Lemma IsSpent_MarkUnspent_ne (pcoin : CWalletTx) (n m : nat) :
  n <> m -> (m < length (vout pcoin))%nat -> IsSpent (MarkUnspent pcoin n) m = IsSpent pcoin m.
Proof.
  intros Hne Hm. unfold IsSpent, MarkUnspent. simpl.
  rewrite flag_at_insert_ne by assumption. apply flag_at_resize, Hm.
Qed.

Lemma index_says_spent_unspent (txindex : CTxIndex) (n : nat) :
  index_says_spent txindex n = negb (index_says_unspent txindex n).
Proof.
  unfold index_says_spent, index_says_unspent.
  destruct (vSpent txindex !! n) as [pos|] eqn:Hn.
  - assert (n < length (vSpent txindex))%nat by (apply lookup_lt_is_Some; eauto).
    replace (n <? length (vSpent txindex))%nat with true by (symmetry; apply Nat.ltb_lt; lia).
    replace (length (vSpent txindex) <=? n)%nat with false by (symmetry; apply Nat.leb_gt; lia).
    reflexivity.
  - apply lookup_ge_None_1 in Hn.
    replace (n <? length (vSpent txindex))%nat with false by (symmetry; apply Nat.ltb_ge; lia).
    replace (length (vSpent txindex) <=? n)%nat with true by (symmetry; apply Nat.leb_le; lia).
    reflexivity.
Qed.

Lemma foldl_fixed {A B : Type} (f : A -> B -> A) (l : list B) (a : A) :
  (forall x, In x l -> f a x = a) -> foldl f a l = a.
Proof.
  induction l as [|x l IH]; intros Hfix; simpl; [reflexivity|].
  rewrite (Hfix x) by (left; reflexivity).
  apply IH. intros y Hy. apply Hfix. right. exact Hy.
Qed.

Section Reconciliation.
Context `{C : Chain}.

Lemma FixSpentCoins_output_repairs (txindex : CTxIndex) (pcoin pcoin' : CWalletTx)
    (nMismatchFound nBalanceInQuestion : Z) (k : nat) :
  (k < length (vout pcoin))%nat ->
  repaired_below txindex pcoin pcoin' k ->
  repaired_below txindex pcoin
    (fst (fst (FixSpentCoins_output false txindex
                 (pcoin', nMismatchFound, nBalanceInQuestion) k))) (S k).
Proof.
  intros Hk (Hvout & Hhash & Hdone & Hrest).
  assert (Hk' : (k < length (vout pcoin'))%nat) by (rewrite Hvout; exact Hk).
  unfold FixSpentCoins_output. cbn [negb].
  destruct (IsMine_at pcoin' k && IsSpent pcoin' k && index_says_unspent txindex k) eqn:H1;
    [|destruct (IsMine_at pcoin' k && negb (IsSpent pcoin' k) && index_says_spent txindex k)
        eqn:H2]; cbn [fst].
  - (* a lost coin: marked unspent *)
    split; [exact Hvout|]. split; [exact Hhash|]. split.
    + intros m Hm Hlen. destruct (decide (m = k)) as [->|Hne].
      * unfold agrees_at. rewrite IsSpent_MarkUnspent_eq by exact Hk'.
        rewrite index_says_spent_unspent.
        apply andb_prop in H1. destruct H1 as [_ ->].
        destruct (IsMine_at (MarkUnspent pcoin' k) k); split; reflexivity.
      * assert (Hagree : agrees_at txindex pcoin' m) by (apply Hdone; [lia|exact Hlen]).
        unfold agrees_at in *.
        rewrite (IsSpent_MarkUnspent_ne pcoin' k m) by (rewrite ?Hvout; auto).
        exact Hagree.
    + intros m Hm Hlen.
      rewrite IsSpent_MarkUnspent_ne by (rewrite ?Hvout; auto; lia).
      apply Hrest; [lia|exact Hlen].
  - (* a spent coin: marked spent *)
    split; [exact Hvout|]. split; [exact Hhash|]. split.
    + intros m Hm Hlen. destruct (decide (m = k)) as [->|Hne].
      * unfold agrees_at. rewrite IsSpent_MarkSpent_eq by exact Hk'.
        apply andb_prop in H2. destruct H2 as [_ H2].
        rewrite index_says_spent_unspent in H2. apply negb_true_iff in H2.
        rewrite index_says_spent_unspent, H2.
        destruct (IsMine_at (MarkSpent pcoin' k) k); split; reflexivity.
      * assert (Hagree : agrees_at txindex pcoin' m) by (apply Hdone; [lia|exact Hlen]).
        unfold agrees_at in *.
        rewrite (IsSpent_MarkSpent_ne pcoin' k m) by (rewrite ?Hvout; auto).
        exact Hagree.
    + intros m Hm Hlen.
      rewrite IsSpent_MarkSpent_ne by (rewrite ?Hvout; auto; lia).
      apply Hrest; [lia|exact Hlen].
  - (* the flags agree already *)
    split; [exact Hvout|]. split; [exact Hhash|]. split.
    + intros m Hm Hlen. destruct (decide (m = k)) as [->|Hne].
      * split; assumption.
      * apply Hdone; [lia|exact Hlen].
    + intros m Hm Hlen. apply Hrest; [lia|exact Hlen].
Qed.

Lemma FixSpentCoins_outputs_repair (txindex : CTxIndex) (pcoin : CWalletTx) (k : nat)
    (nMismatchFound nBalanceInQuestion : Z) :
  (k <= length (vout pcoin))%nat ->
  repaired_below txindex pcoin
    (fst (fst (foldl (FixSpentCoins_output false txindex)
                     (pcoin, nMismatchFound, nBalanceInQuestion) (seq 0 k)))) k.
Proof.
  induction k as [|k IH]; intros Hk.
  - simpl. split; [reflexivity|]. split; [reflexivity|]. split.
    + intros m Hm. lia.
    + intros m _ _. reflexivity.
  - rewrite foldl_seq_S.
    destruct (foldl (FixSpentCoins_output false txindex)
                    (pcoin, nMismatchFound, nBalanceInQuestion) (seq 0 k))
      as [[pcoin' a] b] eqn:Hfold.
    apply FixSpentCoins_output_repairs; [lia|].
    apply IH. lia.
Qed.

Lemma FixSpentCoins_tx_agrees (acc : WalletMap * Z * Z) (it : uint256 * CWalletTx) :
  Forall agrees (fst (fst acc)) ->
  Forall agrees (fst (fst (FixSpentCoins_tx false acc it))).
Proof.
  destruct acc as [[seen a] b]. cbn [fst]. intros Hseen.
  unfold FixSpentCoins_tx.
  destruct (ReadTxIndex (hash (snd it))) as [txindex|] eqn:Hidx.
  - pose proof (FixSpentCoins_outputs_repair txindex (snd it) (length (vout (snd it))) a b
                  ltac:(lia)) as Hrep.
    destruct (foldl (FixSpentCoins_output false txindex) (snd it, a, b)
                    (seq 0 (length (vout (snd it))))) as [[pcoin' a'] b'].
    cbn [fst] in *. destruct Hrep as (Hvout & Hhash & Hdone & _).
    apply Forall_app; split; [exact Hseen|].
    constructor; [|constructor].
    unfold agrees. cbn [snd]. rewrite Hhash, Hidx, Hvout.
    intros n Hn. apply Hdone; exact Hn.
  - cbn [fst]. apply Forall_app; split; [exact Hseen|].
    constructor; [|constructor]. unfold agrees. rewrite Hidx. exact I.
Qed.

Lemma FixSpentCoins_repairs (mapWallet : WalletMap) :
  Forall agrees (fst (fst (FixSpentCoins mapWallet false))).
Proof.
  unfold FixSpentCoins.
  apply (foldl_invariant (fun acc : WalletMap * Z * Z => Forall agrees (fst (fst acc)))).
  - constructor.
  - intros acc it Hacc _. apply FixSpentCoins_tx_agrees, Hacc.
Qed.

Lemma FixSpentCoins_output_agreed (fCheckOnly : bool) (txindex : CTxIndex)
    (pcoin : CWalletTx) (a b : Z) (n : nat) :
  agrees_at txindex pcoin n ->
  FixSpentCoins_output fCheckOnly txindex (pcoin, a, b) n = (pcoin, a, b).
Proof.
  intros [H1 H2]. unfold FixSpentCoins_output. rewrite H1, H2. reflexivity.
Qed.

Lemma FixSpentCoins_agreed_from (fCheckOnly : bool) (mapWallet seen : WalletMap) (a b : Z) :
  Forall agrees mapWallet ->
  foldl (FixSpentCoins_tx fCheckOnly) (seen, a, b) mapWallet = (seen ++ mapWallet, a, b).
Proof.
  revert seen. induction mapWallet as [|it w IH]; intros seen Hall; cbn [foldl].
  - rewrite app_nil_r. reflexivity.
  - inversion Hall as [|? ? Hit Hw]; subst.
    assert (Hstep : FixSpentCoins_tx fCheckOnly (seen, a, b) it = (seen ++ [it], a, b)).
    { unfold FixSpentCoins_tx. unfold agrees in Hit.
      destruct (ReadTxIndex (hash (snd it))) as [txindex|]; [|reflexivity].
      rewrite foldl_fixed.
      - destruct it; reflexivity.
      - intros n Hn. apply in_seq in Hn.
        apply FixSpentCoins_output_agreed, Hit. lia. }
    rewrite Hstep, IH by exact Hw. rewrite <- app_assoc. reflexivity.
Qed.

(** C8. After a run of [FixSpentCoins] that repairs, a second run on the
    wallet it left, against the same transaction index, finds no mismatch
    and no value in question, and changes nothing; this holds whether the
    second run repairs or only checks. *)
Theorem FixSpentCoins_idempotent (mapWallet : WalletMap) (fCheckOnly : bool) :
  let repaired := fst (fst (FixSpentCoins mapWallet false)) in
  FixSpentCoins repaired fCheckOnly = (repaired, 0, 0).
Proof.
  intros repaired. unfold FixSpentCoins at 1.
  rewrite FixSpentCoins_agreed_from by apply FixSpentCoins_repairs.
  reflexivity.
Qed.

End Reconciliation.

(** A wallet whose flags disagree with the index on two outputs: the first
    run finds and repairs both, the second finds none. *)
Example FixSpentCoins_twice :
  let mapWallet :=
    [(1200, set_vfSpent (Scenario.received 1200 1000 [500]) [true]);
     (1201, Scenario.received 1201 1000 [700])] in
  let repaired :=
    [(1200, set_vfSpent (Scenario.received 1200 1000 [500]) [false]);
     (1201, set_vfSpent (Scenario.received 1201 1000 [700]) [true])] in
  @FixSpentCoins Scenario.chain mapWallet false = (repaired, 2, 1200)
  /\ @FixSpentCoins Scenario.chain mapWallet true = (mapWallet, 2, 1200)
  /\ @FixSpentCoins Scenario.chain repaired false = (repaired, 0, 0).
Proof. repeat split; vm_compute; reflexivity. Qed.

(** ** Unlocking the vault *)

Section VaultProperties.
Context `{K : Crypto}.

(** X7. A call that returns false leaves the key store as it was. *)
Lemma Unlock_false_unchanged (strWalletPassphrase : SecureString)
    (mapMasterKeys : list (Z * CMasterKey)) (store : CCryptoKeyStore) :
  fst (Unlock strWalletPassphrase mapMasterKeys store) = false ->
  snd (Unlock strWalletPassphrase mapMasterKeys store) = store.
Proof.
  unfold Unlock. destruct (negb (IsLocked store)); [reflexivity|].
  induction mapMasterKeys as [|k rest IH]; simpl; [reflexivity|].
  destruct (SetKeyFromPassphrase _ _ _ _) as [crypter|]; [|reflexivity].
  destruct (Decrypt _ _) as [vMasterKey|]; [|reflexivity].
  destruct (CCryptoKeyStore_Unlock _ _) as [store'|]; [discriminate|exact IH].
Qed.

(** X8. A call that returns true has found a record that matches. *)
Lemma Unlock_true_matches (strWalletPassphrase : SecureString)
    (mapMasterKeys : list (Z * CMasterKey)) (store : CCryptoKeyStore) :
  fst (Unlock strWalletPassphrase mapMasterKeys store) = true ->
  IsLocked store = true
  /\ exists k, In k mapMasterKeys /\ record_matches strWalletPassphrase store (snd k) = true.
Proof.
  unfold Unlock. destruct (IsLocked store); [|discriminate]. simpl.
  intros H. split; [reflexivity|].
  induction mapMasterKeys as [|k rest IH]; simpl in *; [discriminate|].
  destruct (SetKeyFromPassphrase _ _ _ _) as [crypter|] eqn:Hkey; [|discriminate].
  destruct (Decrypt _ _) as [vMasterKey|] eqn:Hdec; [|discriminate].
  destruct (CCryptoKeyStore_Unlock _ _) as [store'|] eqn:Hun.
  - exists k. split; [left; reflexivity|].
    unfold record_matches. rewrite Hkey, Hdec, Hun. reflexivity.
  - destruct (IH H) as [k' [Hin Hm]]. exists k'. split; [right; exact Hin|exact Hm].
Qed.

(** When the first record's key derivation or decryption fails, the call
    returns false whatever the later records are. *)
Lemma Unlock_first_record_decides (strWalletPassphrase : SecureString)
    (k : Z * CMasterKey) (rest : list (Z * CMasterKey)) (store : CCryptoKeyStore) :
  match SetKeyFromPassphrase strWalletPassphrase (vchSalt (snd k))
          (nDeriveIterations (snd k)) (nDerivationMethod (snd k)) with
  | None => True
  | Some crypter => Decrypt crypter (vchCryptedKey (snd k)) = None
  end ->
  Unlock strWalletPassphrase (k :: rest) store = (false, store).
Proof.
  intros H. unfold Unlock. destruct (negb (IsLocked store)); [reflexivity|].
  simpl. destruct (SetKeyFromPassphrase _ _ _ _) as [crypter|]; [|reflexivity].
  rewrite H. reflexivity.
Qed.

(** With a single record, the call succeeds exactly when the record
    matches. *)
Lemma Unlock_single_record (strWalletPassphrase : SecureString) (k : Z * CMasterKey)
    (store : CCryptoKeyStore) :
  IsLocked store = true ->
  fst (Unlock strWalletPassphrase [k] store) = record_matches strWalletPassphrase store (snd k).
Proof.
  intros Hlocked. unfold Unlock, record_matches. rewrite Hlocked. simpl.
  destruct (SetKeyFromPassphrase _ _ _ _) as [crypter|]; [|reflexivity].
  destruct (Decrypt _ _) as [vMasterKey|]; [|reflexivity].
  destruct (CCryptoKeyStore_Unlock _ _); reflexivity.
Qed.

End VaultProperties.

(** C9. A vault with two master-key records, the first wrapped under
    another pass phrase and the second under "pw": the second record opens
    the store under "pw", and alone it unlocks the vault, yet [Unlock]
    returns false at the first record and never tries the second. *)
Theorem Unlock_never_tries_second_record :
  let keys := [(1, Scenario.wrapped Scenario.pass_old); (2, Scenario.wrapped Scenario.pass_pw)] in
  @IsLocked Scenario.crypto Scenario.locked = true
  /\ @record_matches Scenario.crypto Scenario.pass_pw Scenario.locked
       (Scenario.wrapped Scenario.pass_pw) = true
  /\ fst (@Unlock Scenario.crypto Scenario.pass_pw [(2, Scenario.wrapped Scenario.pass_pw)]
            Scenario.locked) = true
  /\ @Unlock Scenario.crypto Scenario.pass_pw keys Scenario.locked = (false, Scenario.locked).
Proof.
  vm_compute. repeat split.
Qed.

(** ** The transaction builder *)


Section BuilderProperties.
Context `{P : Params} `{C : Chain} `{R : Random} `{B : Builder}.

Lemma vout_with_payee_outputs (t : CWalletTx) (vecSend : list (CScript * Z)) (message_fee : Z) :
  vout (with_payee_outputs t vecSend message_fee) = payee_outputs vecSend message_fee.
Proof. reflexivity. Qed.


(** C4. When the change that an iteration computes is positive and below
    [CENT], the builder moves to the fee only what the fee lacks to the base
    fee: nothing when the fee has reached the base fee, else the smaller of
    the change and the gap. What is left of the change is paid to a change
    output; the transaction has no change output exactly when the change
    does not exceed the gap. *)
Theorem subcent_change_rule (e : Entropy) (mapWallet : WalletMap)
    (vecSend : list (CScript * Z)) (setCoins_in : CoinSet)
    (coinControl : option CCoinControl) (change_back_to_input_address : bool)
    (nValueOut message_fee : Z) (s : BuildState) (a : Assembled) :
  assemble e mapWallet vecSend setCoins_in coinControl change_back_to_input_address
    nValueOut message_fee s = inr a ->
  let nBaseFee := GetBaseFee (with_payee_outputs (wtxNew s) vecSend message_fee) in
  let nChange := as_nValueIn a - nValueOut - nFeeRet s in
  0 < nChange -> nChange < CENT ->
  let nMoveToFee :=
    if nFeeRet s <? nBaseFee then Z.min nChange (nBaseFee - nFeeRet s) else 0 in
  nFeeRet (as_state a) = nFeeRet s + nMoveToFee
  /\ as_nChange a = nChange - nMoveToFee
  /\ (as_nChange a = 0 <-> nChange <= nBaseFee - nFeeRet s)
  /\ (as_nChange a = 0 ->
      vout (wtxNew (as_state a)) = payee_outputs vecSend message_fee)
  /\ (as_nChange a <> 0 ->
      exists (position : nat) (scriptChange : CScript),
        vout (wtxNew (as_state a))
        = vector_insert position (mkTxOut (as_nChange a) scriptChange)
            (payee_outputs vecSend message_fee)).
Proof.
  unfold assemble.
  destruct (select_inputs e mapWallet setCoins_in coinControl
              (with_payee_outputs (wtxNew s) vecSend message_fee) (nValueOut + nFeeRet s))
    as [err|[setCoins_out nValueIn]]; [discriminate|].
  destruct (negb (vector_empty setCoins_in) && (nValueIn - nValueOut - nFeeRet s <? 0));
    [discriminate|].
  unfold fold_subcent_change.
  set (nBaseFee := GetBaseFee (with_payee_outputs (wtxNew s) vecSend message_fee)).
  destruct (nFeeRet s <? nBaseFee) eqn:Hfee;
    destruct (0 <? nValueIn - nValueOut - nFeeRet s) eqn:Hpos;
    destruct (nValueIn - nValueOut - nFeeRet s <? CENT) eqn:Hcent; cbn [andb];
    try apply Z.ltb_lt in Hfee; try apply Z.ltb_ge in Hfee;
    try apply Z.ltb_lt in Hpos; try apply Z.ltb_ge in Hpos;
    try apply Z.ltb_lt in Hcent; try apply Z.ltb_ge in Hcent.
  all: match goal with
       | |- context [0 <? ?c] => destruct (0 <? c) eqn:Hleft
       end;
       try apply Z.ltb_lt in Hleft; try apply Z.ltb_ge in Hleft.
  all: try (destruct (change_script coinControl change_back_to_input_address setCoins_out
                        (reservekey s) (keypool s)) as [[[scriptChange rk] pool]|];
            [|discriminate]).
  all: try (destruct (ReturnKey (reservekey s) (keypool s)) as [rk pool]).
  all: intros Ha; injection Ha as <-; cbn [as_state as_nChange as_nValueIn nFeeRet wtxNew];
       intros Hchange Hsub; try lia.
  all: split; [lia|]; split; [lia|]; split; [split; lia|]; split.
  all: try (intros Hz; exfalso; lia).
  all: try (intros _; reflexivity).
  all: try (intros _; eexists _, scriptChange; reflexivity).
Qed.






End BuilderProperties.

(** With the fee at the base fee of 10000, a change of 500 is paid out and
    nothing is moved to the fee; with a fee of 4000, a change of 8000 gives
    6000 to the fee and 2000 are paid out. *)
Lemma subcent_change_paid_out :
  (0 < 2000000 - 1989500 - 10000 < @CENT (Scenario.params 0 10000)
   /\ exists s,
        @CreateTransaction (Scenario.params 0 10000) Scenario.chain Scenario.random
          Scenario.builder 5 Scenario.entropy [] [(Scenario.theirs, 1989500)]
          [(Scenario.received 1200 1000 [2000000], 0%nat)] Scenario.blank
          (mkReserveKey (-1) None) [7] None false = Some (inr s)
        /\ nFeeRet s = 10000
        /\ vout (wtxNew s) = [mkTxOut 500 Scenario.mine; mkTxOut 1989500 Scenario.theirs])
  /\ (0 < 2000000 - 1988000 - 4000 < @CENT (Scenario.params 0 4000)
      /\ exists s,
           @CreateTransaction (Scenario.params 0 4000) Scenario.chain Scenario.random
             Scenario.builder 5 Scenario.entropy [] [(Scenario.theirs, 1988000)]
             [(Scenario.received 1200 1000 [2000000], 0%nat)] Scenario.blank
             (mkReserveKey (-1) None) [7] None false = Some (inr s)
           /\ nFeeRet s = 10000
           /\ vout (wtxNew s) = [mkTxOut 2000 Scenario.mine; mkTxOut 1988000 Scenario.theirs]).
Proof.
  split.
  - split; [vm_compute; split; reflexivity|].
    eexists. split; [vm_compute; reflexivity|]. split; reflexivity.
  - split; [vm_compute; split; reflexivity|].
    eexists. split; [vm_compute; reflexivity|]. split; reflexivity.
Qed.

(** With a fee of 4000 and a change of 6000, the whole change goes to the
    fee, which reaches the base fee, and no change output is made. *)
Lemma subcent_change_rule_witness :
  exists a : @Assembled Scenario.builder,
    @assemble (Scenario.params 0 4000) Scenario.chain Scenario.random Scenario.builder
      Scenario.entropy [] [(Scenario.theirs, 1990000)]
      [(Scenario.received 1200 1000 [2000000], 0%nat)] None false 1990000 0
      (Scenario.start 4000) = inr a
    /\ as_nValueIn a - 1990000 - 4000 = 6000
    /\ nFeeRet (as_state a) = 10000
    /\ as_nChange a = 0
    /\ vout (wtxNew (as_state a)) = [mkTxOut 1990000 Scenario.theirs].
Proof.
  eexists. split; [reflexivity|].
  split; [reflexivity|].
  match goal with
  | |- context [as_nChange ?a] =>
      destruct (@subcent_change_rule (Scenario.params 0 4000) Scenario.chain Scenario.random
                  Scenario.builder Scenario.entropy [] [(Scenario.theirs, 1990000)]
                  [(Scenario.received 1200 1000 [2000000], 0%nat)]
                  None false 1990000 0 (Scenario.start 4000) a eq_refl)
        as (Hfee & Hchange & Hzero & Hnone & _)
  end.
  - vm_compute. reflexivity.
  - vm_compute. reflexivity.
  - split; [exact Hfee|].
    assert (Hz : as_nChange _ = 0) by exact Hchange.
    split; [exact Hz|]. exact (Hnone Hz).
Defined.


(** The whole call with the fixed input of 40000: the first iteration
    passes, the second returns the error. *)
Example CreateTransaction_fixed_inputs_second_iteration :
  @CreateTransaction (Scenario.params 0 10000) Scenario.chain Scenario.random
    Scenario.builder 5 Scenario.entropy Scenario.wallet Scenario.payees
    [(Scenario.received 1200 1000 [40000], 0%nat)] Scenario.blank
    (mkReserveKey (-1) None) [7] None false
  = Some (inl InputsCannotCoverFees).
Proof. vm_compute. reflexivity. Qed.

(** ** Coin selection on the small wallet *)

Lemma Scenario_Shuffle_permutes : @Shuffle_permutes Scenario.random.
Proof. intros A l rng. apply Permutation_rev. Qed.

(** Candidates of 30, 50 and 80 and a target of 100: both policies
    succeed. *)
Lemma selection_sufficiency_witness :
  (let '(ok, setCoinsRet, nValueRet) :=
     @SelectCoinsMinConf (Scenario.params 0 10000) Scenario.chain Scenario.random
       Scenario.entropy 100 100000 1 10 (Scenario.candidates [30; 50; 80]) in
   ok = true /\ 100 <= nValueRet
   /\ (List.NoDup (map coin_key (map output_coin (Scenario.candidates [30; 50; 80]))) ->
       set_total setCoinsRet = nValueRet))
  /\ ((exists o, In o (Scenario.candidates [30; 50; 80])
                 /\ @eligible Scenario.chain 100000 1 10 o = true) ->
      let '(ok, setCoinsRet, nValueRet) :=
        @SelectSmallestCoins Scenario.chain 100 100000 1 10 (Scenario.candidates [30; 50; 80]) in
      ok = true /\ 100 <= nValueRet
      /\ (List.NoDup (map coin_key (map output_coin (Scenario.candidates [30; 50; 80]))) ->
          set_total setCoinsRet = nValueRet)).
Proof.
  apply (@selection_sufficiency (Scenario.params 0 10000) Scenario.chain Scenario.random
           Scenario.entropy 100 100000 1 10 (Scenario.candidates [30; 50; 80])).
  - exact Scenario_Shuffle_permutes.
  - vm_compute. discriminate.
  - split; [split; vm_compute; discriminate|]. split.
    + repeat (apply Forall_cons; [vm_compute; discriminate|]). apply Forall_nil.
    + vm_compute. reflexivity.
  - vm_compute. discriminate.
Defined.

(** What the two policies return there: 80 and 30 for the subset-sum
    policy, all three for the smallest-first policy. *)
Example selection_on_30_50_80 :
  @SelectCoinsMinConf (Scenario.params 0 10000) Scenario.chain Scenario.random
    Scenario.entropy 100 100000 1 10 (Scenario.candidates [30; 50; 80])
  = (true, [(Scenario.received 1200 1000 [30; 50; 80], 2%nat);
            (Scenario.received 1200 1000 [30; 50; 80], 0%nat)], 110)
  /\ @SelectSmallestCoins Scenario.chain 100 100000 1 10 (Scenario.candidates [30; 50; 80])
     = (true, [(Scenario.received 1200 1000 [30; 50; 80], 0%nat);
               (Scenario.received 1200 1000 [30; 50; 80], 1%nat);
               (Scenario.received 1200 1000 [30; 50; 80], 2%nat)], 160).
Proof. split; vm_compute; reflexivity. Qed.

(** The smallest-first policy fails for a target of 0 without candidates,
    though the target does not exceed the sum of the eligible candidates.
    And for a candidate of 50 that is listed twice and a target of 100,
    both policies return true and the value 100 with a set that holds the
    one coin, worth 50. The amounts are amounts of [int64_t]. *)
Lemma selection_fails_at_the_edges :
  (@amounts_in_int64 (Scenario.params 0 10000) 0 []
   /\ 0 <= @eligible_total Scenario.chain 100000 1 10 []
   /\ @SelectSmallestCoins Scenario.chain 0 100000 1 10 [] = (false, [], 0))
  /\ (let twice := Scenario.candidates [50] ++ Scenario.candidates [50] in
      @amounts_in_int64 (Scenario.params 0 10000) 100 twice
      /\ 100 <= @eligible_total Scenario.chain 100000 1 10 twice
      /\ @SelectCoinsMinConf (Scenario.params 0 10000) Scenario.chain Scenario.random
           Scenario.entropy 100 100000 1 10 twice
         = (true, [(Scenario.received 1200 1000 [50], 0%nat)], 100)
      /\ @SelectSmallestCoins Scenario.chain 100 100000 1 10 twice
         = (true, [(Scenario.received 1200 1000 [50], 0%nat)], 100)
      /\ set_total [(Scenario.received 1200 1000 [50], 0%nat)] = 50).
Proof.
  split.
  - split; [|split; [vm_compute; discriminate|vm_compute; reflexivity]].
    split; [split; vm_compute; discriminate|]. split; [apply Forall_nil|].
    vm_compute. reflexivity.
  - cbv zeta. split; [|split; [vm_compute; discriminate|]].
    + split; [split; vm_compute; discriminate|]. split.
      * repeat (apply Forall_cons; [vm_compute; discriminate|]). apply Forall_nil.
      * vm_compute. reflexivity.
    + split; [vm_compute; reflexivity|]. split; vm_compute; reflexivity.
Qed.


(** A candidate of exactly the target is returned alone. *)
Example selection_exact_single :
  @SelectCoinsMinConf (Scenario.params 0 10000) Scenario.chain Scenario.random
    Scenario.entropy 50 100000 1 10 (Scenario.candidates [30; 50; 80])
  = (true, [(Scenario.received 1200 1000 [30; 50; 80], 1%nat)], 50).
Proof. vm_compute. reflexivity. Qed.

(** Candidates of 6000000, 4000001 and 11000000 and a target of 10000000:
    the approximation reaches 10000001, one unit above the target, and the
    larger candidate of 11000000, a whole [CENT] above it, is returned. *)
Lemma larger_returned_though_farther :
  exists (p : @Partition) (sorted : list ValueCoin) (vfBest : list bool) (nBest : Z) (c : Coin),
    @approximation_phase (Scenario.params 0 10000) Scenario.chain Scenario.random
      Scenario.entropy 10000000 100000 1 10
      (Scenario.candidates [6000000; 4000001; 11000000])
    = Some (p, sorted, vfBest, nBest)
    /\ snd (coinLowestLarger p) = Some c
    /\ nBest = 10000001
    /\ fst (coinLowestLarger p) = 11000000
    /\ nBest <> 10000000
    /\ ~ (fst (coinLowestLarger p) - 10000000 <= nBest - 10000000)
    /\ @SelectCoinsMinConf (Scenario.params 0 10000) Scenario.chain Scenario.random
         Scenario.entropy 10000000 100000 1 10
         (Scenario.candidates [6000000; 4000001; 11000000])
       = (true, [c], 11000000).
Proof.
  do 5 eexists.
  split; [vm_compute; reflexivity|].
  split; [vm_compute; reflexivity|].
  split; [reflexivity|]. split; [reflexivity|].
  split; [discriminate|].
  split; [vm_compute; intros H; apply H; reflexivity|].
  vm_compute. reflexivity.
Qed.

(** The same candidates: the larger candidate is returned, by the first
    alternative of the rule. *)
Lemma larger_or_approximation_witness :
  exists (p : @Partition) (sorted : list ValueCoin) (vfBest : list bool) (nBest : Z) (c : Coin),
    @approximation_phase (Scenario.params 0 10000) Scenario.chain Scenario.random
      Scenario.entropy 10000000 100000 1 10
      (Scenario.candidates [6000000; 4000001; 11000000])
    = Some (p, sorted, vfBest, nBest)
    /\ snd (coinLowestLarger p) = Some c
    /\ (@SelectCoinsMinConf (Scenario.params 0 10000) Scenario.chain Scenario.random
          Scenario.entropy 10000000 100000 1 10
          (Scenario.candidates [6000000; 4000001; 11000000])
        = (true, [c], fst (coinLowestLarger p))
        <-> (nBest <> 10000000 /\ nBest < 10000000 + 1000000)
            \/ fst (coinLowestLarger p) <= nBest).
Proof.
  do 5 eexists.
  split; [vm_compute; reflexivity|].
  split; [vm_compute; reflexivity|].
  refine (proj1 (proj2 (proj2
    (@larger_or_approximation (Scenario.params 0 10000) Scenario.chain Scenario.random
       Scenario.entropy 10000000 100000 1 10
       (Scenario.candidates [6000000; 4000001; 11000000]) _ _ _ _ _ _ _ _ _)))).
  - exact Scenario_Shuffle_permutes.
  - vm_compute. discriminate.
  - vm_compute. reflexivity.
  - vm_compute. reflexivity.
Defined.

(** * Further properties *)

(** ** Bytes *)

Lemma uchar_range b : 0 <= uchar b < 256.
Proof.
  unfold uchar. pose proof (Byte.to_N_bounded b). lia.
Qed.

Lemma uchar_to_uchar z : uchar (to_uchar z) = z mod 256.
Proof.
  unfold uchar, to_uchar.
  assert (H : 0 <= z mod 256 < 256) by (apply Z.mod_pos_bound; lia).
  destruct (Byte.of_N (Z.to_N (z mod 256))) as [b|] eqn:E.
  - apply Byte.to_of_N in E. simpl. rewrite E. lia.
  - apply Byte.of_N_None_iff in E. lia.
Qed.

Lemma to_uchar_uchar b : to_uchar (uchar b) = b.
Proof.
  unfold to_uchar. pose proof (uchar_range b) as H.
  rewrite Z.mod_small by lia. unfold uchar. rewrite N2Z.id, Byte.of_to_N. reflexivity.
Qed.

Lemma le_value_le_bytes (n : nat) (v : Z) :
  le_value (le_bytes n v) = v mod 256 ^ Z.of_nat n.
Proof.
  revert v. induction n as [|n IH]; intros v.
  - simpl. rewrite Z.mod_1_r. reflexivity.
  - cbn [le_bytes le_value]. rewrite IH, uchar_to_uchar.
    rewrite Nat2Z.inj_succ, Z.pow_succ_r by lia.
    rewrite Z.rem_mul_r by lia. reflexivity.
Qed.

Lemma le_bytes_length n v : length (le_bytes n v) = n.
Proof. revert v. induction n; intros; simpl; auto. Qed.

Lemma le_value_range (bs : list byte) : 0 <= le_value bs < 256 ^ Z.of_nat (length bs).
Proof.
  induction bs as [|b bs IH].
  - simpl. lia.
  - cbn [le_value length]. rewrite Nat2Z.inj_succ, Z.pow_succ_r by lia.
    pose proof (uchar_range b). lia.
Qed.

Lemma le_bytes_le_value (bs : list byte) : le_bytes (length bs) (le_value bs) = bs.
Proof.
  induction bs as [|b bs IH]; [reflexivity|].
  cbn [length le_bytes le_value]. pose proof (uchar_range b) as Hb.
  f_equal.
  - rewrite <- (to_uchar_uchar b) at 2. unfold to_uchar.
    replace ((uchar b + 256 * le_value bs) mod 256) with (uchar b mod 256); [reflexivity|].
    rewrite (Z.mul_comm 256), Z.mod_add by lia. reflexivity.
  - rewrite (Z.add_comm (uchar b)), (Z.mul_comm 256), Z.div_add_l by lia.
    rewrite (Z.div_small (uchar b)), Z.add_0_r by lia. exact IH.
Qed.

(** ** Scripts *)

Lemma byte_at_app (s t : CScript) (k : nat) :
  byte_at (s ++ t) (length s + k) = byte_at t k.
Proof.
  unfold byte_at. rewrite lookup_app_r by lia.
  replace (length s + k - length s)%nat with k by lia. reflexivity.
Qed.

Lemma drop_app_add {A} (s t : list A) (k : nat) :
  drop (length s + k) (s ++ t) = drop k t.
Proof.
  rewrite drop_app_ge by lia. f_equal. lia.
Qed.

Lemma leb_add_shift (a b c : nat) : (a + b <=? a + c)%nat = (b <=? c)%nat.
Proof. destruct (Nat.leb_spec (a + b) (a + c)), (Nat.leb_spec b c); lia || reflexivity. Qed.

Lemma sub_add_shift (a b c : nat) : (a + b - (a + c))%nat = (b - c)%nat.
Proof. lia. Qed.

(** Reading at an offset behind a prefix is reading the rest at the
    offset less the prefix. *)
Lemma GetOp2_app (s t : list byte) (k : nat) :
  GetOp2 (s ++ t) (length s + k) =
  let '(fRet, pc, opcode, vch) := GetOp2 t k in (fRet, (length s + pc)%nat, opcode, vch).
Proof.
  unfold GetOp2. rewrite length_app, leb_add_shift, byte_at_app.
  destruct (length t <=? k)%nat; [reflexivity|].
  rewrite <- !Nat.add_succ_r, !sub_add_shift, byte_at_app, !drop_app_add.
  destruct (byte_at t k <=? OP_PUSHDATA4); [|reflexivity].
  destruct (byte_at t k <? OP_PUSHDATA1).
  { rewrite sub_add_shift, drop_app_add.
    destruct (_ <? _); [reflexivity|]. rewrite Nat.add_assoc. reflexivity. }
  destruct (byte_at t k =? OP_PUSHDATA1).
  { destruct (length t - S k <? 1)%nat; [reflexivity|].
    rewrite sub_add_shift, drop_app_add.
    destruct (_ <? _); [reflexivity|]. rewrite Nat.add_assoc. reflexivity. }
  destruct (byte_at t k =? OP_PUSHDATA2).
  { destruct (length t - S k <? 2)%nat; [reflexivity|].
    rewrite <- !Nat.add_assoc, sub_add_shift, drop_app_add.
    destruct (_ <? _); [reflexivity|]. rewrite !Nat.add_assoc. reflexivity. }
  destruct (byte_at t k =? OP_PUSHDATA4).
  { destruct (length t - S k <? 4)%nat; [reflexivity|].
    rewrite <- !Nat.add_assoc, sub_add_shift, drop_app_add.
    destruct (_ <? _); [reflexivity|]. rewrite !Nat.add_assoc. reflexivity. }
  rewrite sub_add_shift, drop_app_add.
  destruct (_ <? _); [reflexivity|]. rewrite Nat.add_assoc. reflexivity.
Qed.

Lemma push_data_header (script b : list byte) :
  push_data script b = script ++ push_header b ++ b.
Proof.
  unfold push_data, push_header.
  repeat destruct (_ : bool); rewrite <- app_assoc; reflexivity.
Qed.

Lemma byte_at_range (s : list byte) (k : nat) : 0 <= byte_at s k < 256.
Proof.
  unfold byte_at. destruct (s !! k) as [b|]; [apply uchar_range|lia].
Qed.

(** The header that [push_data] writes is read back as the size of the
    data, and the data follow it. *)
Lemma GetOp2_header (b tail : list byte) :
  Z.of_nat (length b) < 2 ^ 32 ->
  exists opcode,
    0 <= opcode <= OP_PUSHDATA4
    /\ GetOp2 (push_header b ++ b ++ tail) 0
       = (true, length (push_header b ++ b), opcode, b).
Proof.
  intros Hsize. unfold push_header.
  set (size := Z.of_nat (length b)) in *.
  assert (Hb : take (Z.to_nat size) (b ++ tail) = b).
  { subst size. rewrite Nat2Z.id, take_app_length. reflexivity. }
  assert (Hlen : Z.to_nat size = length b) by (subst size; apply Nat2Z.id).
  assert (H2v : size <= 0xffff -> le_value (le_bytes 2 size) = size).
  { intros H. rewrite le_value_le_bytes. apply Z.mod_small.
    change (256 ^ Z.of_nat 2) with 65536. lia. }
  assert (H4v : le_value (le_bytes 4 size) = size).
  { rewrite le_value_le_bytes. apply Z.mod_small.
    change (256 ^ Z.of_nat 4) with (2 ^ 32). lia. }
  cbn [le_bytes] in H2v, H4v.
  unfold OP_PUSHDATA1, OP_PUSHDATA2, OP_PUSHDATA4 in *.
  destruct (Z.ltb_spec size 0x4c) as [H1|H1];
    [|destruct (Z.leb_spec size 0xff) as [H2|H2];
      [|destruct (Z.leb_spec size 0xffff) as [H3|H3]]].
  - exists size. split; [lia|].
    unfold GetOp2, byte_at. cbn [app length Nat.leb lookup list_lookup].
    rewrite uchar_to_uchar, Z.mod_small by lia.
    unfold OP_PUSHDATA4, OP_PUSHDATA1.
    destruct (Z.leb_spec size 0x4e); [|lia].
    destruct (Z.ltb_spec size 0x4c); [|lia].
    rewrite length_app. cbn [skipn firstn Nat.add]. rewrite drop_0, Hb, Hlen.
    destruct (Z.ltb_spec (Z.of_nat (S (length b + length tail) - 1)) size); [lia|].
    reflexivity.
  - exists 0x4c. split; [lia|].
    unfold GetOp2, byte_at. cbn [app length Nat.leb lookup list_lookup].
    rewrite !uchar_to_uchar, (Z.mod_small size) by lia.
    unfold OP_PUSHDATA4, OP_PUSHDATA1, OP_PUSHDATA2.
    change (0x4c mod 256 <=? 0x4e) with true. change (0x4c mod 256 <? 0x4c) with false.
    change (0x4c mod 256 =? 0x4c) with true. cbv iota.
    rewrite length_app.
    destruct (Nat.ltb_spec (S (S (length b + length tail)) - 1) 1); [lia|].
    cbn [skipn firstn Nat.add]. rewrite drop_0, Hb, Hlen.
    destruct (Z.ltb_spec (Z.of_nat (S (S (length b + length tail)) - 2)) size); [lia|].
    reflexivity.
  - exists 0x4d. split; [lia|]. cbn [le_bytes].
    unfold GetOp2, byte_at. cbn [app length Nat.leb lookup list_lookup].
    rewrite uchar_to_uchar.
    unfold OP_PUSHDATA4, OP_PUSHDATA1, OP_PUSHDATA2.
    change (0x4d mod 256 <=? 0x4e) with true. change (0x4d mod 256 <? 0x4c) with false.
    change (0x4d mod 256 =? 0x4c) with false. change (0x4d mod 256 =? 0x4d) with true.
    cbv iota. rewrite length_app.
    destruct (Nat.ltb_spec (S (S (S (length b + length tail))) - 1) 2); [lia|].
    cbn [skipn firstn Nat.add]. rewrite take_0, drop_0, (H2v H3), Hb, Hlen.
    destruct (Z.ltb_spec (Z.of_nat (S (S (S (length b + length tail))) - 3)) size); [lia|].
    reflexivity.
  - exists 0x4e. split; [lia|]. cbn [le_bytes].
    unfold GetOp2, byte_at. cbn [app length Nat.leb lookup list_lookup].
    rewrite uchar_to_uchar.
    unfold OP_PUSHDATA4, OP_PUSHDATA1, OP_PUSHDATA2.
    change (0x4e mod 256 <=? 0x4e) with true. change (0x4e mod 256 <? 0x4c) with false.
    change (0x4e mod 256 =? 0x4c) with false. change (0x4e mod 256 =? 0x4d) with false.
    change (0x4e mod 256 =? 0x4e) with true.
    cbv iota. rewrite length_app.
    destruct (Nat.ltb_spec (S (S (S (S (S (length b + length tail))))) - 1) 4); [lia|].
    cbn [skipn firstn Nat.add]. rewrite take_0, drop_0, H4v, Hb, Hlen.
    destruct (Z.ltb_spec (Z.of_nat (S (S (S (S (S (length b + length tail))))) - 5)) size);
      [lia|].
    reflexivity.
Qed.

(** X17. What [operator<<] pushes, [GetOp2] reads back: for data of less
    than 2^32 bytes pushed at the end of [script], with anything behind it,
    a read at the place of the push returns true, the data, a push opcode,
    and the place behind the data. *)
Theorem GetOp2_push_data (script b rest : list byte) :
  Z.of_nat (length b) < 2 ^ 32 ->
  exists opcode,
    0 <= opcode <= OP_PUSHDATA4
    /\ GetOp2 (push_data script b ++ rest) (length script)
       = (true, length (push_data script b), opcode, b).
Proof.
  intros Hsize. destruct (GetOp2_header b rest Hsize) as (opcode & Hop & Hget).
  exists opcode. split; [exact Hop|].
  rewrite push_data_header, <- !app_assoc.
  replace (length script) with (length script + 0)%nat at 1 by lia.
  rewrite GetOp2_app, Hget, !length_app. reflexivity.
Qed.

(** What a read at [pc] returns, and where it leaves [pc]. *)
Lemma GetOp2_moves (script : list byte) (pc : nat) :
  let '(fRet, pc', opcode, vch) := GetOp2 script pc in
  (pc <= pc' <= Nat.max pc (length script))%nat
  /\ (fRet = true ->
      (pc < pc')%nat /\ opcode = byte_at script pc
      /\ (length vch < pc' - pc)%nat
      /\ vch = drop (pc' - length vch) (take pc' script)
      /\ (OP_PUSHDATA4 < opcode -> vch = []))
  /\ (fRet = false -> opcode = OP_INVALIDOPCODE /\ vch = []).
Proof.
  unfold GetOp2.
  destruct (Nat.leb_spec (length script) pc) as [Hend|Hend].
  { split; [lia|]. split; [discriminate|]. intros _. split; reflexivity. }
  destruct (Z.leb_spec (byte_at script pc) OP_PUSHDATA4) as [Hpush|Hpush].
  2:{ split; [lia|]. split; [|discriminate]. intros _.
      split; [lia|]. split; [reflexivity|]. cbn [length]. split; [lia|].
      split; [|reflexivity]. rewrite drop_ge; [reflexivity|]. rewrite length_take. lia. }
  pose proof (byte_at_range script pc) as Hb0.
  pose proof (byte_at_range script (S pc)) as Hb1.
  pose proof (le_value_range (take 2 (drop (S pc) script))) as Hb2.
  pose proof (le_value_range (take 4 (drop (S pc) script))) as Hb4.
  assert (Hfail : forall p : nat, (S pc <= p <= length script)%nat ->
            (pc <= p <= Nat.max pc (length script))%nat
            /\ (false = true ->
                (pc < p)%nat /\ OP_INVALIDOPCODE = byte_at script pc
                /\ (@length byte [] < p - pc)%nat
                /\ [] = drop (p - @length byte []) (take p script)
                /\ (OP_PUSHDATA4 < OP_INVALIDOPCODE -> @nil byte = []))
            /\ (false = false -> OP_INVALIDOPCODE = OP_INVALIDOPCODE /\ @nil byte = [])).
  { intros p Hp. split; [lia|]. split; [discriminate|]. intros _. split; reflexivity. }
  assert (Hseg : forall (p : nat) (n : Z), 0 <= n -> (S pc <= p <= length script)%nat ->
            let '(fRet, pc', opcode, vch) :=
              if Z.of_nat (length script - p) <? n
              then (false, p, OP_INVALIDOPCODE, [])
              else (true, (p + Z.to_nat n)%nat, byte_at script pc,
                    take (Z.to_nat n) (drop p script)) in
            (pc <= pc' <= Nat.max pc (length script))%nat
            /\ (fRet = true ->
                (pc < pc')%nat /\ opcode = byte_at script pc
                /\ (length vch < pc' - pc)%nat
                /\ vch = drop (pc' - length vch) (take pc' script)
                /\ (OP_PUSHDATA4 < opcode -> vch = []))
            /\ (fRet = false -> opcode = OP_INVALIDOPCODE /\ vch = [])).
  { intros p n Hn Hp.
    destruct (Z.ltb_spec (Z.of_nat (length script - p)) n) as [Hfit|Hfit];
      [apply Hfail; exact Hp|].
    assert (Hlen : length (take (Z.to_nat n) (drop p script)) = Z.to_nat n).
    { rewrite length_take, length_drop. lia. }
    split; [lia|]. split; [|discriminate]. intros _.
    rewrite Hlen. split; [lia|]. split; [reflexivity|]. split; [lia|]. split; [|lia].
    replace (p + Z.to_nat n - Z.to_nat n)%nat with p by lia.
    rewrite take_drop_commute. reflexivity. }
  destruct (byte_at script pc <? OP_PUSHDATA1) eqn:H1.
  { apply Hseg; lia. }
  destruct (byte_at script pc =? OP_PUSHDATA1).
  { destruct (Nat.ltb_spec (length script - S pc) 1); [apply Hfail; lia|].
    apply Hseg; lia. }
  destruct (byte_at script pc =? OP_PUSHDATA2).
  { destruct (Nat.ltb_spec (length script - S pc) 2); [apply Hfail; lia|].
    apply Hseg; lia. }
  destruct (byte_at script pc =? OP_PUSHDATA4).
  { destruct (Nat.ltb_spec (length script - S pc) 4); [apply Hfail; lia|].
    apply Hseg; lia. }
  apply Hseg; lia.
Qed.

(** A successful read is not changed by what follows the script. *)
Lemma GetOp2_extend (s t : list byte) (pc pc' : nat) (opcode : Z) (vch : list byte) :
  GetOp2 s pc = (true, pc', opcode, vch) ->
  GetOp2 (s ++ t) pc = (true, pc', opcode, vch).
Proof.
  unfold GetOp2. rewrite length_app.
  destruct (Nat.leb_spec (length s) pc) as [Hend|Hend]; [discriminate|].
  destruct (Nat.leb_spec (length s + length t) pc); [lia|].
  assert (Hat : forall k, (k < length s)%nat -> byte_at (s ++ t) k = byte_at s k).
  { intros k Hk. unfold byte_at. rewrite lookup_app_l by lia. reflexivity. }
  rewrite (Hat pc) by lia.
  destruct (byte_at s pc <=? OP_PUSHDATA4); [|tauto].
  assert (Hseg : forall (p : nat) (n : Z), 0 <= n -> (p <= length s)%nat ->
            (if Z.of_nat (length s - p) <? n
             then (false, p, OP_INVALIDOPCODE, [])
             else (true, (p + Z.to_nat n)%nat, byte_at s pc, take (Z.to_nat n) (drop p s)))
            = (true, pc', opcode, vch) ->
            (if Z.of_nat (length s + length t - p) <? n
             then (false, p, OP_INVALIDOPCODE, [])
             else (true, (p + Z.to_nat n)%nat, byte_at s pc,
                   take (Z.to_nat n) (drop p (s ++ t))))
            = (true, pc', opcode, vch)).
  { intros p n Hn Hp.
    destruct (Z.ltb_spec (Z.of_nat (length s - p)) n); [discriminate|].
    destruct (Z.ltb_spec (Z.of_nat (length s + length t - p)) n); [lia|].
    intros <-. f_equal. rewrite drop_app_le by lia.
    rewrite take_app_le; [reflexivity|]. rewrite length_drop. lia. }
  pose proof (byte_at_range s pc) as Hb0.
  pose proof (byte_at_range s (S pc)) as Hb1.
  pose proof (le_value_range (take 2 (drop (S pc) s))) as Hb2.
  pose proof (le_value_range (take 4 (drop (S pc) s))) as Hb4.
  destruct (byte_at s pc <? OP_PUSHDATA1).
  { apply Hseg; lia. }
  destruct (byte_at s pc =? OP_PUSHDATA1).
  { destruct (Nat.ltb_spec (length s - S pc) 1); [discriminate|].
    destruct (Nat.ltb_spec (length s + length t - S pc) 1); [lia|].
    rewrite Hat by lia. apply Hseg; lia. }
  destruct (byte_at s pc =? OP_PUSHDATA2).
  { destruct (Nat.ltb_spec (length s - S pc) 2); [discriminate|].
    destruct (Nat.ltb_spec (length s + length t - S pc) 2); [lia|].
    rewrite drop_app_le by lia. rewrite take_app_le by (rewrite length_drop; lia).
    apply Hseg; lia. }
  destruct (byte_at s pc =? OP_PUSHDATA4).
  { destruct (Nat.ltb_spec (length s - S pc) 4); [discriminate|].
    destruct (Nat.ltb_spec (length s + length t - S pc) 4); [lia|].
    rewrite drop_app_le by lia. rewrite take_app_le by (rewrite length_drop; lia).
    apply Hseg; lia. }
  apply Hseg; lia.
Qed.

(** More rounds do not change a result. *)
Lemma IsPushOnly_loop_fuel (fuel fuel' : nat) (script : list byte) (pc : nat) (r : bool) :
  IsPushOnly_loop fuel script pc = Some r -> (fuel <= fuel')%nat ->
  IsPushOnly_loop fuel' script pc = Some r.
Proof.
  revert fuel' pc. induction fuel as [|fuel IH]; intros fuel' pc H Hle.
  - destruct fuel'; [exact H|]. cbn [IsPushOnly_loop] in *.
    destruct (pc <? length script)%nat; [discriminate|exact H].
  - destruct fuel' as [|fuel']; [lia|]. cbn [IsPushOnly_loop] in *.
    destruct (pc <? length script)%nat; [|exact H].
    destruct (GetOp2 script pc) as [[[fRet pc'] opcode] vch].
    destruct (negb fRet); [exact H|].
    destruct (OP_16 <? opcode); [exact H|].
    apply IH; [exact H|lia].
Qed.

(** The loop is done within as many rounds as bytes are left. *)
Lemma IsPushOnly_loop_total (fuel : nat) (script : list byte) (pc : nat) :
  (length script - pc <= fuel)%nat ->
  exists r, IsPushOnly_loop fuel script pc = Some r.
Proof.
  revert pc. induction fuel as [|fuel IH]; intros pc Hfuel.
  - cbn [IsPushOnly_loop]. destruct (Nat.ltb_spec pc (length script)); [lia|].
    exists true. reflexivity.
  - cbn [IsPushOnly_loop]. destruct (Nat.ltb_spec pc (length script)); [|exists true; reflexivity].
    pose proof (GetOp2_moves script pc) as Hb.
    destruct (GetOp2 script pc) as [[[fRet pc'] opcode] vch].
    destruct Hb as (Hpc & Hok & _).
    destruct fRet; cbn [negb]; [|exists false; reflexivity].
    destruct (OP_16 <? opcode); [exists false; reflexivity|].
    destruct (Hok eq_refl) as (Hlt & _). apply IH. lia.
Qed.

(** [IsPushOnly] is done within the rounds granted to it. *)
Lemma IsPushOnly_total (script : list byte) : exists r, IsPushOnly script = Some r.
Proof. apply IsPushOnly_loop_total. lia. Qed.

Lemma IsPushOnly_loop_app_r (fuel : nat) (s t : list byte) (k : nat) :
  IsPushOnly_loop fuel (s ++ t) (length s + k) = IsPushOnly_loop fuel t k.
Proof.
  revert k. induction fuel as [|fuel IH]; intros k; cbn [IsPushOnly_loop];
    rewrite length_app;
    replace (length s + k <? length s + length t)%nat with (k <? length t)%nat
      by (destruct (Nat.ltb_spec k (length t)), (Nat.ltb_spec (length s + k) (length s + length t));
          lia || reflexivity);
    [reflexivity|].
  destruct (k <? length t)%nat; [|reflexivity].
  rewrite GetOp2_app.
  destruct (GetOp2 t k) as [[[fRet pc'] opcode] vch].
  destruct (negb fRet); [reflexivity|].
  destruct (OP_16 <? opcode); [reflexivity|]. apply IH.
Qed.

Lemma IsPushOnly_loop_app_l (fuel fuel' : nat) (s t : list byte) (pc : nat) (r : bool) :
  IsPushOnly_loop fuel s pc = Some true -> (pc <= length s)%nat ->
  IsPushOnly_loop fuel' t 0 = Some r ->
  IsPushOnly_loop (fuel + fuel') (s ++ t) pc = Some r.
Proof.
  revert pc. induction fuel as [|fuel IH]; intros pc Hs Hpc Ht.
  - cbn [IsPushOnly_loop] in Hs.
    destruct (Nat.ltb_spec pc (length s)); [discriminate|].
    replace pc with (length s + 0)%nat by lia.
    rewrite IsPushOnly_loop_app_r. exact Ht.
  - cbn [IsPushOnly_loop] in Hs.
    destruct (Nat.ltb_spec pc (length s)) as [Hlt|Hge].
    + cbn [Nat.add IsPushOnly_loop]. rewrite length_app.
      destruct (Nat.ltb_spec pc (length s + length t)); [|lia].
      pose proof (GetOp2_moves s pc) as Hb.
      destruct (GetOp2 s pc) as [[[fRet pc'] opcode] vch] eqn:Hget.
      destruct fRet; [|discriminate]. cbn [negb] in Hs.
      rewrite (GetOp2_extend s t pc pc' opcode vch Hget). cbn [negb].
      destruct (OP_16 <? opcode); [discriminate|].
      apply IH; [exact Hs| |exact Ht]. lia.
    + replace pc with (length s + 0)%nat by lia.
      rewrite IsPushOnly_loop_app_r.
      apply (IsPushOnly_loop_fuel fuel'); [exact Ht|lia].
Qed.

(** X18. [GetOp2] stays in the script and moves on: [pc] never goes
    back and never passes [end()]. A read that returns true has moved [pc]
    forward, returns the byte at [pc] as opcode, and returns as data the
    bytes that end where [pc] now stands, fewer than it moved over, and
    none for an opcode above [OP_PUSHDATA4]. A read that returns false
    returns [OP_INVALIDOPCODE] and no data. *)
Theorem GetOp2_bounds (script : list byte) (pc : nat) :
  let '(fRet, pc', opcode, vch) := GetOp2 script pc in
  (pc <= pc' <= Nat.max pc (length script))%nat
  /\ (fRet = true ->
      (pc < pc')%nat /\ opcode = byte_at script pc
      /\ (length vch < pc' - pc)%nat
      /\ vch = drop (pc' - length vch) (take pc' script)
      /\ (OP_PUSHDATA4 < opcode -> vch = []))
  /\ (fRet = false -> opcode = OP_INVALIDOPCODE /\ vch = []).
Proof. exact (GetOp2_moves script pc). Qed.

(** X21. Behind a script of pushes only, a script is push-only exactly
    when it is so by itself: [operator+] of two push-only scripts is
    push-only. *)
Theorem IsPushOnly_app (s t : list byte) :
  IsPushOnly s = Some true -> IsPushOnly (s ++ t) = IsPushOnly t.
Proof.
  intros Hs. destruct (IsPushOnly_total t) as [r Ht]. rewrite Ht.
  unfold IsPushOnly in *. rewrite length_app.
  apply IsPushOnly_loop_app_l; [exact Hs|lia|exact Ht].
Qed.

(** X22. Pushing data of less than 2^32 bytes onto a script of pushes
    only leaves a script of pushes only. *)
Theorem IsPushOnly_push_data (script b : list byte) :
  Z.of_nat (length b) < 2 ^ 32 ->
  IsPushOnly script = Some true -> IsPushOnly (push_data script b) = Some true.
Proof.
  intros Hsize Hs. rewrite push_data_header.
  assert (Happ : IsPushOnly (script ++ push_header b ++ b) = IsPushOnly (push_header b ++ b)).
  { destruct (IsPushOnly_total (push_header b ++ b)) as [r Ht]. rewrite Ht.
    unfold IsPushOnly in *. rewrite length_app.
    apply IsPushOnly_loop_app_l; [exact Hs|lia|exact Ht]. }
  rewrite Happ.
  destruct (GetOp2_header b [] Hsize) as (opcode & Hop & Hget).
  rewrite !app_nil_r in Hget.
  unfold IsPushOnly.
  destruct (length (push_header b ++ b)) as [|n] eqn:Hlen.
  - cbn [IsPushOnly_loop]. rewrite Hlen. reflexivity.
  - cbn [IsPushOnly_loop]. rewrite Hlen. cbn [Nat.ltb Nat.leb].
    rewrite Hget. cbn [negb].
    unfold OP_16, OP_PUSHDATA4 in *. destruct (Z.ltb_spec 0x60 opcode); [lia|].
    destruct n; cbn [IsPushOnly_loop]; rewrite Hlen, Nat.ltb_irrefl; reflexivity.
Qed.

(** X19. [EncodeOP_N] and [DecodeOP_N] are inverse to each other, each
    where its assertion holds: the one maps [n] to [opcode] exactly when
    the other maps [opcode] to [n]. *)
Theorem EncodeOP_N_DecodeOP_N (n opcode : Z) :
  EncodeOP_N n = Some opcode <-> DecodeOP_N opcode = Some n.
Proof.
  unfold EncodeOP_N, DecodeOP_N, OP_0, OP_1, OP_16. split.
  - destruct (Z.leb_spec 0 n), (Z.leb_spec n 16); cbn [andb]; try discriminate.
    destruct (Z.eqb_spec n 0); intros [= <-].
    + subst n. reflexivity.
    + destruct (Z.eqb_spec (0x51 + n - 1) 0); [lia|].
      destruct (Z.leb_spec 0x51 (0x51 + n - 1)), (Z.leb_spec (0x51 + n - 1) 0x60);
        cbn [andb]; try lia. f_equal. lia.
  - destruct (Z.eqb_spec opcode 0).
    + intros [= <-]. subst opcode. reflexivity.
    + destruct (Z.leb_spec 0x51 opcode), (Z.leb_spec opcode 0x60); cbn [andb];
        try discriminate.
      intros [= <-].
      destruct (Z.leb_spec 0 (opcode - (0x51 - 1))), (Z.leb_spec (opcode - (0x51 - 1)) 16);
        cbn [andb]; try lia.
      destruct (Z.eqb_spec (opcode - (0x51 - 1)) 0); [lia|]. f_equal. lia.
Qed.

Section PushIntProperties.
Variable getvch : Z -> list byte.

(** X20. An integer from 1 to 16 is pushed as a single opcode: a read at
    the place of the push returns it without data, and [DecodeOP_N] maps it
    back to the integer. *)
Theorem push_int64_small (script rest : list byte) (n : Z) :
  1 <= n <= 16 ->
  exists opcode,
    GetOp2 (push_int64 getvch script n ++ rest) (length script)
      = (true, length (push_int64 getvch script n), opcode, [])
    /\ DecodeOP_N opcode = Some n.
Proof.
  intros Hn. exists (OP_1 + n - 1). unfold push_int64.
  destruct (Z.leb_spec 1 n), (Z.leb_spec n 16); try lia.
  rewrite orb_true_r. split.
  - rewrite <- app_assoc.
    replace (length script) with (length script + 0)%nat at 1 by lia.
    rewrite GetOp2_app, length_app. cbn [app length].
    unfold GetOp2, byte_at. cbn [length Nat.leb lookup list_lookup].
    rewrite uchar_to_uchar. unfold OP_1, OP_PUSHDATA4 in *.
    rewrite Z.mod_small by lia.
    destruct (Z.leb_spec (n + (0x51 - 1)) 0x4e); [lia|].
    repeat f_equal; lia.
  - unfold DecodeOP_N, OP_0, OP_1, OP_16.
    destruct (Z.eqb_spec (0x51 + n - 1) 0); [lia|].
    destruct (Z.leb_spec 0x51 (0x51 + n - 1)), (Z.leb_spec (0x51 + n - 1) 0x60);
      cbn [andb]; try lia.
    f_equal. lia.
Qed.

End PushIntProperties.

(** ** Serialization *)

Lemma ser_readdata_le_bytes (n : nat) (v : Z) (rest : list byte) :
  0 <= v < 256 ^ Z.of_nat n ->
  ser_readdata n (le_bytes n v ++ rest) = inr (v, rest).
Proof.
  intros Hv. unfold ser_readdata. rewrite length_app, le_bytes_length.
  destruct (Nat.ltb_spec (n + length rest) n); [lia|].
  rewrite take_app_length', drop_app_length' by (symmetry; apply le_bytes_length).
  rewrite le_value_le_bytes, Z.mod_small by lia. reflexivity.
Qed.

Lemma ser_readdata_inv (n : nat) (s rest : list byte) (v : Z) :
  ser_readdata n s = inr (v, rest) ->
  s = le_bytes n v ++ rest /\ 0 <= v < 256 ^ Z.of_nat n.
Proof.
  unfold ser_readdata. destruct (Nat.ltb_spec (length s) n); [discriminate|].
  intros [= <- <-].
  assert (Hlen : length (take n s) = n) by (rewrite length_take; lia).
  pose proof (le_value_range (take n s)) as Hr. rewrite Hlen in Hr.
  split; [|exact Hr].
  rewrite <- Hlen at 1. rewrite le_bytes_le_value, take_drop. reflexivity.
Qed.

(** X25. [WriteCompactSize] appends as many bytes as
    [GetSizeOfCompactSize] says. *)
Theorem GetSizeOfCompactSize_WriteCompactSize (os : list byte) (nSize : Z) :
  Z.of_nat (length (WriteCompactSize os nSize))
  = Z.of_nat (length os) + GetSizeOfCompactSize nSize.
Proof.
  unfold WriteCompactSize, GetSizeOfCompactSize, ser_writedata8, ser_writedata16,
    ser_writedata32, ser_writedata64.
  repeat destruct (_ : bool); rewrite ?length_app, ?le_bytes_length; cbn [length]; lia.
Qed.

(** X23. [ReadCompactSize] reads back what [WriteCompactSize] wrote, and
    leaves what follows it in the stream, for every size up to [MAX_SIZE];
    a greater size of 64 bits is written, and refused when read. *)
Theorem ReadCompactSize_WriteCompactSize (nSize : Z) (rest : list byte) :
  0 <= nSize < 2 ^ 64 ->
  ReadCompactSize (WriteCompactSize [] nSize ++ rest)
  = if MAX_SIZE <? nSize then inl size_too_large else inr (nSize, rest).
Proof.
  intros Hn. unfold WriteCompactSize, ser_writedata8, ser_writedata16, ser_writedata32,
    ser_writedata64.
  assert (H1 : forall v tail, 0 <= v < 256 ->
            ser_readdata8 (to_uchar v :: tail) = inr (v, tail)).
  { intros v tail Hv. apply (ser_readdata_le_bytes 1 v tail). exact Hv. }
  unfold ReadCompactSize.
  destruct (Z.ltb_spec nSize 253) as [Ha|Ha];
    [|destruct (Z.leb_spec nSize 0xffff) as [Hb|Hb];
      [|destruct (Z.leb_spec nSize 0xffffffff) as [Hc|Hc]]];
    cbn [app]; rewrite H1 by lia.
  - destruct (Z.ltb_spec nSize 253); [reflexivity|lia].
  - change (253 <? 253) with false. change (253 =? 253) with true. cbv iota.
    unfold ser_readdata16. rewrite ser_readdata_le_bytes by (change (256 ^ Z.of_nat 2) with 65536; lia).
    destruct (Z.ltb_spec nSize 253); [lia|reflexivity].
  - change (254 <? 253) with false. change (254 =? 253) with false.
    change (254 =? 254) with true. cbv iota.
    unfold ser_readdata32.
    rewrite ser_readdata_le_bytes by (change (256 ^ Z.of_nat 4) with 4294967296; lia).
    destruct (Z.ltb_spec nSize 0x10000); [lia|reflexivity].
  - change (255 <? 253) with false. change (255 =? 253) with false.
    change (255 =? 254) with false. cbv iota.
    unfold ser_readdata64.
    rewrite ser_readdata_le_bytes by (change (256 ^ Z.of_nat 8) with (2 ^ 64); lia).
    destruct (Z.ltb_spec nSize 0x100000000); [lia|reflexivity].
Qed.

(** X24. [ReadCompactSize] accepts only what [WriteCompactSize] writes:
    when it returns a size, the size is at most [MAX_SIZE] and the stream
    started with the encoding of the size, the rest being what the read
    left. No size has two accepted encodings. *)
Theorem ReadCompactSize_canonical (is_ rest : list byte) (nSize : Z) :
  ReadCompactSize is_ = inr (nSize, rest) ->
  0 <= nSize <= MAX_SIZE /\ is_ = WriteCompactSize [] nSize ++ rest.
Proof.
  unfold ReadCompactSize, ser_readdata8, ser_readdata16, ser_readdata32, ser_readdata64.
  destruct (ser_readdata 1 is_) as [e|[chSize s1]] eqn:Hfirst; [discriminate|].
  apply ser_readdata_inv in Hfirst. destruct Hfirst as [-> Hch].
  change (256 ^ Z.of_nat 1) with 256 in Hch. cbn [le_bytes app].
  unfold WriteCompactSize, ser_writedata8, ser_writedata16, ser_writedata32, ser_writedata64,
    MAX_SIZE.
  destruct (Z.ltb_spec chSize 253) as [Ha|Ha].
  { destruct (Z.ltb_spec 0x02000000 chSize); [discriminate|]. intros [= <- <-].
    destruct (Z.ltb_spec chSize 253); [|lia]. split; [lia|reflexivity]. }
  destruct (Z.eqb_spec chSize 253) as [->|Hb].
  { destruct (ser_readdata 2 s1) as [e|[v s2]] eqn:Hread; [discriminate|].
    apply ser_readdata_inv in Hread. destruct Hread as [-> Hv].
    change (256 ^ Z.of_nat 2) with 65536 in Hv.
    destruct (Z.ltb_spec v 253); [discriminate|].
    destruct (Z.ltb_spec 0x02000000 v); [discriminate|]. intros [= <- <-].
    destruct (Z.ltb_spec v 253); [lia|].
    destruct (Z.leb_spec v 0xffff); [|lia]. split; [lia|reflexivity]. }
  destruct (Z.eqb_spec chSize 254) as [->|Hc].
  { destruct (ser_readdata 4 s1) as [e|[v s2]] eqn:Hread; [discriminate|].
    apply ser_readdata_inv in Hread. destruct Hread as [-> Hv].
    change (256 ^ Z.of_nat 4) with 4294967296 in Hv.
    destruct (Z.ltb_spec v 0x10000); [discriminate|].
    destruct (Z.ltb_spec 0x02000000 v); [discriminate|]. intros [= <- <-].
    destruct (Z.ltb_spec v 253); [lia|].
    destruct (Z.leb_spec v 0xffff); [lia|].
    destruct (Z.leb_spec v 0xffffffff); [|lia]. split; [lia|reflexivity]. }
  destruct (ser_readdata 8 s1) as [e|[v s2]] eqn:Hread; [discriminate|].
  destruct (Z.ltb_spec v 0x100000000); [discriminate|].
  destruct (Z.ltb_spec 0x02000000 v); [discriminate|lia].
Qed.

Lemma lor_shiftl_low (a b k : Z) :
  0 <= k -> 0 <= b < 2 ^ k -> Z.lor (Z.shiftl a k) b = a * 2 ^ k + b.
Proof.
  intros Hk Hb.
  assert (Hland : Z.land (Z.shiftl a k) b = 0).
  { apply Z.bits_inj'. intros i Hi. rewrite Z.land_spec, Z.bits_0.
    destruct (Z.lt_ge_cases i k) as [Hlt|Hge].
    - rewrite Z.shiftl_spec_low by lia. reflexivity.
    - rewrite <- (Z.mod_small b (2 ^ k)) by lia.
      rewrite Z.mod_pow2_bits_high by lia. apply andb_false_r. }
  rewrite <- Z.lxor_lor by exact Hland.
  rewrite <- Z.add_nocarry_lxor by exact Hland.
  rewrite Z.shiftl_mul_pow2 by lia. reflexivity.
Qed.

Lemma varint_byte (n : Z) (flag : bool) :
  let x := Z.lor (Z.land n 0x7F) (if flag then 0x80 else 0x00) in
  uchar (to_uchar x) = n mod 128 + (if flag then 128 else 0).
Proof.
  cbv zeta. change 0x7F with (Z.ones 7). rewrite Z.land_ones by lia.
  change (2 ^ 7) with 128.
  pose proof (Z.mod_pos_bound n 128 ltac:(lia)) as Hr.
  rewrite uchar_to_uchar. destruct flag.
  - rewrite Z.lor_comm.
    change (Z.lor 0x80 (n mod 128)) with (Z.lor (Z.shiftl 1 7) (n mod 128)).
    rewrite lor_shiftl_low by (change (2 ^ 7) with 128; lia).
    change (2 ^ 7) with 128. rewrite Z.mod_small; lia.
  - rewrite Z.lor_0_r, Z.mod_small; lia.
Qed.

Lemma varint_step (acc chData : Z) :
  0 <= chData < 256 ->
  Z.lor (Z.shiftl acc 7) (Z.land chData 0x7F) = acc * 128 + chData mod 128
  /\ (Z.land chData 0x80 =? 0) = (chData <? 128).
Proof.
  intros Hc. split.
  - change 0x7F with (Z.ones 7). rewrite Z.land_ones by lia.
    change (2 ^ 7) with 128.
    pose proof (Z.mod_pos_bound chData 128 ltac:(lia)) as Hr.
    rewrite lor_shiftl_low by (change (2 ^ 7) with 128; lia). reflexivity.
  - assert (E : chData = uchar (to_uchar chData))
      by (rewrite uchar_to_uchar, Z.mod_small; lia).
    rewrite E. generalize (to_uchar chData). intros b. destruct b; reflexivity.
Qed.

Lemma foldl_ser_writedata8 (os l : list byte) :
  foldl ser_writedata8 os (map uchar l) = os ++ l.
Proof.
  revert os. induction l as [|b l IH]; intros os; cbn [map foldl].
  - rewrite app_nil_r. reflexivity.
  - rewrite IH. unfold ser_writedata8. rewrite to_uchar_uchar, <- app_assoc. reflexivity.
Qed.

Section VarIntProperties.
Variable bits : Z.

Lemma WriteVarInt_fill_acc (room : nat) (n : Z) (len : nat) (tmp : list byte) :
  WriteVarInt_fill room n len tmp
  = option_map (app tmp) (WriteVarInt_fill room n len []).
Proof.
  revert n len tmp. induction room as [|room IH]; intros n len tmp; [reflexivity|].
  cbn [WriteVarInt_fill app].
  destruct (n <=? 0x7F); [reflexivity|].
  rewrite IH, (IH _ _ [_]).
  destruct (WriteVarInt_fill room _ _ []); cbn [option_map]; [|reflexivity].
  rewrite <- app_assoc. reflexivity.
Qed.

(** The bytes written for all but the last digit carry the continuation
    bit: read back from an empty accumulator, they leave the reader at the
    digit's value plus one. *)
Lemma ReadVarInt_loop_digits (room : nat) (m : Z) (len : nat) (out rest : list byte) :
  (1 <= len)%nat -> 0 <= m < I_max bits ->
  WriteVarInt_fill room m len [] = Some out ->
  ReadVarInt_loop bits (rev out ++ rest) 0 = ReadVarInt_loop bits rest (m + 1).
Proof.
  revert m len out rest. induction room as [|room IH]; intros m len out rest Hlen Hm Hfill;
    [discriminate|].
  cbn [WriteVarInt_fill app] in Hfill.
  destruct (Nat.eqb_spec len 0) as [|_]; [lia|].
  pose proof (varint_byte m true) as Hbyte. cbv zeta in Hbyte.
  set (b0 := to_uchar (Z.lor (Z.land m 0x7F) 0x80)) in *.
  pose proof (Z.mod_pos_bound m 128 ltac:(lia)) as Hr.
  assert (Hstep : forall acc, 0 <= acc -> acc * 128 + m mod 128 = m ->
            ReadVarInt_loop bits (b0 :: rest) acc = ReadVarInt_loop bits rest (m + 1)).
  { intros acc Hacc Hval. cbn [ReadVarInt_loop].
    destruct (varint_step acc (uchar b0) (uchar_range b0)) as [Hv Hflag].
    rewrite Hv, Hflag, Hbyte.
    replace ((m mod 128 + 128) mod 128) with (m mod 128)
      by (rewrite <- Z.add_mod_idemp_r, Z.mod_same, Z.add_0_r, Z.mod_mod by lia; reflexivity).
    rewrite Hval.
    destruct (Z.ltb_spec (Z.shiftr (I_max bits) 7) acc) as [Hbig|_].
    { exfalso. rewrite Z.shiftr_div_pow2 in Hbig by lia. change (2 ^ 7) with 128 in Hbig.
      assert (I_max bits / 128 < m / 128) by (apply Z.lt_le_trans with acc; [lia|];
        apply Z.div_le_lower_bound; lia).
      pose proof (Z.div_le_mono m (I_max bits) 128 ltac:(lia) ltac:(lia)). lia. }
    destruct (Z.ltb_spec (m mod 128 + 128) 128); [lia|]. cbn [negb].
    destruct (Z.eqb_spec m (I_max bits)); [lia|reflexivity]. }
  destruct (Z.leb_spec m 0x7F) as [Hsmall|Hbig].
  - injection Hfill as <-. cbn [rev app]. apply Hstep; [lia|].
    rewrite Z.mod_small; lia.
  - rewrite WriteVarInt_fill_acc in Hfill.
    destruct (WriteVarInt_fill room (Z.shiftr m 7 - 1) (S len) []) as [out'|] eqn:Hfill';
      [|discriminate].
    injection Hfill as <-. cbn [app rev]. rewrite <- app_assoc. cbn [app].
    rewrite Z.shiftr_div_pow2 in * by lia. change (2 ^ 7) with 128 in *.
    assert (128 <= m) by lia.
    assert (1 <= m / 128) by (apply Z.div_le_lower_bound; lia).
    assert (m / 128 <= m) by (apply Z.div_le_upper_bound; lia).
    rewrite (IH (m / 128 - 1) (S len) out' (b0 :: rest)) by (lia || exact Hfill').
    replace (m / 128 - 1 + 1) with (m / 128) by lia.
    apply Hstep; [lia|]. pose proof (Z.div_mod m 128). lia.
Qed.

(** The array has room for every value of the type. *)
Lemma WriteVarInt_fill_room (room : nat) (m : Z) (len : nat) (nRet : Z) :
  (1 <= room)%nat -> 0 <= m < 128 ^ Z.of_nat room ->
  exists out,
    WriteVarInt_fill room m len [] = Some out
    /\ (length out <= room)%nat
    /\ GetSizeOfVarInt_loop room m nRet = Some (nRet + Z.of_nat (length out)).
Proof.
  revert m len nRet. induction room as [|room IH]; intros m len nRet Hroom Hm; [lia|].
  cbn [WriteVarInt_fill GetSizeOfVarInt_loop app].
  destruct (Z.leb_spec m 0x7F) as [Hsmall|Hbig].
  - eexists. split; [reflexivity|]. cbn [length]. split; [lia|]. f_equal.
  - rewrite Nat2Z.inj_succ, Z.pow_succ_r in Hm by lia.
    rewrite Z.shiftr_div_pow2 by lia. change (2 ^ 7) with 128.
    assert (1 <= m / 128) by (apply Z.div_le_lower_bound; lia).
    assert (m / 128 < 128 ^ Z.of_nat room) by (apply Z.div_lt_upper_bound; lia).
    assert (Hroom' : (1 <= room)%nat).
    { destruct room; [|lia]. change (128 ^ Z.of_nat 0) with 1 in *. lia. }
    destruct (IH (m / 128 - 1) (S len) (nRet + 1) Hroom' ltac:(lia)) as (out & Hfill & Hlen & Hsize).
    rewrite WriteVarInt_fill_acc, Hfill. cbn [option_map].
    eexists. split; [reflexivity|]. cbn [app length]. split; [lia|].
    rewrite Hsize. f_equal. lia.
Qed.

Lemma tmp_size_room (n : Z) :
  0 < bits -> 0 <= n <= I_max bits ->
  (1 <= tmp_size bits)%nat /\ 0 <= n < 128 ^ Z.of_nat (tmp_size bits).
Proof.
  intros Hbits Hn. unfold tmp_size, I_max in *.
  assert (Hq : 1 <= (bits + 6) / 7) by (apply Z.div_le_lower_bound; lia).
  split; [lia|]. rewrite Z2Nat.id by lia.
  change 128 with (2 ^ 7). rewrite <- Z.pow_mul_r by lia.
  assert (bits <= 7 * ((bits + 6) / 7)).
  { pose proof (Z.div_mod (bits + 6) 7 ltac:(lia)).
    pose proof (Z.mod_pos_bound (bits + 6) 7 ltac:(lia)). lia. }
  assert (2 ^ bits <= 2 ^ (7 * ((bits + 6) / 7))) by (apply Z.pow_le_mono_r; lia).
  lia.
Qed.

(** X26. For an unsigned type of [bits] bits, [WriteVarInt] writes every
    value of the type without leaving [tmp], and [ReadVarInt] reads the
    value back and leaves what follows it in the stream. *)
Theorem ReadVarInt_WriteVarInt (n : Z) (rest : list byte) :
  0 < bits -> 0 <= n <= I_max bits ->
  exists bytes,
    WriteVarInt bits [] n = Some bytes
    /\ ReadVarInt bits (bytes ++ rest) = inr (n, rest).
Proof.
  intros Hbits Hn. unfold WriteVarInt, ReadVarInt.
  destruct (tmp_size_room n Hbits Hn) as [Hroom Hfit].
  destruct (WriteVarInt_fill_room (tmp_size bits) n 0 0 Hroom Hfit) as (tmp & Hfill & _ & _).
  rewrite Hfill, foldl_ser_writedata8. cbn [app].
  eexists. split; [reflexivity|].
  destruct (tmp_size bits) as [|room]; [discriminate|].
  cbn [WriteVarInt_fill app Nat.eqb] in Hfill.
  pose proof (varint_byte n false) as Hbyte. cbv zeta in Hbyte.
  set (b0 := to_uchar (Z.lor (Z.land n 0x7F) 0x00)) in *.
  pose proof (Z.mod_pos_bound n 128 ltac:(lia)) as Hr.
  assert (Hlast : forall acc, 0 <= acc -> acc * 128 + n mod 128 = n ->
            ReadVarInt_loop bits (b0 :: rest) acc = inr (n, rest)).
  { intros acc Hacc Hval. cbn [ReadVarInt_loop].
    destruct (varint_step acc (uchar b0) (uchar_range b0)) as [Hv Hflag].
    rewrite Hv, Hflag, Hbyte, Z.add_0_r, Z.mod_mod, Hval by lia.
    destruct (Z.ltb_spec (Z.shiftr (I_max bits) 7) acc) as [Hbig|_].
    { exfalso. rewrite Z.shiftr_div_pow2 in Hbig by lia. change (2 ^ 7) with 128 in Hbig.
      assert (I_max bits / 128 < n / 128) by (apply Z.lt_le_trans with acc; [lia|];
        apply Z.div_le_lower_bound; lia).
      pose proof (Z.div_le_mono n (I_max bits) 128 ltac:(lia) ltac:(lia)). lia. }
    destruct (Z.ltb_spec (n mod 128) 128); [reflexivity|lia]. }
  destruct (Z.leb_spec n 0x7F) as [Hsmall|Hbig].
  - injection Hfill as <-. cbn [rev app]. apply Hlast; [lia|].
    rewrite Z.mod_small; lia.
  - rewrite WriteVarInt_fill_acc in Hfill.
    destruct (WriteVarInt_fill room (Z.shiftr n 7 - 1) 1 []) as [out'|] eqn:Hfill';
      [|discriminate].
    injection Hfill as <-. cbn [app rev]. rewrite <- app_assoc. cbn [app].
    rewrite Z.shiftr_div_pow2 in * by lia. change (2 ^ 7) with 128 in *.
    assert (128 <= n) by lia.
    assert (1 <= n / 128) by (apply Z.div_le_lower_bound; lia).
    assert (n / 128 <= n) by (apply Z.div_le_upper_bound; lia).
    rewrite (ReadVarInt_loop_digits room (n / 128 - 1) 1 out' (b0 :: rest))
      by (lia || exact Hfill').
    replace (n / 128 - 1 + 1) with (n / 128) by lia.
    apply Hlast; [lia|]. pose proof (Z.div_mod n 128). lia.
Qed.

(** X27. [GetSizeOfVarInt] is the number of bytes that [WriteVarInt]
    appends, which is at least one and at most the length of [tmp]. *)
Theorem GetSizeOfVarInt_WriteVarInt (os : list byte) (n : Z) :
  0 < bits -> 0 <= n <= I_max bits ->
  exists bytes size,
    WriteVarInt bits os n = Some bytes
    /\ GetSizeOfVarInt bits n = Some size
    /\ Z.of_nat (length bytes) = Z.of_nat (length os) + size
    /\ 1 <= size <= (bits + 6) / 7.
Proof.
  intros Hbits Hn. unfold WriteVarInt, GetSizeOfVarInt.
  destruct (tmp_size_room n Hbits Hn) as [Hroom Hfit].
  destruct (WriteVarInt_fill_room (tmp_size bits) n 0 0 Hroom Hfit)
    as (tmp & Hfill & Hlen & Hsize).
  rewrite Hfill, Hsize, foldl_ser_writedata8.
  eexists _, _. split; [reflexivity|]. split; [reflexivity|].
  rewrite length_app, length_rev. split; [lia|].
  assert (tmp <> []).
  { destruct (tmp_size bits); [discriminate|]. cbn [WriteVarInt_fill] in Hfill.
    destruct (n <=? 0x7F).
    - injection Hfill as <-. discriminate.
    - rewrite WriteVarInt_fill_acc in Hfill.
      destruct (WriteVarInt_fill _ _ _ []); [|discriminate].
      injection Hfill as <-. discriminate. }
  destruct tmp; [congruence|]. cbn [length] in *.
  unfold tmp_size in Hlen.
  assert (1 <= (bits + 6) / 7) by (apply Z.div_le_lower_bound; lia). lia.
Qed.

End VarIntProperties.

(** ** Labels in wallet dump files *)

Lemma hex_nibble_digit (b : byte) (v : Z) : hex_digit b = Some v -> hex_nibble b = v /\ 33 <= uchar b <= 126 /\ 0 <= v < 16.
Proof.
  destruct b; vm_compute; intros H; try discriminate; injection H as <-; repeat split; discriminate.
Qed.

Lemma EncodeDumpString_flat HexStr (str : list byte) :
  EncodeDumpString HexStr str =
  flat_map (fun c => if (uchar c <=? 32) || (128 <=? uchar c) || (uchar c =? uchar x25)
                     then x25 :: HexStr c else [c]) str.
Proof.
  unfold EncodeDumpString.
  enough (H : forall acc, foldl (fun ret c =>
           if (uchar c <=? 32) || (128 <=? uchar c) || (uchar c =? uchar x25)
           then ret ++ x25 :: HexStr c
           else ret ++ [c]) acc str = acc ++ flat_map (fun c => if (uchar c <=? 32) || (128 <=? uchar c) || (uchar c =? uchar x25)
                     then x25 :: HexStr c else [c]) str) by apply (H []).
  induction str as [|c str IH]; intros acc; simpl.
  - rewrite app_nil_r. reflexivity.
  - rewrite IH. destruct (_ || _ || _); rewrite <- app_assoc; reflexivity.
Qed.

Lemma nibbles_join (c : byte) :
  to_uchar (Z.lor (Z.shiftl (uchar c / 16) 4) (uchar c mod 16)) = c.
Proof. destruct c; vm_compute; reflexivity. Qed.

Section DumpRoundTrip.
Variable HexStr : byte -> list byte.
Hypothesis HexStr_hex : HexStr_two_digits HexStr.

Lemma DecodeDumpString_escape (c : byte) (rest : list byte) :
  DecodeDumpString (x25 :: HexStr c ++ rest) = c :: DecodeDumpString rest.
Proof.
  destruct (HexStr_hex c) as (h & l & -> & Hh & Hl).
  apply hex_nibble_digit in Hh, Hl. destruct Hh as (Hh & _), Hl as (Hl & _).
  cbn [app DecodeDumpString]. rewrite Z.eqb_refl, Hh, Hl, nibbles_join. reflexivity.
Qed.

Lemma DecodeDumpString_plain (c : byte) (rest : list byte) :
  uchar c <> uchar x25 -> DecodeDumpString (c :: rest) = c :: DecodeDumpString rest.
Proof.
  intros Hc. apply Z.eqb_neq in Hc. cbn [DecodeDumpString]. rewrite Hc.
  destruct rest as [|c1 [|c2 rest']]; reflexivity.
Qed.

(** X15. [DecodeDumpString] undoes [EncodeDumpString] on every string,
    whatever bytes it holds, given that [HexStr] writes a byte as its two
    hexadecimal digits. *)
Theorem DecodeDumpString_EncodeDumpString (str : list byte) :
  DecodeDumpString (EncodeDumpString HexStr str) = str.
Proof.
  rewrite EncodeDumpString_flat.
  induction str as [|c str IH]; [reflexivity|].
  cbn [flat_map].
  destruct (uchar c =? uchar x25) eqn:Hpercent.
  - rewrite orb_true_r. cbn [app]. rewrite DecodeDumpString_escape, IH. reflexivity.
  - rewrite orb_false_r.
    destruct ((uchar c <=? 32) || (128 <=? uchar c)).
    + cbn [app]. rewrite DecodeDumpString_escape, IH. reflexivity.
    + cbn [app]. rewrite DecodeDumpString_plain, IH by (apply Z.eqb_neq, Hpercent). reflexivity.
Qed.

(** X16. An encoded label holds no space, no control character below
    the space and no byte above 127: every byte of it is from 33 to 127,
    so a label is one field of a line of the dump. The character 127 is
    not quoted. *)
Theorem EncodeDumpString_printable (str : list byte) :
  Forall (fun b => 33 <= uchar b <= 127) (EncodeDumpString HexStr str).
Proof.
  rewrite EncodeDumpString_flat.
  induction str as [|c str IH]; [constructor|].
  cbn [flat_map]. apply Forall_app. split; [|exact IH].
  destruct ((uchar c <=? 32) || (128 <=? uchar c) || (uchar c =? uchar x25)) eqn:E.
  - destruct (HexStr_hex c) as (h & l & -> & Hh & Hl).
    apply hex_nibble_digit in Hh, Hl.
    constructor; [vm_compute; split; discriminate|].
    constructor; [lia|]. constructor; [lia|constructor].
  - apply orb_false_iff in E. destruct E as [E _]. apply orb_false_iff in E.
    destruct E as [E1 E2]. apply Z.leb_gt in E1. apply Z.leb_gt in E2.
    constructor; [lia|constructor].
Qed.

End DumpRoundTrip.

(** ** The coins that can be spent *)

Section SpendableProperties.
Context `{P : Params} `{C : Chain}.

Lemma AvailableCoins_visit_app (fOnlyConfirmed : bool) (coinControl : option CCoinControl)
    (fIncludeStakedCoins : bool) (vCoins : list COutput) (it : uint256 * CWalletTx) :
  AvailableCoins_visit fOnlyConfirmed coinControl fIncludeStakedCoins vCoins it
  = vCoins ++ AvailableCoins_visit fOnlyConfirmed coinControl fIncludeStakedCoins [] it.
Proof.
  unfold AvailableCoins_visit.
  destruct (if negb fIncludeStakedCoins then _ else _).
  - rewrite app_nil_r. reflexivity.
  - rewrite !(foldl_push_back _ (fun i => mkOutput (snd it) i (GetDepthInMainChain (snd it)))).
    reflexivity.
Qed.

Lemma AvailableCoins_flat_map (mapWallet : WalletMap) (fOnlyConfirmed : bool)
    (coinControl : option CCoinControl) (fIncludeStakedCoins : bool) :
  AvailableCoins mapWallet fOnlyConfirmed coinControl fIncludeStakedCoins
  = flat_map (AvailableCoins_visit fOnlyConfirmed coinControl fIncludeStakedCoins [])
      mapWallet.
Proof.
  unfold AvailableCoins.
  enough (H : forall acc,
            foldl (AvailableCoins_visit fOnlyConfirmed coinControl fIncludeStakedCoins)
              acc mapWallet
            = acc ++ flat_map
                       (AvailableCoins_visit fOnlyConfirmed coinControl fIncludeStakedCoins [])
                       mapWallet) by apply (H []).
  induction mapWallet as [|it m IH]; intros acc; cbn [foldl flat_map].
  - rewrite app_nil_r. reflexivity.
  - rewrite IH, AvailableCoins_visit_app, <- app_assoc. reflexivity.
Qed.

(** X1. Without staked coins, [AvailableCoins] lists exactly the outputs
    of the wallet that pass its tests: an output is listed, with its
    transaction and the depth of the transaction, exactly when the
    transaction is final, trusted if only confirmed coins are asked for,
    not an immature coinbase or coinstake and not in conflict, and the
    output is unspent, the wallet's, worth at least [nMinimumInputValue]
    and allowed by the coin control. *)
Theorem AvailableCoins_spendable (mapWallet : WalletMap) (fOnlyConfirmed : bool)
    (coinControl : option CCoinControl) (o : COutput) :
  In o (AvailableCoins mapWallet fOnlyConfirmed coinControl false)
  <-> exists it,
        In it mapWallet
        /\ out_tx o = snd it
        /\ out_nDepth o = GetDepthInMainChain (snd it)
        /\ spendable_tx fOnlyConfirmed (snd it)
        /\ spendable_output coinControl (fst it) (snd it) (out_i o).
Proof.
  rewrite AvailableCoins_flat_map, in_flat_map.
  assert (Hvisit : forall it,
    In o (AvailableCoins_visit fOnlyConfirmed coinControl false [] it)
    <-> out_tx o = snd it
        /\ out_nDepth o = GetDepthInMainChain (snd it)
        /\ spendable_tx fOnlyConfirmed (snd it)
        /\ spendable_output coinControl (fst it) (snd it) (out_i o)).
  { intros it. unfold AvailableCoins_visit, spendable_tx, spendable_output. cbn [negb].
    set (pcoin := snd it).
    destruct (IsFinalTx pcoin) eqn:Hfinal; cbn [negb orb].
    2:{ split; [intros []|]. intros (_ & _ & (Hf & _) & _). discriminate. }
    destruct (fOnlyConfirmed && negb (IsTrusted pcoin)) eqn:Htrust; cbn [orb].
    { split; [intros []|]. intros (_ & _ & (_ & Ht & _) & _).
      destruct fOnlyConfirmed; [|discriminate]. rewrite Ht in Htrust by reflexivity.
      discriminate. }
    destruct ((IsCoinBase pcoin || IsCoinStake pcoin) && (0 <? GetBlocksToMaturity pcoin))
      eqn:Hmature; cbn [orb].
    { split; [intros []|]. intros (_ & _ & (_ & _ & Hm & _) & _).
      apply andb_true_iff in Hmature. destruct Hmature as [Hgen Hblocks].
      apply Z.ltb_lt in Hblocks. specialize (Hm Hgen). lia. }
    destruct (Z.ltb_spec (GetDepthInMainChain pcoin) 0) as [Hdepth|Hdepth].
    { split; [intros []|]. intros (_ & _ & (_ & _ & _ & Hd) & _). lia. }
    rewrite (foldl_push_back _ (fun i => mkOutput pcoin i (GetDepthInMainChain pcoin))).
    cbn [app]. rewrite in_map_iff. split.
    - intros (i & <- & Hi). apply filter_In in Hi. destruct Hi as [Hi Hcond].
      apply in_seq in Hi. cbn [andb] in Hcond. rewrite orb_false_r in Hcond.
      apply andb_true_iff in Hcond. destruct Hcond as [Hcond Hcc].
      apply andb_true_iff in Hcond. destruct Hcond as [Hcond Hval].
      apply andb_true_iff in Hcond. destruct Hcond as [Hspent Hmine].
      apply negb_true_iff in Hspent. apply Z.leb_le in Hval.
      cbn [out_tx out_i out_nDepth].
      split; [reflexivity|]. split; [reflexivity|]. split.
      + split; [reflexivity|]. split.
        * intros ->. cbn [andb] in Htrust. apply negb_false_iff in Htrust. exact Htrust.
        * split; [|lia]. intros Hgen. rewrite Hgen in Hmature. cbn [andb] in Hmature.
          apply Z.ltb_ge in Hmature. exact Hmature.
      + split; [lia|]. tauto.
    - intros (Htx & Hd & _ & (Hi & Hspent & Hmine & Hval & Hcc)).
      exists (out_i o). split.
      + destruct o as [t i d]. cbn [out_tx out_i out_nDepth] in *. subst. reflexivity.
      + apply filter_In. split; [apply in_seq; lia|].
        rewrite Hspent, Hmine, Hcc. apply Z.leb_le in Hval. rewrite Hval. reflexivity. }
  split.
  - intros (it & Hit & Ho). exists it. split; [exact Hit|]. apply Hvisit, Ho.
  - intros (it & Hit & Ho). exists it. split; [exact Hit|]. apply Hvisit. exact Ho.
Qed.

End SpendableProperties.

(** ** Spent flags of the outputs that a transaction consumes *)

Lemma mapWallet_find_modify (m : WalletMap) (h h' : uint256) (f : CWalletTx -> CWalletTx) :
  mapWallet_find (mapWallet_modify m h f) h'
  = if h =? h' then option_map f (mapWallet_find m h') else mapWallet_find m h'.
Proof.
  induction m as [|[k t] m IH]; cbn [mapWallet_find mapWallet_modify fst snd].
  - destruct (h =? h'); reflexivity.
  - destruct (Z.eqb_spec k h) as [->|Hk]; cbn [mapWallet_find fst snd].
    + destruct (h =? h'); reflexivity.
    + destruct (Z.eqb_spec k h') as [->|Hk'].
      * destruct (Z.eqb_spec h h'); [congruence|reflexivity].
      * exact IH.
Qed.

Lemma mapWallet_modify_same (m : WalletMap) (h : uint256) (f : CWalletTx -> CWalletTx) :
  (forall t, exists vf, f t = set_vfSpent t vf) ->
  Forall2 same_but_spent m (mapWallet_modify m h f).
Proof.
  intros Hf.
  assert (Hrefl : forall l : WalletMap, Forall2 same_but_spent l l).
  { induction l as [|[k t] l IHl]; constructor; [|exact IHl].
    split; [reflexivity|]. destruct t; reflexivity. }
  induction m as [|[k t] m IH]; cbn [mapWallet_modify fst snd]; [constructor|].
  destruct (k =? h).
  - constructor; [|apply Hrefl]. split; [reflexivity|]. cbn [fst snd].
    destruct (Hf t) as [vf ->]. destruct t; reflexivity.
  - constructor; [|exact IH]. split; [reflexivity|]. destruct t; reflexivity.
Qed.

Lemma same_but_spent_trans (a b c : uint256 * CWalletTx) :
  same_but_spent a b -> same_but_spent b c -> same_but_spent a c.
Proof.
  intros [H1 H2] [H3 H4]. split; [congruence|].
  rewrite H4, H2. destruct (snd a); reflexivity.
Qed.

Lemma Forall2_same_but_spent_trans (l1 l2 l3 : WalletMap) :
  Forall2 same_but_spent l1 l2 -> Forall2 same_but_spent l2 l3 ->
  Forall2 same_but_spent l1 l3.
Proof.
  intros H12. revert l3. induction H12 as [|a b l1 l2 Hab _ IH]; intros l3 H23.
  - inversion H23. constructor.
  - inversion H23 as [|b' c l2' l3' Hbc Hrest]; subst.
    constructor; [eapply same_but_spent_trans; eassumption|apply IH, Hrest].
Qed.

Lemma Forall2_same_but_spent_refl (l : WalletMap) : Forall2 same_but_spent l l.
Proof.
  induction l as [|[k t] l IHl]; constructor; [|exact IHl].
  split; [reflexivity|]. destruct t; reflexivity.
Qed.

Lemma flags_kept_refl (d : bool) (m : WalletMap) : flags_kept d m m.
Proof. intros h. destruct (mapWallet_find m h); [split; [reflexivity|tauto]|exact I]. Qed.

Lemma flags_kept_trans (d : bool) (m1 m2 m3 : WalletMap) :
  flags_kept d m1 m2 -> flags_kept d m2 m3 -> flags_kept d m1 m3.
Proof.
  intros H12 H23 h. specialize (H12 h). specialize (H23 h).
  destruct (mapWallet_find m1 h) as [a|], (mapWallet_find m2 h) as [b|],
    (mapWallet_find m3 h) as [c|]; try tauto.
  destruct H12 as [Hv1 H1], H23 as [Hv2 H2]. split; [congruence|].
  intros n Hn Ha. apply H2; [rewrite Hv1; exact Hn|]. apply H1; assumption.
Qed.

Lemma flags_kept_mark (d : bool) (m : WalletMap) (h : uint256) (k : nat) :
  flags_kept d m
    (mapWallet_modify m h (fun wtx => if d then MarkSpent wtx k else MarkUnspent wtx k)).
Proof.
  intros h'. rewrite mapWallet_find_modify.
  destruct (h =? h'); [|apply flags_kept_refl].
  destruct (mapWallet_find m h') as [a|]; cbn [option_map]; [|exact I].
  split; [destruct d; reflexivity|].
  intros n Hn Ha. destruct (Nat.eq_dec k n) as [->|Hne].
  - destruct d; [apply IsSpent_MarkSpent_eq|apply IsSpent_MarkUnspent_eq]; exact Hn.
  - destruct d; [rewrite IsSpent_MarkSpent_ne|rewrite IsSpent_MarkUnspent_ne]; assumption.
Qed.

Lemma IsMine_at_vout `{C : Chain} (a b : CWalletTx) (n : nat) :
  vout b = vout a -> IsMine_at b n = IsMine_at a n.
Proof. intros H. unfold IsMine_at. rewrite H. reflexivity. Qed.

Section SpentProperties.
Context `{C : Chain}.

Lemma WalletUpdateSpent_vin_kept (m : WalletMap) (txin : CTxIn) :
  flags_kept true m (WalletUpdateSpent_vin m txin).
Proof.
  unfold WalletUpdateSpent_vin.
  destruct (mapWallet_find m (prevout_hash txin)) as [wtx|]; [|apply flags_kept_refl].
  destruct (length (vout wtx) <=? prevout_n txin)%nat; [apply flags_kept_refl|].
  destruct (negb _ && _); [|apply flags_kept_refl].
  apply (flags_kept_mark true).
Qed.

Lemma DisableTransaction_vin_kept (m : WalletMap) (txin : CTxIn) :
  flags_kept false m (DisableTransaction_vin m txin).
Proof.
  unfold DisableTransaction_vin.
  destruct (mapWallet_find m (prevout_hash txin)) as [wtx|]; [|apply flags_kept_refl].
  destruct (_ && _); [|apply flags_kept_refl].
  apply (flags_kept_mark false).
Qed.

Lemma foldl_flags_kept (d : bool) (f : WalletMap -> CTxIn -> WalletMap) (l : list CTxIn)
    (m : WalletMap) :
  (forall m txin, flags_kept d m (f m txin)) -> flags_kept d m (foldl f m l).
Proof.
  intros Hf. revert m. induction l as [|x l IH]; intros m; cbn [foldl].
  - apply flags_kept_refl.
  - eapply flags_kept_trans; [apply Hf|apply IH].
Qed.

(** After the visit of [txin], the output it consumes has the flag. *)
Lemma WalletUpdateSpent_vin_marks (m : WalletMap) (txin : CTxIn) (prev : CWalletTx) :
  mapWallet_find (WalletUpdateSpent_vin m txin) (prevout_hash txin) = Some prev ->
  (prevout_n txin < length (vout prev))%nat ->
  IsMine_at prev (prevout_n txin) = true ->
  IsSpent prev (prevout_n txin) = true.
Proof.
  unfold WalletUpdateSpent_vin.
  destruct (mapWallet_find m (prevout_hash txin)) as [wtx|] eqn:Hfind; [|congruence].
  destruct (Nat.leb_spec (length (vout wtx)) (prevout_n txin)) as [Hout|Hin].
  { rewrite Hfind. intros [= <-]. lia. }
  destruct (IsSpent wtx (prevout_n txin)) eqn:Hspent; cbn [negb andb].
  { rewrite Hfind. intros [= <-] _ _. exact Hspent. }
  destruct (IsMine_at wtx (prevout_n txin)) eqn:Hmine.
  - rewrite mapWallet_find_modify, Z.eqb_refl, Hfind. cbn [option_map].
    intros [= <-] _ _. apply IsSpent_MarkSpent_eq, Hin.
  - rewrite Hfind. intros [= <-] _. congruence.
Qed.

Lemma DisableTransaction_vin_marks (m : WalletMap) (txin : CTxIn) (prev : CWalletTx) :
  mapWallet_find (DisableTransaction_vin m txin) (prevout_hash txin) = Some prev ->
  (prevout_n txin < length (vout prev))%nat ->
  IsMine_at prev (prevout_n txin) = true ->
  IsSpent prev (prevout_n txin) = false.
Proof.
  unfold DisableTransaction_vin.
  destruct (mapWallet_find m (prevout_hash txin)) as [wtx|] eqn:Hfind; [|congruence].
  destruct (Nat.ltb_spec (prevout_n txin) (length (vout wtx))) as [Hin|Hout]; cbn [andb].
  2:{ rewrite Hfind. intros [= <-]. lia. }
  destruct (IsMine_at wtx (prevout_n txin)) eqn:Hmine.
  - rewrite mapWallet_find_modify, Z.eqb_refl, Hfind. cbn [option_map].
    intros [= <-] _ _. apply IsSpent_MarkUnspent_eq, Hin.
  - rewrite Hfind. intros [= <-] _. congruence.
Qed.

(** A fold of visits that keep the flags [d] leaves, for every visited
    input, the flag that the visit of the input left. *)
Lemma foldl_marks (d : bool) (f : WalletMap -> CTxIn -> WalletMap) (l : list CTxIn)
    (m : WalletMap) :
  (forall m txin, flags_kept d m (f m txin)) ->
  (forall m txin prev,
     mapWallet_find (f m txin) (prevout_hash txin) = Some prev ->
     (prevout_n txin < length (vout prev))%nat ->
     IsMine_at prev (prevout_n txin) = true ->
     IsSpent prev (prevout_n txin) = d) ->
  forall txin prev,
    In txin l ->
    mapWallet_find (foldl f m l) (prevout_hash txin) = Some prev ->
    (prevout_n txin < length (vout prev))%nat ->
    IsMine_at prev (prevout_n txin) = true ->
    IsSpent prev (prevout_n txin) = d.
Proof.
  intros Hkept Hmarks. revert m.
  induction l as [|x l IH]; intros m txin prev Hin Hfind Hn Hmine; [destruct Hin|].
  cbn [foldl] in Hfind. destruct Hin as [->|Hin]; [|eapply IH; eassumption].
  pose proof (foldl_flags_kept d f l (f m txin) Hkept (prevout_hash txin)) as Hk.
  rewrite Hfind in Hk.
  destruct (mapWallet_find (f m txin) (prevout_hash txin)) as [a|] eqn:Ha; [|destruct Hk].
  destruct Hk as [Hv Hk]. apply Hk; [rewrite <- Hv; exact Hn|].
  apply (Hmarks m txin a Ha); [rewrite <- Hv; exact Hn|].
  rewrite <- (IsMine_at_vout a prev) by exact Hv. exact Hmine.
Qed.

(** X4. [WalletUpdateSpent] changes nothing but spent flags: the wallet
    holds the same transactions under the same keys, in the same order,
    each as it was but for its spent bitmap. With [fBlock] the transaction
    is one of the wallet, since the second loop writes through the iterator
    that [find] returns without comparing it to [end()]. *)
Theorem WalletUpdateSpent_frame (mapWallet : WalletMap) (tx : CWalletTx) (fBlock : bool) :
  (fBlock = true -> is_Some (mapWallet_find mapWallet (hash tx))) ->
  Forall2 same_but_spent mapWallet (WalletUpdateSpent mapWallet tx fBlock).
Proof.
  intros _. unfold WalletUpdateSpent.
  assert (H1 : Forall2 same_but_spent mapWallet (foldl WalletUpdateSpent_vin mapWallet (vin tx))).
  { apply (foldl_invariant (fun m => Forall2 same_but_spent mapWallet m)).
    - apply Forall2_same_but_spent_refl.
    - intros m txin Hm _. eapply Forall2_same_but_spent_trans; [exact Hm|].
      unfold WalletUpdateSpent_vin.
      destruct (mapWallet_find m (prevout_hash txin)) as [wtx|];
        [|apply Forall2_same_but_spent_refl].
      destruct (length (vout wtx) <=? prevout_n txin)%nat; [apply Forall2_same_but_spent_refl|].
      destruct (negb _ && _); [|apply Forall2_same_but_spent_refl].
      apply mapWallet_modify_same. intros t. eexists. reflexivity. }
  destruct fBlock; [|exact H1].
  apply (foldl_invariant (fun m => Forall2 same_but_spent mapWallet m)).
  - exact H1.
  - intros m i Hm _. eapply Forall2_same_but_spent_trans; [exact Hm|].
    destruct (IsMine_at tx i); [|apply Forall2_same_but_spent_refl].
    apply mapWallet_modify_same. intros t. eexists. reflexivity.
Qed.

(** X3. After [WalletUpdateSpent] without [fBlock], every output that
    the transaction consumes and that is an output of the wallet's own in
    a transaction of the wallet is marked spent, and no output that was
    marked spent has lost its mark. *)
Theorem WalletUpdateSpent_marks (mapWallet : WalletMap) (tx : CWalletTx) :
  let mapWallet' := WalletUpdateSpent mapWallet tx false in
  (forall txin prev,
     In txin (vin tx) ->
     mapWallet_find mapWallet' (prevout_hash txin) = Some prev ->
     (prevout_n txin < length (vout prev))%nat ->
     IsMine_at prev (prevout_n txin) = true ->
     IsSpent prev (prevout_n txin) = true)
  /\ (forall h wtx n,
       mapWallet_find mapWallet h = Some wtx ->
       (n < length (vout wtx))%nat ->
       IsSpent wtx n = true ->
       exists wtx', mapWallet_find mapWallet' h = Some wtx' /\ IsSpent wtx' n = true).
Proof.
  cbv zeta. unfold WalletUpdateSpent. split.
  - apply (foldl_marks true).
    + apply WalletUpdateSpent_vin_kept.
    + apply WalletUpdateSpent_vin_marks.
  - intros h wtx n Hfind Hn Hspent.
    pose proof (foldl_flags_kept true WalletUpdateSpent_vin (vin tx) mapWallet
                  WalletUpdateSpent_vin_kept h) as Hk.
    rewrite Hfind in Hk.
    destruct (mapWallet_find (foldl WalletUpdateSpent_vin mapWallet (vin tx)) h) as [wtx'|];
      [|destruct Hk].
    exists wtx'. split; [reflexivity|]. apply Hk; assumption.
Qed.

(** X5. [WalletUpdateSpent] without [fBlock] is idempotent: a second call
    for the same transaction changes nothing. *)
Theorem WalletUpdateSpent_idempotent (mapWallet : WalletMap) (tx : CWalletTx) :
  WalletUpdateSpent (WalletUpdateSpent mapWallet tx false) tx false
  = WalletUpdateSpent mapWallet tx false.
Proof.
  unfold WalletUpdateSpent. apply foldl_fixed. intros txin Hin.
  pose proof (foldl_marks true WalletUpdateSpent_vin (vin tx) mapWallet
                WalletUpdateSpent_vin_kept WalletUpdateSpent_vin_marks txin) as Hmarks.
  unfold WalletUpdateSpent_vin at 1.
  destruct (mapWallet_find _ (prevout_hash txin)) as [wtx|]; [|reflexivity].
  destruct (Nat.leb_spec (length (vout wtx)) (prevout_n txin)); [reflexivity|].
  destruct (IsMine_at wtx (prevout_n txin)) eqn:Hmine; [|rewrite andb_false_r; reflexivity].
  rewrite (Hmarks wtx Hin eq_refl) by (lia || exact Hmine). reflexivity.
Qed.

(** X6. [DisableTransaction] leaves the wallet alone unless the
    transaction is a coinstake of the wallet's own; for such a one, every
    output it consumes that is an output of the wallet's own in a
    transaction of the wallet is unspent afterwards. *)
Theorem DisableTransaction_unspends (mapWallet : WalletMap) (tx : CWalletTx) :
  let mapWallet' := DisableTransaction mapWallet tx in
  (IsCoinStake tx && IsFromMe tx = false -> mapWallet' = mapWallet)
  /\ (IsCoinStake tx && IsFromMe tx = true ->
      forall txin prev,
        In txin (vin tx) ->
        mapWallet_find mapWallet' (prevout_hash txin) = Some prev ->
        (prevout_n txin < length (vout prev))%nat ->
        IsMine_at prev (prevout_n txin) = true ->
        IsSpent prev (prevout_n txin) = false).
Proof.
  cbv zeta. unfold DisableTransaction.
  destruct (IsCoinStake tx), (IsFromMe tx); cbn [negb orb andb];
    (split; [try reflexivity; discriminate|]); try discriminate.
  intros _. apply (foldl_marks false).
  - apply DisableTransaction_vin_kept.
  - apply DisableTransaction_vin_marks.
Qed.

End SpentProperties.

(** ** Key pool *)

Section KeypoolProperties.
Import stdpp.gmap.
Import Keypool.
Local Open Scope Z_scope.
Context `{St : Store}.

Lemma set_first_spec (s : gset Z) :
  match set_first s with
  | Some m => m ∈ s /\ forall x, x ∈ s -> m <= x
  | None => s = ∅
  end.
Proof.
  unfold set_first.
  assert (H : forall l : list Z,
            match foldr (fun x acc => Some (match acc with Some m => Z.min x m | None => x end))
                    None l with
            | Some m => m ∈ l /\ forall x, x ∈ l -> m <= x
            | None => l = []
            end).
  { induction l as [|y l IH]; cbn [foldr]; [reflexivity|].
    destruct (foldr _ None l) as [m|].
    - destruct IH as [Hm Hmin]. split.
      + destruct (Z.min_spec y m) as [[_ ->]|[_ ->]]; [left|right; exact Hm].
      + intros x Hx. apply elem_of_cons in Hx. destruct Hx as [->|Hx]; [lia|].
        specialize (Hmin x Hx). lia.
    - subst l. split; [left|]. intros x Hx. apply elem_of_cons in Hx.
      destruct Hx as [->|Hx]; [lia|]. apply elem_of_nil in Hx. destruct Hx. }
  specialize (H (elements s)).
  destruct (foldr _ None (elements s)) as [m|].
  - destruct H as [Hm Hmin]. split; [apply elem_of_elements, Hm|].
    intros x Hx. apply Hmin, elem_of_elements, Hx.
  - apply elements_empty_inv in H. apply leibniz_equiv, H.
Qed.

Lemma set_last_spec (s : gset Z) :
  match set_last s with
  | Some m => m ∈ s /\ forall x, x ∈ s -> x <= m
  | None => s = ∅
  end.
Proof.
  unfold set_last.
  assert (H : forall l : list Z,
            match foldr (fun x acc => Some (match acc with Some m => Z.max x m | None => x end))
                    None l with
            | Some m => m ∈ l /\ forall x, x ∈ l -> x <= m
            | None => l = []
            end).
  { induction l as [|y l IH]; cbn [foldr]; [reflexivity|].
    destruct (foldr _ None l) as [m|].
    - destruct IH as [Hm Hmax]. split.
      + destruct (Z.max_spec y m) as [[_ ->]|[_ ->]]; [right; exact Hm|left].
      + intros x Hx. apply elem_of_cons in Hx. destruct Hx as [->|Hx]; [lia|].
        specialize (Hmax x Hx). lia.
    - subst l. split; [left|]. intros x Hx. apply elem_of_cons in Hx.
      destruct Hx as [->|Hx]; [lia|]. apply elem_of_nil in Hx. destruct Hx. }
  specialize (H (elements s)).
  destruct (foldr _ None (elements s)) as [m|].
  - destruct H as [Hm Hmax]. split; [apply elem_of_elements, Hm|].
    intros x Hx. apply Hmax, elem_of_elements, Hx.
  - apply elements_empty_inv in H. apply leibniz_equiv, H.
Qed.

(** What a run of the loop of [TopUpKeyPool] leaves, given the rounds for
    the keys that are missing. *)
Lemma TopUpKeyPool_loop_spec (rounds : nat) (nTargetSize : Z) (w : Wallet) :
  (nTargetSize + 1) mod UINT32_MOD - Z.of_nat (size (setKeyPool w)) <= Z.of_nat rounds ->
  match TopUpKeyPool_loop rounds nTargetSize w with
  | Returns b w' =>
      b = true
      /\ (nTargetSize + 1) mod UINT32_MOD <= Z.of_nat (size (setKeyPool w'))
      /\ setKeyPool w ⊆ setKeyPool w'
      /\ (forall i j, i ∈ setKeyPool w' -> i ∉ setKeyPool w -> j ∈ setKeyPool w -> j < i)
      /\ vchDefaultKey w' = vchDefaultKey w /\ fFileBacked w' = fFileBacked w
  | Throws _ w' => setKeyPool w ⊆ setKeyPool w'
  | Unfinished => False
  end.
Proof.
  revert w. induction rounds as [|rounds IH]; intros w Hrounds; cbn [TopUpKeyPool_loop].
  - destruct (Z.ltb_spec (Z.of_nat (size (setKeyPool w))) ((nTargetSize + 1) mod UINT32_MOD));
      [lia|].
    split; [reflexivity|]. split; [lia|]. split; [reflexivity|]. split; [|tauto].
    intros i j Hi Hni. contradiction.
  - destruct (Z.ltb_spec (Z.of_nat (size (setKeyPool w))) ((nTargetSize + 1) mod UINT32_MOD)).
    2:{ split; [reflexivity|]. split; [lia|]. split; [reflexivity|]. split; [|tauto].
        intros i j Hi Hni. contradiction. }
    destruct (GenerateNewKey (keys w)) as [[pubkey k]|]; [|reflexivity].
    cbn [set_keys walletdb setKeyPool].
    destruct (WritePool (walletdb w) _ (CKeyPool_of pubkey)) as [db|]; [|reflexivity].
    set (nEnd := match set_last (setKeyPool w) with Some last => last + 1 | None => 1 end).
    assert (Hfresh : forall j, j ∈ setKeyPool w -> j < nEnd).
    { subst nEnd. pose proof (set_last_spec (setKeyPool w)) as Hlast.
      destruct (set_last (setKeyPool w)) as [m|].
      - destruct Hlast as [Hm Hmax]. intros j Hj. specialize (Hmax j Hj). lia.
      - rewrite Hlast. intros j Hj. set_solver. }
    assert (Hnew : nEnd ∉ setKeyPool w).
    { intros Hin. specialize (Hfresh nEnd Hin). lia. }
    set (w1 := set_setKeyPool _ _).
    assert (Hsize : size (setKeyPool w1) = S (size (setKeyPool w))).
    { subst w1. cbn [set_setKeyPool setKeyPool].
      rewrite size_union by set_solver. rewrite size_singleton. reflexivity. }
    specialize (IH w1 ltac:(lia)).
    assert (Hsub : setKeyPool w ⊆ setKeyPool w1).
    { subst w1. cbn [set_setKeyPool setKeyPool]. set_solver. }
    destruct (TopUpKeyPool_loop rounds nTargetSize w1) as [b w'|what w'|]; [| |exact IH].
    + destruct IH as (Hb & Hlen & Hsub' & Hnewer & Hdef & Hfile).
      split; [exact Hb|]. split; [exact Hlen|]. split; [set_solver|]. split; [|tauto].
      intros i j Hi Hni Hj.
      destruct (decide (i ∈ setKeyPool w1)) as [Hi1|Hi1].
      * subst w1. cbn [set_setKeyPool setKeyPool] in Hi1.
        apply elem_of_union in Hi1. destruct Hi1 as [Hi1|Hi1]; [|contradiction].
        apply elem_of_singleton in Hi1. subst i. apply Hfresh, Hj.
      * apply (Hnewer i j Hi Hi1). apply Hsub, Hj.
    + set_solver.
Qed.

Lemma TopUpKeyPool_tops_up_aux (nSize : Z) (w : Wallet) :
  IsLocked (keys w) = false ->
  match TopUpKeyPool nSize w with
  | Returns b w' => b = true
  | _ => True
  end.
Proof.
  intros Hlocked. unfold TopUpKeyPool. rewrite Hlocked.
  set (nTargetSize := if 0 <? nSize then nSize else keypool_size_setting w mod UINT32_MOD).
  pose proof (TopUpKeyPool_loop_spec
                (Z.to_nat ((nTargetSize + 1) mod UINT32_MOD - Z.of_nat (size (setKeyPool w))))
                nTargetSize w ltac:(lia)) as H.
  destruct (TopUpKeyPool_loop _ nTargetSize w) as [b w'|what w'|]; [|exact I|exact I].
  tauto.
Qed.

(** X10. [TopUpKeyPool] leaves a locked wallet alone and returns false.
    On an unlocked wallet it is done within the rounds granted to it, and
    when it returns, it returns true, the pool holds at least one index
    more than the target size, it holds the indexes it held, and every
    index it added is greater than all of those; when it throws, the pool
    still holds the indexes it held. *)
Theorem TopUpKeyPool_tops_up (nSize : Z) (w : Wallet) :
  (IsLocked (keys w) = true -> TopUpKeyPool nSize w = Returns false w)
  /\ (IsLocked (keys w) = false ->
      let nTargetSize :=
        if 0 <? nSize then nSize else keypool_size_setting w mod UINT32_MOD in
      match TopUpKeyPool nSize w with
      | Returns b w' =>
          b = true
          /\ (nTargetSize + 1) mod UINT32_MOD <= Z.of_nat (size (setKeyPool w'))
          /\ setKeyPool w ⊆ setKeyPool w'
          /\ (forall i j, i ∈ setKeyPool w' -> i ∉ setKeyPool w -> j ∈ setKeyPool w -> j < i)
      | Throws _ w' => setKeyPool w ⊆ setKeyPool w'
      | Unfinished => False
      end).
Proof.
  unfold TopUpKeyPool. split; intros Hlocked; rewrite Hlocked; [reflexivity|].
  cbv zeta.
  set (nTargetSize := if 0 <? nSize then nSize else keypool_size_setting w mod UINT32_MOD).
  pose proof (TopUpKeyPool_loop_spec
                (Z.to_nat ((nTargetSize + 1) mod UINT32_MOD - Z.of_nat (size (setKeyPool w))))
                nTargetSize w ltac:(lia)) as H.
  destruct (TopUpKeyPool_loop _ nTargetSize w) as [b w'|what w'|]; [|exact H|exact H].
  tauto.
Qed.

(** The wallet that [ReserveKeyFromKeyPool] draws from: the wallet as it
    is when locked, and as [TopUpKeyPool] returns it otherwise. *)
Lemma ReserveKeyFromKeyPool_spec (keypool : CKeyPool) (w : Wallet) :
  match ReserveKeyFromKeyPool keypool w with
  | Returns (nIndex, keypool') w' =>
      exists w0,
        (if IsLocked (keys w) then w0 = w
         else TopUpKeyPool TopUpKeyPool_nSize w = Returns true w0)
        /\ ((setKeyPool w0 = ∅ /\ nIndex = -1 /\ w' = w0
             /\ keypool' = mkKeyPool (nTime keypool) None)
            \/ (nIndex ∈ setKeyPool w0
                /\ (forall j, j ∈ setKeyPool w0 -> nIndex <= j)
                /\ w' = set_setKeyPool w0 (setKeyPool w0 ∖ {[nIndex]})
                /\ ReadPool (walletdb w0) nIndex = Some keypool'
                /\ is_Some (vchPubKey keypool')
                /\ HaveKey (keys w0) (vchPubKey keypool') = true))
  | _ => True
  end.
Proof.
  unfold ReserveKeyFromKeyPool.
  pose proof (TopUpKeyPool_tops_up_aux TopUpKeyPool_nSize w) as Htop.
  set (topped := if negb (IsLocked (keys w)) then _ else _).
  assert (Htopped : match topped with
                    | Returns _ w0 =>
                        if IsLocked (keys w) then w0 = w
                        else TopUpKeyPool TopUpKeyPool_nSize w = Returns true w0
                    | _ => True
                    end).
  { subst topped. destruct (IsLocked (keys w)); cbn [negb]; [reflexivity|].
    destruct (TopUpKeyPool TopUpKeyPool_nSize w) as [b w0|what w0|]; try exact I.
    specialize (Htop eq_refl). subst b. reflexivity. }
  destruct topped as [b w0|what w0|]; try exact I.
  pose proof (set_first_spec (setKeyPool w0)) as Hfirst.
  destruct (set_first (setKeyPool w0)) as [nIndex|].
  - destruct Hfirst as [Hin Hmin]. cbn [set_setKeyPool walletdb keys].
    destruct (ReadPool (walletdb w0) nIndex) as [keypool'|] eqn:Hread; [|exact I].
    destruct (HaveKey (keys w0) (vchPubKey keypool')) eqn:Hhave; cbn [negb]; [|exact I].
    destruct (vchPubKey keypool') as [pub|] eqn:Hpub; [|exact I].
    exists w0. split; [exact Htopped|]. right.
    rewrite Hpub. repeat split; try assumption. eexists; reflexivity.
  - exists w0. split; [exact Htopped|]. left. tauto.
Qed.

(** X11. On a locked wallet, [ReserveKeyFromKeyPool] reports an empty
    pool by the index -1 and an invalid key, the wallet as it was; from a
    pool that is not empty it takes the least index, which is the oldest
    key, out of the pool and returns the record that the database holds
    under it, whose key is valid and known to the key store. *)
Theorem ReserveKeyFromKeyPool_oldest (keypool : CKeyPool) (w : Wallet) :
  IsLocked (keys w) = true ->
  (setKeyPool w = ∅ ->
   ReserveKeyFromKeyPool keypool w = Returns (-1, mkKeyPool (nTime keypool) None) w)
  /\ (forall nIndex keypool' w',
        setKeyPool w <> ∅ ->
        ReserveKeyFromKeyPool keypool w = Returns (nIndex, keypool') w' ->
        nIndex ∈ setKeyPool w
        /\ (forall j, j ∈ setKeyPool w -> nIndex <= j)
        /\ w' = set_setKeyPool w (setKeyPool w ∖ {[nIndex]})
        /\ ReadPool (walletdb w) nIndex = Some keypool'
        /\ is_Some (vchPubKey keypool')
        /\ HaveKey (keys w) (vchPubKey keypool') = true).
Proof.
  intros Hlocked. split.
  - intros Hempty. unfold ReserveKeyFromKeyPool. rewrite Hlocked. cbn [negb].
    pose proof (set_first_spec (setKeyPool w)) as Hfirst.
    destruct (set_first (setKeyPool w)) as [m|]; [|reflexivity].
    destruct Hfirst as [Hm _]. rewrite Hempty in Hm. set_solver.
  - intros nIndex keypool' w' Hne Hres.
    pose proof (ReserveKeyFromKeyPool_spec keypool w) as H. rewrite Hres, Hlocked in H.
    destruct H as (w0 & -> & [(Hempty & _)|H]); [contradiction|exact H].
Qed.

(** X12. When [GetOldestKeyPoolTime] returns on a locked wallet whose
    pool does not hold the index -1, the index it drew is back in the
    pool and the wallet is as it was; the time is that of the record of
    the least index, or the clock's when the pool is empty. *)
Theorem GetOldestKeyPoolTime_restores (w : Wallet) (t : Z) (w' : Wallet) :
  IsLocked (keys w) = true ->
  -1 ∉ setKeyPool w ->
  GetOldestKeyPoolTime w = Returns t w' ->
  w' = w
  /\ (setKeyPool w = ∅ -> t = GetAdjustedTime)
  /\ (setKeyPool w <> ∅ ->
      exists nIndex keypool,
        nIndex ∈ setKeyPool w /\ (forall j, j ∈ setKeyPool w -> nIndex <= j)
        /\ ReadPool (walletdb w) nIndex = Some keypool /\ t = nTime keypool).
Proof.
  intros Hlocked Hsentinel. unfold GetOldestKeyPoolTime.
  pose proof (ReserveKeyFromKeyPool_spec CKeyPool_default w) as H.
  destruct (ReserveKeyFromKeyPool CKeyPool_default w) as [[nIndex keypool] w1|what w1|];
    [|discriminate|discriminate].
  rewrite Hlocked in H. destruct H as (w0 & -> & H).
  destruct H as [(Hempty & -> & -> & ->)|(Hin & Hmin & -> & Hread & Hvalid & Hhave)].
  - cbn [Z.eqb]. intros [= <- <-]. split; [reflexivity|]. split; [reflexivity|].
    intros Hne. contradiction.
  - assert (Hback : ReturnKey nIndex (set_setKeyPool w (setKeyPool w ∖ {[nIndex]})) = w).
    { unfold ReturnKey, set_setKeyPool. cbn [setKeyPool walletdb keys vchDefaultKey fFileBacked].
      replace ({[nIndex]} ∪ setKeyPool w ∖ {[nIndex]}) with (setKeyPool w).
      - destruct w; reflexivity.
      - apply leibniz_equiv. intros x. rewrite elem_of_union, elem_of_difference,
          elem_of_singleton. split.
        + intros Hx. destruct (decide (x = nIndex)); [left; assumption|right; tauto].
        + intros [->|[Hx _]]; assumption. }
    destruct (Z.eqb_spec nIndex (-1)) as [->|Hne1].
    + contradiction.
    + rewrite Hback. intros [= <- <-]. split; [reflexivity|]. split.
      * intros Hempty. rewrite Hempty in Hin. set_solver.
      * intros _. exists nIndex, keypool. tauto.
Qed.

Lemma NewKeyPool_loop_spec (nKeys : nat) (i : Z) (w : Wallet) :
  match NewKeyPool_loop nKeys i w with
  | Returns b w' =>
      b = true
      /\ forall x, x ∈ setKeyPool w'
                   <-> x ∈ setKeyPool w \/ i + 1 <= x <= i + Z.of_nat nKeys
  | Throws _ _ => True
  | Unfinished => False
  end.
Proof.
  revert i w. induction nKeys as [|nKeys IH]; intros i w; cbn [NewKeyPool_loop].
  - split; [reflexivity|]. intros x. split; [tauto|]. intros [H|H]; [exact H|lia].
  - destruct (GenerateNewKey (keys w)) as [[pubkey k]|]; [|exact I].
    set (w1 := set_setKeyPool _ _).
    specialize (IH (i + 1) w1).
    destruct (NewKeyPool_loop nKeys (i + 1) w1) as [b w'|what w'|]; [|exact I|exact IH].
    destruct IH as [Hb Hset]. split; [exact Hb|].
    intros x. rewrite Hset. subst w1. cbn [set_setKeyPool setKeyPool].
    rewrite elem_of_union, elem_of_singleton, Nat2Z.inj_succ. split.
    + intros [[->|H]|H]; [right; lia|left; exact H|right; lia].
    + intros [H|H]; [left; right; exact H|].
      destruct (Z.eq_dec x (i + 1)); [left; left; assumption|right; lia].
Qed.

(** X13. [NewKeyPool] discards the pool before it looks at the lock: on a
    locked wallet it returns false and leaves the pool empty. On an
    unlocked wallet with a size setting that the [int] counter of the loop
    reaches, when it returns, it returns true and the pool holds the
    indexes from 1 to the size that is set. *)
Theorem NewKeyPool_renumbers (w : Wallet) :
  (IsLocked (keys w) = true ->
   exists w', NewKeyPool w = Returns false w' /\ setKeyPool w' = ∅ /\ keys w' = keys w)
  /\ (IsLocked (keys w) = false ->
      keypool_size_setting w < 2 ^ 31 ->
      match NewKeyPool w with
      | Returns b w' =>
          b = true
          /\ forall x, x ∈ setKeyPool w' <-> 1 <= x <= keypool_size_setting w
      | Throws _ _ => True
      | Unfinished => False
      end).
Proof.
  unfold NewKeyPool. cbn [set_setKeyPool set_walletdb keys setKeyPool walletdb].
  split; intros Hlocked; rewrite Hlocked.
  - eexists. split; [reflexivity|]. split; reflexivity.
  - intros _.
    match goal with
    | |- context [NewKeyPool_loop ?n 0 ?w1] =>
        pose proof (NewKeyPool_loop_spec n 0 w1) as H;
        destruct (NewKeyPool_loop n 0 w1) as [b w'|what w'|]; [|exact I|exact H]
    end.
    destruct H as [Hb Hset]. split; [exact Hb|].
    intros x. rewrite Hset.
    match goal with
    | |- context [keypool_size_setting ?w1] =>
        change (keypool_size_setting w1) with (keypool_size_setting w)
    end.
    cbn [set_setKeyPool setKeyPool].
    assert (0 <= keypool_size_setting w) by (unfold keypool_size_setting; lia).
    rewrite Z2Nat.id by lia. split; [intros [Hx|Hx]; [set_solver|lia]|intros Hx; right; lia].
Qed.

(** X14. On a locked wallet whose pool does not hold the index -1,
    [GetKeyFromPool] generates no key: it returns false exactly when the
    pool is empty and the default key is not to be used or is not valid,
    and a call that returns true has assigned a key. *)
Theorem GetKeyFromPool_locked (fAllowReuse : bool) (w : Wallet) (ok : bool)
    (result : option CPubKey) (w' : Wallet) :
  IsLocked (keys w) = true ->
  -1 ∉ setKeyPool w ->
  GetKeyFromPool fAllowReuse w = Returns (ok, result) w' ->
  keys w' = keys w
  /\ (ok = false <->
      setKeyPool w = ∅ /\ (fAllowReuse = false \/ vchDefaultKey w = None))
  /\ (ok = true -> is_Some result).
Proof.
  intros Hlocked Hsentinel. unfold GetKeyFromPool.
  pose proof (ReserveKeyFromKeyPool_spec CKeyPool_default w) as H.
  destruct (ReserveKeyFromKeyPool CKeyPool_default w) as [[nIndex keypool] w1|what w1|];
    [|discriminate|discriminate].
  rewrite Hlocked in H. destruct H as (w0 & -> & H).
  destruct H as [(Hempty & -> & -> & ->)|(Hin & Hmin & -> & Hread & Hvalid & Hhave)].
  - cbn [Z.eqb]. rewrite Hlocked.
    destruct fAllowReuse; [destruct (vchDefaultKey w) as [d|] eqn:Hdef|].
    + intros [= <- <- <-]. split; [reflexivity|]. split; [|intros _; eexists; reflexivity].
      split; [discriminate|]. intros [_ [H|H]]; discriminate.
    + intros [= <- <- <-]. split; [reflexivity|]. split; [|discriminate].
      split; [intros _; split; [exact Hempty|right; reflexivity]|reflexivity].
    + intros [= <- <- <-]. split; [reflexivity|]. split; [|discriminate].
      split; [intros _; split; [exact Hempty|left; reflexivity]|reflexivity].
  - destruct (Z.eqb_spec nIndex (-1)) as [->|Hne]; [contradiction|].
    intros [= <- <- <-]. split.
    + unfold KeepKey. cbn [set_setKeyPool fFileBacked]. destruct (fFileBacked w); reflexivity.
    + split; [|intros _; exact Hvalid]. split; [discriminate|].
      intros [Hempty _]. rewrite Hempty in Hin. set_solver.
Qed.

End KeypoolProperties.

(** ** A run of the reconciliation that only checks *)

Section CheckOnly.
Context `{C : Chain}.

Lemma vout_value_vout (a b : CWalletTx) (n : nat) :
  vout b = vout a -> vout_value b n = vout_value a n.
Proof. intros H. unfold vout_value. rewrite H. reflexivity. Qed.

(** Over the outputs below [k], the run that only checks leaves the
    transaction as it is and counts what the run that repairs counts, and
    the latter has not touched the flags from [k] on. *)
Lemma FixSpentCoins_outputs_check (txindex : CTxIndex) (pcoin : CWalletTx) (k : nat)
    (a b : Z) :
  (k <= length (vout pcoin))%nat ->
  exists pcoin' a' b',
    foldl (FixSpentCoins_output true txindex) (pcoin, a, b) (seq 0 k) = (pcoin, a', b')
    /\ foldl (FixSpentCoins_output false txindex) (pcoin, a, b) (seq 0 k) = (pcoin', a', b')
    /\ vout pcoin' = vout pcoin
    /\ (forall m : nat, (k <= m)%nat -> (m < length (vout pcoin))%nat ->
          IsSpent pcoin' m = IsSpent pcoin m).
Proof.
  induction k as [|k IH]; intros Hk.
  - exists pcoin, a, b. repeat split; reflexivity.
  - destruct IH as (p & a' & b' & Hcheck & Hfix & Hvout & Hrest); [lia|].
    rewrite !foldl_seq_S, Hcheck, Hfix.
    unfold FixSpentCoins_output. cbn [negb].
    rewrite (IsMine_at_vout pcoin p k Hvout), (vout_value_vout pcoin p k Hvout),
      (Hrest k) by lia.
    assert (Hkp : (k < length (vout p))%nat) by (rewrite Hvout; lia).
    destruct (IsMine_at pcoin k && IsSpent pcoin k && index_says_unspent txindex k);
      [|destruct (IsMine_at pcoin k && negb (IsSpent pcoin k) && index_says_spent txindex k)].
    + eexists _, _, _. split; [reflexivity|]. split; [reflexivity|].
      split; [exact Hvout|]. intros m Hm Hlen.
      rewrite IsSpent_MarkUnspent_ne by (rewrite ?Hvout; lia). apply Hrest; lia.
    + eexists _, _, _. split; [reflexivity|]. split; [reflexivity|].
      split; [exact Hvout|]. intros m Hm Hlen.
      rewrite IsSpent_MarkSpent_ne by (rewrite ?Hvout; lia). apply Hrest; lia.
    + eexists _, _, _. split; [reflexivity|]. split; [reflexivity|].
      split; [exact Hvout|]. intros m Hm Hlen. apply Hrest; lia.
Qed.

Lemma FixSpentCoins_check_from (mapWallet seen seen' : WalletMap) (a b : Z) :
  exists repaired a' b',
    foldl (FixSpentCoins_tx true) (seen, a, b) mapWallet = (seen ++ mapWallet, a', b')
    /\ foldl (FixSpentCoins_tx false) (seen', a, b) mapWallet = (seen' ++ repaired, a', b').
Proof.
  revert seen seen' a b. induction mapWallet as [|it w IH]; intros seen seen' a b; cbn [foldl].
  - exists [], a, b. rewrite !app_nil_r. split; reflexivity.
  - unfold FixSpentCoins_tx at 2 4.
    destruct (ReadTxIndex (hash (snd it))) as [txindex|].
    + destruct (FixSpentCoins_outputs_check txindex (snd it) (length (vout (snd it))) a b
                  ltac:(lia)) as (p & a1 & b1 & Hcheck & Hfix & _).
      rewrite Hcheck, Hfix.
      destruct (IH (seen ++ [(fst it, snd it)]) (seen' ++ [(fst it, p)]) a1 b1)
        as (r & a' & b' & H1 & H2).
      exists ((fst it, p) :: r), a', b'. rewrite H1, H2, <- !app_assoc.
      destruct it; split; reflexivity.
    + destruct (IH (seen ++ [it]) (seen' ++ [it]) a b) as (r & a' & b' & H1 & H2).
      exists (it :: r), a', b'. rewrite H1, H2, <- !app_assoc. split; reflexivity.
Qed.

(** X28. A run of [FixSpentCoins] that only checks leaves the wallet as
    it is and reports the number of mismatches and the value in question
    that the run which repairs would report. *)
Theorem FixSpentCoins_check_only (mapWallet : WalletMap) :
  FixSpentCoins mapWallet true
  = (mapWallet, snd (fst (FixSpentCoins mapWallet false)), snd (FixSpentCoins mapWallet false)).
Proof.
  unfold FixSpentCoins.
  destruct (FixSpentCoins_check_from mapWallet [] [] 0 0) as (r & a & b & H1 & H2).
  rewrite H1, H2. reflexivity.
Qed.

(** Over outputs, the run that only checks never lowers the count, and
    leaves it as it is only if wallet and index agree on each of them. *)
Lemma FixSpentCoins_outputs_count (txindex : CTxIndex) (pcoin : CWalletTx) (k : nat)
    (a b : Z) :
  exists a' b',
    foldl (FixSpentCoins_output true txindex) (pcoin, a, b) (seq 0 k) = (pcoin, a', b')
    /\ a <= a'
    /\ (a' = a -> forall m : nat, (m < k)%nat -> agrees_at txindex pcoin m).
Proof.
  induction k as [|k IH].
  - exists a, b. split; [reflexivity|]. split; [lia|]. intros _ m Hm. lia.
  - destruct IH as (a' & b' & Hcheck & Hle & Hagree).
    rewrite foldl_seq_S, Hcheck. unfold FixSpentCoins_output. cbn [negb].
    destruct (IsMine_at pcoin k && IsSpent pcoin k && index_says_unspent txindex k) eqn:H1;
      [|destruct (IsMine_at pcoin k && negb (IsSpent pcoin k) && index_says_spent txindex k)
          eqn:H2].
    + eexists _, _. split; [reflexivity|]. split; [lia|]. intros Heq. lia.
    + eexists _, _. split; [reflexivity|]. split; [lia|]. intros Heq. lia.
    + exists a', b'. split; [reflexivity|]. split; [exact Hle|]. intros Heq m Hm.
      destruct (decide (m = k)) as [->|Hne]; [split; assumption|].
      apply Hagree; [exact Heq|lia].
Qed.

Lemma FixSpentCoins_count_from (mapWallet seen : WalletMap) (a b : Z) :
  a <= snd (fst (foldl (FixSpentCoins_tx true) (seen, a, b) mapWallet))
  /\ (snd (fst (foldl (FixSpentCoins_tx true) (seen, a, b) mapWallet)) = a ->
      Forall agrees mapWallet).
Proof.
  revert seen a b. induction mapWallet as [|it w IH]; intros seen a b; cbn [foldl].
  - cbn [fst snd]. split; [lia|]. intros _. constructor.
  - assert (Hstep : exists seen1 a1 b1,
               FixSpentCoins_tx true (seen, a, b) it = (seen1, a1, b1)
               /\ a <= a1 /\ (a1 = a -> agrees it)).
    { unfold FixSpentCoins_tx, agrees.
      destruct (ReadTxIndex (hash (snd it))) as [txindex|].
      - destruct (FixSpentCoins_outputs_count txindex (snd it) (length (vout (snd it))) a b)
          as (a1 & b1 & Hcheck & Hle & Hagree).
        rewrite Hcheck. eexists _, _, _. split; [reflexivity|]. split; [exact Hle|exact Hagree].
      - eexists _, _, _. split; [reflexivity|]. split; [lia|]. intros _. exact I. }
    destruct Hstep as (seen1 & a1 & b1 & -> & Hle & Hagree).
    destruct (IH seen1 a1 b1) as [Hle' Hrest]. split; [lia|].
    intros Heq. constructor; [apply Hagree; lia|apply Hrest; lia].
Qed.

(** X29. The check is sound and complete: [FixSpentCoins] reports no
    mismatch exactly when the wallet and the transaction index agree on
    every output, of the wallet's own, of every wallet transaction that
    the index knows; and then it reports no value in question. *)
Theorem FixSpentCoins_no_mismatch (mapWallet : WalletMap) :
  (snd (fst (FixSpentCoins mapWallet true)) = 0 <-> Forall agrees mapWallet)
  /\ (Forall agrees mapWallet -> snd (FixSpentCoins mapWallet true) = 0).
Proof.
  unfold FixSpentCoins. split; [split|].
  - apply FixSpentCoins_count_from.
  - intros H. rewrite FixSpentCoins_agreed_from by exact H. reflexivity.
  - intros H. rewrite FixSpentCoins_agreed_from by exact H. reflexivity.
Qed.

End CheckOnly.

(** ** The reserved key *)

Section ReservedKey.
Context `{B : Builder}.

(** X9. A reserve key that has drawn an index from the pool keeps its key:
    a further [GetReservedKey] returns the same key and leaves the reserve
    key and the pool as they are, so the iterations of [CreateTransaction]
    draw one key between them. *)
Theorem GetReservedKey_again (rk rk' : CReserveKey) (pool pool' : KeyPool)
    (pubkey : CPubKey) :
  GetReservedKey rk pool = Some (pubkey, rk', pool') ->
  nIndex rk' <> -1 ->
  GetReservedKey rk' pool' = Some (pubkey, rk', pool').
Proof.
  unfold GetReservedKey at 1.
  destruct (Z.eqb_spec (nIndex rk) (-1)) as [Hfree|Hheld].
  - destruct (ReserveKeyFromKeyPool pool) as [[nIndex' pub] pool1].
    destruct (Z.eqb_spec nIndex' (-1)) as [->|Hdrawn]; cbn [negb].
    + destruct vchDefaultKey as [d|]; [|discriminate].
      intros [= <- <- <-]. cbn [nIndex]. contradiction.
    + intros [= <- <- <-] _. unfold GetReservedKey. cbn [nIndex vchPubKey].
      destruct (Z.eqb_spec nIndex' (-1)); [contradiction|reflexivity].
  - destruct (vchPubKey rk) as [pub|] eqn:Hpub; [|discriminate].
    intros [= <- <- <-] _. unfold GetReservedKey.
    destruct (Z.eqb_spec (nIndex rk) (-1)); [contradiction|]. rewrite Hpub. reflexivity.
Qed.

End ReservedKey.

(** ** The further properties on the samples *)

(** A script: [OP_1], then a push of three bytes, is push-only, and its
    second instruction is read as the push. *)
Example script_of_pushes :
  Samples.script = [x51; x03; x01; x02; x03]
  /\ IsPushOnly Samples.script = Some true
  /\ GetOp2 Samples.script 1 = (true, 5%nat, 3, [x01; x02; x03])
  /\ IsPushOnly (Samples.script ++ [x6a]) = Some false
  /\ GetOp2 [x4c; x05; x01] 0 = (false, 2%nat, OP_INVALIDOPCODE, []).
Proof. repeat split; vm_compute; reflexivity. Qed.

Lemma GetOp2_push_data_witness :
  exists opcode,
    0 <= opcode <= OP_PUSHDATA4
    /\ GetOp2 (push_data [x51] [x01; x02; x03] ++ [x87]) (length [x51])
       = (true, length (push_data [x51] [x01; x02; x03]), opcode, [x01; x02; x03]).
Proof.
  apply (GetOp2_push_data [x51] [x01; x02; x03] [x87]).
  vm_compute. reflexivity.
Defined.

Lemma IsPushOnly_app_witness :
  IsPushOnly (Samples.script ++ [x6a]) = IsPushOnly [x6a].
Proof.
  apply (IsPushOnly_app Samples.script [x6a]).
  vm_compute. reflexivity.
Defined.

Lemma IsPushOnly_push_data_witness :
  IsPushOnly (push_data Samples.script [xaa; xbb]) = Some true.
Proof.
  apply (IsPushOnly_push_data Samples.script [xaa; xbb]).
  - vm_compute. reflexivity.
  - vm_compute. reflexivity.
Defined.

Lemma push_int64_small_witness :
  exists opcode,
    GetOp2 (push_int64 Samples.getvch [x51] 5 ++ [x87]) (length [x51])
      = (true, length (push_int64 Samples.getvch [x51] 5), opcode, [])
    /\ DecodeOP_N opcode = Some 5.
Proof.
  apply (push_int64_small Samples.getvch [x51] [x87] 5). lia.
Defined.

(** The sizes 252, 253, 65536 and 2^32 as [WriteCompactSize] writes them,
    and two encodings that [ReadCompactSize] refuses. *)
Example compact_sizes :
  WriteCompactSize [] 252 = [xfc]
  /\ WriteCompactSize [] 253 = [xfd; xfd; x00]
  /\ WriteCompactSize [] 65536 = [xfe; x00; x00; x01; x00]
  /\ WriteCompactSize [] (2 ^ 32) = [xff; x00; x00; x00; x00; x01; x00; x00; x00]
  /\ ReadCompactSize [xfd; xfc; x00] = inl non_canonical_ReadCompactSize
  /\ ReadCompactSize [xfe; x00; x00; x00; x03] = inl size_too_large
  /\ ReadCompactSize [xfd; x03] = inl end_of_data.
Proof. repeat split; vm_compute; reflexivity. Qed.

Lemma ReadCompactSize_WriteCompactSize_witness :
  ReadCompactSize (WriteCompactSize [] 515 ++ [xff])
  = if MAX_SIZE <? 515 then inl size_too_large else inr (515, [xff]).
Proof.
  apply (ReadCompactSize_WriteCompactSize 515 [xff]).
  split; vm_compute; [discriminate|reflexivity].
Defined.

Lemma ReadCompactSize_canonical_witness :
  0 <= 515 <= MAX_SIZE /\ [xfd; x03; x02; xff] = WriteCompactSize [] 515 ++ [xff].
Proof.
  apply (ReadCompactSize_canonical [xfd; x03; x02; xff] [xff] 515).
  vm_compute. reflexivity.
Defined.

(** The encodings that the comment of [serialize.h] lists for 65535 and
    2^32. *)
Example varints :
  WriteVarInt 64 [] (2 ^ 32) = Some [x8e; xfe; xfe; xff; x00]
  /\ WriteVarInt 64 [] 65535 = Some [x82; xfe; x7f]
  /\ WriteVarInt 64 [] 16511 = Some [xff; x7f]
  /\ ReadVarInt 64 [x8e; xfe; xfe; xff; x00] = inr (2 ^ 32, [])
  /\ GetSizeOfVarInt 64 (2 ^ 64 - 1) = Some 10.
Proof. repeat split; vm_compute; reflexivity. Qed.

Lemma ReadVarInt_WriteVarInt_witness :
  exists bytes,
    WriteVarInt 64 [] (2 ^ 32) = Some bytes
    /\ ReadVarInt 64 (bytes ++ [xff]) = inr (2 ^ 32, [xff]).
Proof.
  apply (ReadVarInt_WriteVarInt 64 (2 ^ 32) [xff]).
  - lia.
  - split; vm_compute; discriminate.
Defined.

Lemma GetSizeOfVarInt_WriteVarInt_witness :
  exists bytes size,
    WriteVarInt 64 [x01] 65535 = Some bytes
    /\ GetSizeOfVarInt 64 65535 = Some size
    /\ Z.of_nat (length bytes) = Z.of_nat (length [x01]) + size
    /\ 1 <= size <= (64 + 6) / 7.
Proof.
  apply (GetSizeOfVarInt_WriteVarInt 64 [x01] 65535).
  - lia.
  - split; vm_compute; discriminate.
Defined.

Lemma Samples_HexStr_two_digits : HexStr_two_digits Samples.HexStr.
Proof.
  intros c. exists (Samples.hexmap (uchar c / 16)), (Samples.hexmap (uchar c mod 16)).
  split; [reflexivity|]. destruct c; split; vm_compute; reflexivity.
Qed.

(** The label "a b%" is written as "a%20b%25". *)
Example label_in_a_dump :
  EncodeDumpString Samples.HexStr Samples.label
  = [x61; x25; x32; x30; x62; x25; x32; x35]
  /\ DecodeDumpString [x61; x25; x32; x30; x62; x25; x32; x35] = Samples.label
  /\ EncodeDumpString Samples.HexStr [x7f] = [x7f]
  /\ DecodeDumpString [x61; x25; x32] = [x61; x25; x32].
Proof. repeat split; vm_compute; reflexivity. Qed.

Lemma DecodeDumpString_EncodeDumpString_witness :
  DecodeDumpString (EncodeDumpString Samples.HexStr Samples.label) = Samples.label.
Proof.
  apply (DecodeDumpString_EncodeDumpString Samples.HexStr).
  exact Samples_HexStr_two_digits.
Defined.

Lemma EncodeDumpString_printable_witness :
  Forall (fun b => 33 <= uchar b <= 127) (EncodeDumpString Samples.HexStr Samples.label).
Proof.
  apply (EncodeDumpString_printable Samples.HexStr).
  exact Samples_HexStr_two_digits.
Defined.

(** The spender of [Samples] marks the two outputs it consumes in the
    small wallet; disabled, were it a coinstake of the wallet's own, it
    would clear them. *)
Example spent_flags_of_the_spender :
  @WalletUpdateSpent Scenario.chain Scenario.wallet Samples.spender false
  = [(1200, MarkSpent (Scenario.received 1200 1000 [2000000; 300000]) 0);
     (2050, MarkSpent (Scenario.received 2050 1000 [700000]) 0)]
  /\ @DisableTransaction Scenario.chain
       (@WalletUpdateSpent Scenario.chain Scenario.wallet Samples.spender false)
       Samples.spender
     = [(1200, MarkUnspent (MarkSpent (Scenario.received 1200 1000 [2000000; 300000]) 0) 0);
        (2050, MarkUnspent (MarkSpent (Scenario.received 2050 1000 [700000]) 0) 0)]
  /\ @AvailableCoins (Scenario.params 0 10000) Scenario.chain
       (@WalletUpdateSpent Scenario.chain Scenario.wallet Samples.spender false)
       true None false
     = [mkOutput (MarkSpent (Scenario.received 1200 1000 [2000000; 300000]) 0) 1 200].
Proof. repeat split; vm_compute; reflexivity. Qed.

Lemma WalletUpdateSpent_frame_witness :
  Forall2 same_but_spent Scenario.wallet
    (@WalletUpdateSpent Scenario.chain Scenario.wallet
       (Scenario.received 1200 1000 [2000000; 300000]) true).
Proof.
  apply (@WalletUpdateSpent_frame Scenario.chain Scenario.wallet
           (Scenario.received 1200 1000 [2000000; 300000]) true).
  intros _. vm_compute. eexists. reflexivity.
Defined.

Lemma SelectCoins_sufficient_witness :
  let r := @SelectCoins (Scenario.params 0 10000) Scenario.chain Scenario.random
             Scenario.entropy Scenario.wallet 2500000 100000 [] 0 None false in
  fst (fst r) = true /\ 2500000 <= snd r.
Proof.
  apply (@SelectCoins_sufficient (Scenario.params 0 10000) Scenario.chain Scenario.random
           Scenario.entropy Scenario.wallet 2500000 100000 [] 0 false).
  - exact Scenario_Shuffle_permutes.
  - vm_compute. discriminate.
  - split; [split; vm_compute; discriminate|]. split.
    + repeat (apply Forall_cons; [vm_compute; discriminate|]). apply Forall_nil.
    + vm_compute. reflexivity.
  - vm_compute. discriminate.
  - exists (mkOutput (Scenario.received 1200 1000 [2000000; 300000]) 0 200).
    split; [vm_compute; left; reflexivity|vm_compute; reflexivity].
Defined.

Lemma Unlock_false_unchanged_witness :
  snd (@Unlock Scenario.crypto Scenario.pass_old [(1, Scenario.wrapped Scenario.pass_pw)]
         Scenario.locked)
  = Scenario.locked.
Proof.
  apply (@Unlock_false_unchanged Scenario.crypto Scenario.pass_old
           [(1, Scenario.wrapped Scenario.pass_pw)] Scenario.locked).
  vm_compute. reflexivity.
Defined.

Lemma Unlock_true_matches_witness :
  @IsLocked Scenario.crypto Scenario.locked = true
  /\ exists k, In k [(1, Scenario.wrapped Scenario.pass_pw)]
               /\ @record_matches Scenario.crypto Scenario.pass_pw Scenario.locked (snd k)
                  = true.
Proof.
  apply (@Unlock_true_matches Scenario.crypto Scenario.pass_pw
           [(1, Scenario.wrapped Scenario.pass_pw)] Scenario.locked).
  vm_compute. reflexivity.
Defined.

Lemma GetReservedKey_again_witness :
  @GetReservedKey Scenario.builder (mkReserveKey 7 (Some 7)) []
  = Some (7, mkReserveKey 7 (Some 7), []).
Proof.
  apply (@GetReservedKey_again Scenario.builder (mkReserveKey (-1) None)
           (mkReserveKey 7 (Some 7)) [7] [] 7).
  - vm_compute. reflexivity.
  - vm_compute. discriminate.
Defined.

Section KeypoolSamples.
Import stdpp.gmap.
Local Open Scope Z_scope.

(** The key pool of the samples: the key of the least index is drawn
    first, an unlocked wallet with an empty pool is topped up to four keys,
    and a new pool on the locked wallet leaves it without keys. *)
Example keypool_of_the_samples :
  @Keypool.ReserveKeyFromKeyPool Samples.store (@Keypool.CKeyPool_default Samples.store) Samples.pooled
  = Keypool.Returns (4, Keypool.mkKeyPool 1700000100 (Some 10))
      (Keypool.set_setKeyPool Samples.pooled (list_to_set [5; 7]))
  /\ @Keypool.GetOldestKeyPoolTime Samples.store Samples.drained
     = Keypool.Returns 1800000000 Samples.drained
  /\ match @Keypool.TopUpKeyPool Samples.store 0
             (Keypool.set_keys Samples.drained (false, 13)) with
     | Keypool.Returns b w => b = true /\ Keypool.setKeyPool w = list_to_set [1; 2; 3; 4]
     | _ => False
     end
  /\ match @Keypool.NewKeyPool Samples.store Samples.pooled with
     | Keypool.Returns b w => b = false /\ Keypool.setKeyPool w = ∅
     | _ => False
     end.
Proof.
  split; [vm_compute; reflexivity|].
  split; [vm_compute; reflexivity|].
  split; vm_compute; split; reflexivity.
Qed.

Lemma ReserveKeyFromKeyPool_oldest_witness :
  (Keypool.setKeyPool Samples.pooled = ∅ ->
   @Keypool.ReserveKeyFromKeyPool Samples.store (@Keypool.CKeyPool_default Samples.store) Samples.pooled
   = Keypool.Returns
       (-1, Keypool.mkKeyPool (Keypool.nTime (@Keypool.CKeyPool_default Samples.store)) None)
       Samples.pooled)
  /\ (forall nIndex keypool' w',
        Keypool.setKeyPool Samples.pooled <> ∅ ->
        @Keypool.ReserveKeyFromKeyPool Samples.store (@Keypool.CKeyPool_default Samples.store) Samples.pooled
        = Keypool.Returns (nIndex, keypool') w' ->
        nIndex ∈ Keypool.setKeyPool Samples.pooled
        /\ (forall j, j ∈ Keypool.setKeyPool Samples.pooled -> nIndex <= j)
        /\ w' = Keypool.set_setKeyPool Samples.pooled
                  (Keypool.setKeyPool Samples.pooled ∖ {[nIndex]})
        /\ Keypool.ReadPool (Keypool.walletdb Samples.pooled) nIndex = Some keypool'
        /\ is_Some (Keypool.vchPubKey keypool')
        /\ Keypool.HaveKey (Keypool.keys Samples.pooled) (Keypool.vchPubKey keypool') = true).
Proof.
  apply (@ReserveKeyFromKeyPool_oldest Samples.store (@Keypool.CKeyPool_default Samples.store) Samples.pooled).
  reflexivity.
Defined.

Lemma GetOldestKeyPoolTime_restores_witness :
  Samples.pooled = Samples.pooled
  /\ (Keypool.setKeyPool Samples.pooled = ∅ -> 1700000100 = @Keypool.GetAdjustedTime Samples.store)
  /\ (Keypool.setKeyPool Samples.pooled <> ∅ ->
      exists nIndex keypool,
        nIndex ∈ Keypool.setKeyPool Samples.pooled
        /\ (forall j, j ∈ Keypool.setKeyPool Samples.pooled -> nIndex <= j)
        /\ Keypool.ReadPool (Keypool.walletdb Samples.pooled) nIndex = Some keypool
        /\ 1700000100 = Keypool.nTime keypool).
Proof.
  apply (@GetOldestKeyPoolTime_restores Samples.store Samples.pooled 1700000100
           Samples.pooled).
  - reflexivity.
  - vm_compute. discriminate.
  - vm_compute. reflexivity.
Defined.

Lemma GetKeyFromPool_locked_witness :
  Keypool.keys (Keypool.KeepKey 4 (Keypool.set_setKeyPool Samples.pooled (list_to_set [5; 7])))
  = Keypool.keys Samples.pooled
  /\ (true = false <->
      Keypool.setKeyPool Samples.pooled = ∅
      /\ (false = false \/ Keypool.vchDefaultKey Samples.pooled = None))
  /\ (true = true -> is_Some (Some 10)).
Proof.
  apply (@GetKeyFromPool_locked Samples.store false Samples.pooled true (Some 10)
           (Keypool.KeepKey 4 (Keypool.set_setKeyPool Samples.pooled (list_to_set [5; 7])))).
  - reflexivity.
  - vm_compute. discriminate.
  - vm_compute. reflexivity.
Defined.

End KeypoolSamples.
